(** * Enigma M3/M4 simulator (enigma.py): shallow embedding and verification

    The development follows the source file top-down: the fragment of
    Python it relies on (strings, exceptions, mutable objects), then the
    classes [Rotor], [_InternalRotor], [Reflector], [_InternalReflector]
    and [Enigma], the named rotors and reflectors, and finally the
    properties of the machine. *)

From Stdlib Require Import String Ascii.
From Stdlib Require Import ZArith NArith List Bool Lia Permutation FinFun.
Import Corelib.Init.Datatypes.
Import ListNotations.
Open Scope Z_scope.

(** ** Python strings

    A Python [str] is a sequence of Unicode code points; a character is a
    string of length one.  Code points are numbers in [N], integers are
    in [Z]. *)

Definition character := N.
Definition str := list character.

(** String literals of the source, written as Rocq strings (one byte per
    character: every literal of enigma.py is ASCII). *)
Definition py (s : String.string) : str :=
  map Ascii.N_of_ascii (String.list_ascii_of_string s).
Arguments py s%_string.

Definition ABC : str := py "ABCDEFGHIJKLMNOPQRSTUVWXYZ".

(** ** Exceptions and results *)

Inductive exn : Type :=
| RotorError
| EnigmaError
| ValueError
| TypeError
| IndexError.

Inductive res (A : Type) : Type :=
| Ok (a : A)
| Raise (e : exn).
Arguments Ok {A} a.
Arguments Raise {A} e.

Definition rbind {A B} (r : res A) (f : A -> res B) : res B :=
  match r with
  | Ok a => f a
  | Raise e => Raise e
  end.

Notation "x <- r ;; k" := (rbind r (fun x => k))
  (at level 61, r at next level, right associativity).

(** A list comprehension whose element expression may raise. *)
Fixpoint mapM {A B} (f : A -> res B) (l : list A) : res (list B) :=
  match l with
  | [] => Ok []
  | a :: l' => b <- f a ;; bs <- mapM f l' ;; Ok (b :: bs)
  end.

(** Methods that mutate [self] and may raise: the state reached when the
    exception leaves the method is kept, as it is in Python. *)
Definition M (S A : Type) : Type := S -> res A * S.

Definition ret {S A} (a : A) : M S A := fun s => (Ok a, s).
Definition raise {S A} (e : exn) : M S A := fun s => (Raise e, s).
Definition bind {S A B} (m : M S A) (f : A -> M S B) : M S B :=
  fun s => match m s with
           | (Ok a, s') => f a s'
           | (Raise e, s') => (Raise e, s')
           end.

Notation "'do' x <- m ; k" := (bind m (fun x => k))
  (at level 10, x name, m at level 100, k at level 200).
Notation "'do_' m ; k" := (bind m (fun _ => k))
  (at level 10, m at level 100, k at level 200).

(** ** Built-in string operations *)

Definition len {A} (s : list A) : Z := Z.of_nat (length s).

(** [s[i]], negative indices counting from the end. *)
Definition getitem {A} (s : list A) (i : Z) : res A :=
  let j := if i <? 0 then i + len s else i in
  if j <? 0 then Raise IndexError
  else match nth_error s (Z.to_nat j) with
       | Some c => Ok c
       | None => Raise IndexError
       end.

(** Slice bounds are clipped, negative ones are taken from the end. *)
Definition clip {A} (s : list A) (k : Z) : nat :=
  Z.to_nat (if k <? 0 then Z.max 0 (k + len s) else k).

(** [s[k:]] and [s[:k]]. *)
Definition slice_from {A} (s : list A) (k : Z) : list A := skipn (clip s k) s.
Definition slice_to {A} (s : list A) (k : Z) : list A := firstn (clip s k) s.

Fixpoint startswith (s sub : str) : bool :=
  match sub, s with
  | [], _ => true
  | _ :: _, [] => false
  | c :: sub', d :: s' => (c =? d)%N && startswith s' sub'
  end.

Fixpoint find_from (s sub : str) (i : Z) : option Z :=
  if startswith s sub then Some i
  else match s with
       | [] => None
       | _ :: s' => find_from s' sub (i + 1)
       end.

(** [s.index(sub)]: position of the first occurrence of the substring,
    [ValueError] when there is none. *)
Definition index (s sub : str) : res Z :=
  match find_from s sub 0 with
  | Some i => Ok i
  | None => Raise ValueError
  end.

(** [s.count(c)] for a one-character [c]. *)
Definition count (s : str) (c : character) : Z :=
  len (filter (fun d => (d =? c)%N) s).

(** [set(s)]: the distinct elements (iteration order is not observed by
    the program, which only takes [len] and tests membership). *)
Definition set_of {A} (eq_dec : forall x y : A, {x = y} + {x <> y})
  (s : list A) : list A := nodup eq_dec s.

Definition in_set (x : Z) (s : list Z) : bool := existsb (Z.eqb x) s.

Definition between (lo hi c : N) : bool := ((lo <=? c) && (c <=? hi))%N.

(** [c.isalpha()] for one code point: the Unicode categories Lu, Ll, Lt,
    Lm and Lo.  The table is transcribed for U+0000..U+00FF; code points
    above that range are outside the model (answered [false] here), and
    the statements below that depend on this function keep their
    characters inside the range. *)
Definition isalpha_cp (c : character) : bool :=
  between 65 90 c || between 97 122 c
  || (c =? 170)%N || (c =? 181)%N || (c =? 186)%N
  || between 192 214 c || between 216 246 c || between 248 255 c.

(** [s.isalpha()]: every character is alphabetic and there is at least
    one. *)
Definition isalpha (s : str) : bool :=
  match s with
  | [] => false
  | _ => forallb isalpha_cp s
  end.

(** [c.upper()] for one code point, a string: U+00DF has the two-letter
    upper case SS, U+00B5 and U+00FF have theirs outside Latin-1.  Same
    range as [isalpha_cp]. *)
Definition upper_cp (c : character) : str :=
  if between 97 122 c then [c - 32]%N
  else if (c =? 181)%N then [924]%N
  else if (c =? 223)%N then [83; 83]%N
  else if between 224 246 c || between 248 254 c then [c - 32]%N
  else if (c =? 255)%N then [376]%N
  else [c].

Definition upper (s : str) : str := flat_map upper_cp s.

(** ** class Rotor

    The attributes [Rotor.__init__] gives to [self]; [notch] is [None] or
    a set of integers. *)

Record RotorAttrs : Type := mkAttrs {
  wiring : str;
  ring : Z;
  notch : option (list Z)
}.

(** [Rotor.__init__(self, wiring, notch=None, ring='A')]. *)
Definition Rotor_init (wiring : str) (notch : option str) (ring : str)
  : res RotorAttrs :=
  if negb (len wiring =? 26) || negb (isalpha wiring)
     || (len (set_of N.eq_dec wiring) <? 26)
  then Raise RotorError
  else
    let w := upper wiring in
    if negb (len ring =? 1) || negb (isalpha ring) then Raise ValueError
    else
      r <- index ABC (upper ring) ;;
      match notch with
      | None => Ok (mkAttrs w r None)
      | Some n =>
          if negb ((len n =? 1) || (len n =? 2)) then Raise ValueError
          else
            ns <- mapM (fun c => index ABC [c]) n ;;
            Ok (mkAttrs w r (Some (set_of Z.eq_dec ns)))
      end.

(** A rotor object: the class defines neither [__eq__] nor [__hash__], so
    [in] and set membership compare objects by identity; [oid] is that
    identity. *)
Record Rotor : Type := mkRotor {
  oid : N;
  attrs :> RotorAttrs
}.

Definition new_Rotor (o : N) (wiring : str) (notch : option str) (ring : str)
  : res Rotor :=
  a <- Rotor_init wiring notch ring ;; Ok (mkRotor o a).

(** [x in xs] and [x in {...}] on rotor objects. *)
Definition is_in (x : Rotor) (xs : list Rotor) : bool :=
  existsb (fun y => (oid x =? oid y)%N) xs.

(** ** class _InternalRotor(Rotor) *)

Record _InternalRotor : Type := mkInternalRotor {
  self_attrs :> RotorAttrs;
  baserotor : Rotor;
  pos : Z;
  mapping : str
}.

Definition set_pos (r : _InternalRotor) (p : Z) : _InternalRotor :=
  mkInternalRotor (self_attrs r) (baserotor r) p (mapping r).
Definition set_ring (r : _InternalRotor) (k : Z) : _InternalRotor :=
  mkInternalRotor (mkAttrs (wiring r) k (notch r)) (baserotor r) (pos r)
    (mapping r).
Definition set_mapping (r : _InternalRotor) (m : str) : _InternalRotor :=
  mkInternalRotor (self_attrs r) (baserotor r) (pos r) m.

(** [_InternalRotor.remap]: the new mapping is assigned once both lines
    have been evaluated. *)
Definition remap : M _InternalRotor unit := fun self =>
  match
    w <- mapM (fun char => i <- index ABC [char] ;;
                           getitem ABC ((i + ring self) mod 26))
              (wiring self) ;;
    Ok (slice_from w ((pos self - ring self) mod 26)
        ++ slice_to w ((pos self - ring self) mod 26))
  with
  | Ok m => (Ok tt, set_mapping self m)
  | Raise e => (Raise e, self)
  end.

(** [_InternalRotor.__init__(self, baserotor, pos='A')]. *)
Definition InternalRotor_init (baserotor : Rotor) (pos : str)
  : res _InternalRotor :=
  notches <- match notch baserotor with
             | None => Ok None
             | Some ns => cs <- mapM (getitem ABC) ns ;; Ok (Some cs)
             end ;;
  ringc <- getitem ABC (ring baserotor) ;;
  a <- Rotor_init (wiring baserotor) notches [ringc] ;;
  if (len pos =? 1) && isalpha pos then
    p <- index ABC (upper pos) ;;
    match remap (mkInternalRotor a baserotor p []) with
    | (Ok _, self) => Ok self
    | (Raise e, _) => Raise e
    end
  else Raise RotorError.

(** [_InternalRotor.right2left(self, char)], [char] one character. *)
Definition right2left (self : _InternalRotor) (char : character)
  : res character :=
  i <- index ABC [char] ;;
  newchar <- getitem (mapping self) (i mod 26) ;;
  j <- index ABC [newchar] ;;
  getitem ABC ((j - pos self) mod 26).

(** [_InternalRotor.left2right(self, char)], [char] one character. *)
Definition left2right (self : _InternalRotor) (char : character)
  : res character :=
  i <- index ABC [char] ;;
  newchar <- getitem ABC ((i + pos self) mod 26) ;;
  j <- index (mapping self) [newchar] ;;
  getitem ABC (j mod 26).

(** [_InternalRotor.turn]: [pos] is assigned before the new mapping is
    evaluated. *)
Definition turn : M _InternalRotor unit := fun self =>
  let self1 := set_pos self ((pos self + 1) mod 26) in
  match getitem (mapping self1) 0 with
  | Ok c => (Ok tt, set_mapping self1 (slice_from (mapping self1) 1 ++ [c]))
  | Raise e => (Raise e, self1)
  end.

(** ** class Reflector(Rotor) *)

Definition enumerate {A} (l : list A) : list (Z * A) :=
  combine (map Z.of_nat (seq 0 (length l))) l.

Fixpoint Reflector_check (w : str) (en : list (Z * character)) : res unit :=
  match en with
  | [] => Ok tt
  | (i, c) :: en' =>
      wi <- getitem w i ;;
      k <- index w [c] ;;
      a <- getitem ABC k ;;
      if negb (wi =? a)%N then Raise RotorError else Reflector_check w en'
  end.

(** [Reflector.__init__(self, wiring)]. *)
Definition Reflector_init (wiring : str) : res RotorAttrs :=
  a <- Rotor_init wiring None (py "A") ;;
  _ <- Reflector_check (upper wiring) (enumerate ABC) ;;
  Ok a.

Definition new_Reflector (o : N) (wiring : str) : res Rotor :=
  a <- Reflector_init wiring ;; Ok (mkRotor o a).

(** ** class _InternalReflector(Reflector, _InternalRotor)

    Its [__init__] runs [Reflector.__init__] only, so the object has
    neither [pos] nor [mapping]; the attribute is called [baserotor] in
    the source as well. *)

Record _InternalReflector : Type := mkInternalReflector {
  reflector_attrs :> RotorAttrs;
  basereflector : Rotor
}.

Definition InternalReflector_init (basereflector : Rotor)
  : res _InternalReflector :=
  a <- Reflector_init (wiring basereflector) ;;
  Ok (mkInternalReflector a basereflector).

(** [_InternalReflector.reflect(self, char)]. *)
Definition reflect (self : _InternalReflector) (char : character) : res character :=
  i <- index ABC (upper [char]) ;;
  getitem (wiring self) i.

(** ** The named rotors and reflectors

    Each constant is the object its constructor call returns (lemmas
    [rotors_constructed] and [reflectors_constructed] below). *)

Definition unwrap {A} (d : A) (r : res A) : A :=
  match r with
  | Ok a => a
  | Raise _ => d
  end.

Definition no_rotor : Rotor := mkRotor 0 (mkAttrs [] 0 None).

Module Named.

Definition I : Rotor := Eval vm_compute in
  unwrap no_rotor
    (new_Rotor 1 (py "EKMFLGDQVZNTOWYHXUSPAIBRCJ") (Some (py "Q")) (py "A")).
Definition II : Rotor := Eval vm_compute in
  unwrap no_rotor
    (new_Rotor 2 (py "AJDKSIRUXBLHWTMCQGZNPYFVOE") (Some (py "E")) (py "A")).
Definition III : Rotor := Eval vm_compute in
  unwrap no_rotor
    (new_Rotor 3 (py "BDFHJLCPRTXVZNYEIWGAKMUSQO") (Some (py "V")) (py "A")).
Definition IV : Rotor := Eval vm_compute in
  unwrap no_rotor
    (new_Rotor 4 (py "ESOVPZJAYQUIRHXLNFTGKDCMWB") (Some (py "J")) (py "A")).
Definition V : Rotor := Eval vm_compute in
  unwrap no_rotor
    (new_Rotor 5 (py "VZBRGITYUPSDNHLXAWMJQOFECK") (Some (py "Z")) (py "A")).
Definition VI : Rotor := Eval vm_compute in
  unwrap no_rotor
    (new_Rotor 6 (py "JPGVOUMFYQBENHZRDKASXLICTW") (Some (py "ZM")) (py "A")).
Definition VII : Rotor := Eval vm_compute in
  unwrap no_rotor
    (new_Rotor 7 (py "NZJHGRCXMYSWBOUFAIVLPEKQDT") (Some (py "ZM")) (py "A")).
Definition VIII : Rotor := Eval vm_compute in
  unwrap no_rotor
    (new_Rotor 8 (py "FKQHTLXOCBJSPDZRAMEWNIUYGV") (Some (py "ZM")) (py "A")).

(* the following rotors do not turn, so they don't need notches *)
Definition BETA : Rotor := Eval vm_compute in
  unwrap no_rotor
    (new_Rotor 9 (py "LEYJVCNIXWPBQMDRTAKZGFUHOS") None (py "A")).
Definition GAMMA : Rotor := Eval vm_compute in
  unwrap no_rotor
    (new_Rotor 10 (py "FSOKANUERHMBTIYCWLQPZXVGJD") None (py "A")).

Definition UKWB : Rotor := Eval vm_compute in
  unwrap no_rotor (new_Reflector 11 (py "YRUHQSLDPXNGOKMIEBFZCWVJAT")).
Definition UKWC : Rotor := Eval vm_compute in
  unwrap no_rotor (new_Reflector 12 (py "FVPJIAOYEDRZXWGCTKUQSBNMHL")).
(* for use with BETA and GAMMA only *)
Definition UKWB_THIN : Rotor := Eval vm_compute in
  unwrap no_rotor (new_Reflector 13 (py "ENKQAUYWJICOPBLMDXZVFTHRGS")).
Definition UKWC_THIN : Rotor := Eval vm_compute in
  unwrap no_rotor (new_Reflector 14 (py "RDOBJNTKVEHMLFCWZAXGYIPSUQ")).

End Named.

(** The keys of [ROTORLIST] and of [REFLECTORLIST]. *)
Definition ROTORLIST : list Rotor :=
  [Named.I; Named.II; Named.III; Named.IV; Named.V; Named.VI; Named.VII;
   Named.VIII; Named.BETA; Named.GAMMA].

Definition REFLECTORLIST : list Rotor :=
  [Named.UKWB; Named.UKWC; Named.UKWB_THIN; Named.UKWC_THIN].

(** ** class Enigma *)

(** The plugboard [dict]: one-character keys and values, insertion order
    kept. *)
Definition dict := list (character * character).

(** [d.get(k, default)]. *)
Fixpoint dict_get (d : dict) (k default : character) : character :=
  match d with
  | [] => default
  | (k', v) :: d' => if (k' =? k)%N then v else dict_get d' k default
  end.

(** [d[k] = v]. *)
Fixpoint dict_set (d : dict) (k v : character) : dict :=
  match d with
  | [] => [(k, v)]
  | (k', v') :: d' =>
      if (k' =? k)%N then (k, v) :: d' else (k', v') :: dict_set d' k v
  end.

Record Enigma : Type := mkEnigma {
  _reflector : _InternalReflector;
  _rotors : list _InternalRotor;
  _plugboard : dict;
  doublestep : bool
}.

Definition with_rotors (self : Enigma) (rs : list _InternalRotor) : Enigma :=
  mkEnigma (_reflector self) rs (_plugboard self) (doublestep self).
Definition with_plugboard (self : Enigma) (d : dict) : Enigma :=
  mkEnigma (_reflector self) (_rotors self) d (doublestep self).
Definition with_reflector (self : Enigma) (r : _InternalReflector) : Enigma :=
  mkEnigma r (_rotors self) (_plugboard self) (doublestep self).
Definition with_doublestep (self : Enigma) (b : bool) : Enigma :=
  mkEnigma (_reflector self) (_rotors self) (_plugboard self) b.

(** [grundstellung] (getter). *)
Definition grundstellung (self : Enigma) : res str :=
  mapM (fun r => getitem ABC (pos r)) (_rotors self).

(** The loop of the [grundstellung] setter over
    [zip(self._rotors, grundstellung.upper())]: the rotors are mutated in
    place, one after the other. *)
Fixpoint grundstellung_loop (rs : list _InternalRotor) (ps : str)
  : res unit * list _InternalRotor :=
  match rs, ps with
  | rotor :: rs', p :: ps' =>
      match index ABC [p] with
      | Raise e => (Raise e, rs)
      | Ok k =>
          match remap (set_pos rotor k) with
          | (Raise e, rotor') => (Raise e, rotor' :: rs')
          | (Ok _, rotor') =>
              let '(x, rs'') := grundstellung_loop rs' ps' in
              (x, rotor' :: rs'')
          end
      end
  | _, _ => (Ok tt, rs)
  end.

(** [grundstellung] (setter). *)
Definition grundstellung_set (grundstellung : str) : M Enigma unit :=
  fun self =>
    if negb (isalpha grundstellung) then (Raise ValueError, self)
    else if negb (len grundstellung =? len (_rotors self))
    then (Raise EnigmaError, self)
    else
      let '(x, rs) := grundstellung_loop (_rotors self) (upper grundstellung) in
      (x, with_rotors self rs).

(** [ringstellung] (getter). *)
Definition ringstellung (self : Enigma) : res str :=
  mapM (fun r : _InternalRotor => getitem ABC (ring r)) (_rotors self).

Fixpoint ringstellung_loop (rs : list _InternalRotor) (rings : str)
  : res unit * list _InternalRotor :=
  match rs, rings with
  | r :: rs', c :: rings' =>
      match index ABC [c] with
      | Raise e => (Raise e, rs)
      | Ok k =>
          match remap (set_ring r k) with
          | (Raise e, r') => (Raise e, r' :: rs')
          | (Ok _, r') =>
              let '(x, rs'') := ringstellung_loop rs' rings' in
              (x, r' :: rs'')
          end
      end
  | _, _ => (Ok tt, rs)
  end.

(** [ringstellung] (setter). *)
Definition ringstellung_set (ringstellung : str) : M Enigma unit :=
  fun self =>
    if negb (len (_rotors self) =? len ringstellung)
    then (Raise EnigmaError, self)
    else if negb (isalpha ringstellung) then (Raise ValueError, self)
    else
      let '(x, rs) := ringstellung_loop (_rotors self) (upper ringstellung) in
      (x, with_rotors self rs).

(** The loop of the [plugboard] setter; the dictionary is filled in
    place. *)
Fixpoint plugboard_loop (plugboard : list str) (d : dict) : res unit * dict :=
  match plugboard with
  | [] => (Ok tt, d)
  | pair0 :: rest =>
      match (a <- getitem pair0 0 ;; b <- getitem pair0 1 ;; Ok (a =? b)%N) with
      | Raise e => (Raise e, d)
      | Ok true => plugboard_loop rest d
      | Ok false =>
          let pair1 := upper pair0 in
          match (a <- getitem pair1 0 ;; b <- getitem pair1 1 ;; Ok (a, b)) with
          | Raise e => (Raise e, d)
          | Ok (a, b) => plugboard_loop rest (dict_set (dict_set d a b) b a)
          end
      end
  end.

(** [plugboard] (setter); the iterable is a list of strings. *)
Definition plugboard_set (plugboard : list str) : M Enigma unit :=
  fun self =>
    match plugboard with
    | [] => (Ok tt, with_plugboard self [])
    | _ =>
        let plugstr := concat plugboard in
        if existsb (fun p => negb (len p =? 2)) plugboard
           || negb (isalpha plugstr)
        then (Raise ValueError, self)
        else if existsb (fun c => 1 <? count plugstr c) plugstr
        then (Raise ValueError, self)
        else
          let '(x, d) := plugboard_loop plugboard [] in
          (x, with_plugboard self d)
    end.

(** [reflector] (setter). *)
Definition reflector_set (reflector : Rotor) : M Enigma unit :=
  fun self =>
    match InternalReflector_init reflector with
    | Ok r => (Ok tt, with_reflector self r)
    | Raise e => (Raise e, self)
    end.

(** The value the [rotors] setter assigns to [self._rotors]; it reads
    [self._reflector] only. *)
Definition rotors_value (reflector : _InternalReflector) (rotors : list Rotor)
  : res (list _InternalRotor) :=
  _ <- (if len rotors =? 3 then
          if is_in Named.BETA rotors || is_in Named.GAMMA rotors
          then Raise EnigmaError
          else if is_in (basereflector reflector)
                    [Named.UKWB_THIN; Named.UKWC_THIN]
          then Raise EnigmaError
          else Ok tt
        else if len rotors =? 4 then
          r0 <- getitem rotors 0 ;;
          if negb (is_in r0 [Named.BETA; Named.GAMMA])
          then Raise EnigmaError
          else if is_in (basereflector reflector) [Named.UKWB; Named.UKWC]
          then Raise EnigmaError
          else Ok tt
        else Raise EnigmaError) ;;
  mapM (fun r => InternalRotor_init r (py "A")) rotors.

(** [rotors] (setter). *)
Definition rotors_set (rotors : list Rotor) : M Enigma unit :=
  fun self =>
    match rotors_value (_reflector self) rotors with
    | Ok rs => (Ok tt, with_rotors self rs)
    | Raise e => (Raise e, self)
    end.

(** ['A'*n]. *)
Definition times_A (n : Z) : str := repeat 65%N (Z.to_nat n).

(** [Enigma.__init__]; the defaults of [ringstellung], [plugboard] and
    [grundstellung] are the empty string and the empty list.  An
    exception abandons the object under construction.  [doublestep] is a
    [bool] by its type, so the [isinstance] test passes. *)
Definition Enigma_init (rotors : list Rotor) (reflector : Rotor)
  (ringstellung : str) (plugboard : list str) (doublestep : bool)
  (grundstellung : str) : res Enigma :=
  refl <- InternalReflector_init reflector ;;
  rs <- rotors_value refl rotors ;;
  let self := mkEnigma refl rs [] doublestep in
  let ringstellung :=
    match ringstellung with [] => times_A (len rotors) | _ => ringstellung end in
  let grundstellung :=
    match grundstellung with [] => times_A (len rotors) | _ => grundstellung end in
  match (do_ ringstellung_set ringstellung;
         do_ grundstellung_set grundstellung;
         plugboard_set plugboard) self with
  | (Ok _, self') => Ok self'
  | (Raise e, _) => Raise e
  end.

(** [self._rotors[i]], read and written back after a method call on it. *)
Definition index_of {A} (l : list A) (i : Z) : Z :=
  if i <? 0 then i + len l else i.

Fixpoint setitem {A} (l : list A) (n : nat) (x : A) : list A :=
  match l, n with
  | [], _ => []
  | _ :: l', O => x :: l'
  | y :: l', S n' => y :: setitem l' n' x
  end.

Definition on_rotor {A} (i : Z) (m : M _InternalRotor A) : M Enigma A :=
  fun self =>
    match getitem (_rotors self) i with
    | Raise e => (Raise e, self)
    | Ok r =>
        let '(x, r') := m r in
        (x, with_rotors self
              (setitem (_rotors self) (Z.to_nat (index_of (_rotors self) i)) r'))
    end.

(** [self._rotors[i].pos in self._rotors[i].notch]; [in] raises
    [TypeError] on [None]. *)
Definition pos_in_notch (i : Z) : M Enigma bool :=
  on_rotor i (fun r =>
    match notch r with
    | None => (Raise TypeError, r)
    | Some ns => (Ok (in_set (pos r) ns), r)
    end).

(** The stepping of the wheels, done before each character. *)
Definition step : M Enigma unit :=
  fun self =>
    (do c1 <- (if doublestep self then pos_in_notch (-2) else ret false);
     do_ (if c1 then
            do_ on_rotor (-2) turn;
            on_rotor (-3) turn
          else
            do c2 <- pos_in_notch (-1);
            if c2 then
              do c3 <- pos_in_notch (-2);
              do_ (if c3 then on_rotor (-3) turn else ret tt);
              on_rotor (-2) turn
            else ret tt);
     on_rotor (-1) turn) self.

Definition through {A} (f : A -> character -> res character)
  (l : list A) (c : character) : res character :=
  fold_left (fun acc x => newchar <- acc ;; f x newchar) l (Ok c).

(** The electrical path of one character: plugboard, rotors from right to
    left, reflector, rotors from left to right, plugboard. *)
Definition signal (self : Enigma) (char : character) : res character :=
  let newchar := dict_get (_plugboard self) char char in
  newchar <- through right2left (rev (_rotors self)) newchar ;;
  newchar <- reflect (_reflector self) newchar ;;
  newchar <- through left2right (_rotors self) newchar ;;
  Ok (dict_get (_plugboard self) newchar newchar).

Fixpoint encode_loop (message : str) (ciphertext : str) : M Enigma str :=
  match message with
  | [] => ret ciphertext
  | char :: rest =>
      do_ step;
      do newchar <- (fun self => (signal self char, self));
      encode_loop rest (ciphertext ++ [newchar])
  end.

(** [Enigma.encode(self, message, grundstellung=None)]. *)
Definition encode (message : str) (grundstellung : option str)
  : M Enigma str :=
  fun self =>
    if negb (isalpha message) then (Raise EnigmaError, self)
    else
      (do_ (match grundstellung with
            | Some ((_ :: _) as g) => grundstellung_set g
            | _ => ret tt
            end);
       encode_loop (upper message) []) self.

(** A call of a method from outside: the value and the machine after
    the call, or the exception. *)
Definition call {S A} (m : M S A) (self : S) : res (A * S) :=
  match m self with
  | (Ok a, self') => Ok (a, self')
  | (Raise e, _) => Raise e
  end.

(** [plugboard] (getter): [key + val] for the items of the dictionary,
    in insertion order, that have [key < val]. *)
Definition plugboard_get (self : Enigma) : list str :=
  map (fun kv => [fst kv; snd kv])
      (filter (fun kv => (fst kv <? snd kv)%N) (_plugboard self)).

(** * Vocabulary of the statements *)

(** ** Letters *)

(** The letters of [ABC], and the ASCII letters of either case. *)
Definition is_upper (c : character) : bool := between 65 90 c.
Definition ascii_letter (c : character) : bool :=
  between 65 90 c || between 97 122 c.

(** A string of ASCII letters (possibly empty). *)
Definition letters (s : str) : bool := forallb ascii_letter s.

(** [c.upper()] on an ASCII letter. *)
Definition to_upper (c : character) : character :=
  if between 97 122 c then (c - 32)%N else c.

(** Position of a letter in [ABC] and back. *)
Definition ord (c : character) : Z := Z.of_N c - 65.
Definition chr (i : Z) : character := Z.to_N (i + 65).

(** First position of a character in a string. *)
Fixpoint pos_of (c : character) (s : str) : option nat :=
  match s with
  | [] => None
  | d :: s' => if (c =? d)%N then Some O else option_map S (pos_of c s')
  end.

(** No character occurs twice. *)
Fixpoint distinct (s : str) : bool :=
  match s with
  | [] => true
  | c :: s' => negb (existsb (N.eqb c) s') && distinct s'
  end.

(** ** Wirings *)

(** A string that holds each of the 26 letters of [ABC] exactly once. *)
Definition is_perm (m : str) : bool :=
  (length m =? 26)%nat && forallb (fun c => existsb (N.eqb c) m) ABC.

(** [wiring[c]], the letter a wiring string sends the letter [c] to. *)
Definition wired (w : str) (c : character) : res character :=
  i <- index ABC [c] ;; getitem w i.

(** [wiring[wiring[c]] == c], for one letter and for every letter of
    [ABC]. *)
Definition reflects_back (w : str) (c : character) : bool :=
  match x <- wired w c ;; wired w x with
  | Ok d => (d =? c)%N
  | Raise _ => false
  end.

Definition self_inverse (w : str) : bool := forallb (reflects_back w) ABC.

(** [wiring[c] != c] for every letter [c] of [ABC]. *)
Definition no_fixed_point (w : str) : bool :=
  forallb (fun c => match wired w c with
                    | Ok d => negb (d =? c)%N
                    | Raise _ => false
                    end) ABC.

(** ** The cached mapping *)

(** The ring offset applied to a letter of the wiring, and the rotation
    of the table, as [remap] computes them. *)
Definition shift (k : Z) (c : character) : character :=
  chr ((ord c + k) mod 26).
Definition rot {A} (n : nat) (w : list A) : list A := skipn n w ++ firstn n w.

(** What [remap] assigns to [self.mapping]. *)
Definition remapped (self : _InternalRotor) : str :=
  rot (Z.to_nat ((pos self - ring self) mod 26))
      (map (shift (ring self)) (wiring self)).

(** What the [grundstellung] setter makes of a rotor for the letter
    [p]. *)
Definition reposition (r : _InternalRotor) (p : character) : _InternalRotor :=
  set_mapping (set_pos r (ord p)) (remapped (set_pos r (ord p))).

(** A positioned rotor as the machine sets it up: [_InternalRotor(r, 'A')]
    by the [rotors] setter, then [ring] and [remap()] by the
    [ringstellung] setter, then [pos] and [remap()] by the
    [grundstellung] setter. *)
Definition positioned (r : Rotor) (ringv posv : Z) : res _InternalRotor :=
  r0 <- InternalRotor_init r (py "A") ;;
  r1 <- call remap (set_ring r0 ringv) ;;
  r2 <- call remap (set_pos (snd r1) posv) ;;
  Ok (snd r2).

(** ** The plugboard *)

(** The plugboard swaps letters of [ABC] in pairs:
    [d.get(d.get(c, c), ...) == c]. *)
Definition plug (d : dict) (c : character) : character := dict_get d c c.
Definition plug_ok (d : dict) : bool :=
  forallb (fun c => is_upper (plug d c) && (plug d (plug d c) =? c)%N) ABC.

(** The same, with the letters the pairs have used so far: the others are
    left alone. *)
Definition swaps (d : dict) (used : str) : Prop :=
  (forall c, is_upper c = true ->
             is_upper (plug d c) = true /\ plug d (plug d c) = c)
  /\ (forall c, ~ In c used -> plug d c = c).

(** ** Machines in a valid state *)

Definition has_notch (r : _InternalRotor) : bool :=
  match notch r with
  | Some _ => true
  | None => false
  end.

(** The cached mapping of a rotor is a permutation of the alphabet. *)
Definition mapping_ok (r : _InternalRotor) : Prop :=
  Permutation ABC (mapping r).

(** The wiring and the cached mapping of a rotor are permutations of the
    alphabet. *)
Definition wf_rotor (r : _InternalRotor) : bool :=
  is_perm (wiring r) && is_perm (mapping r).

(** A machine in a valid state: at least three rotors, each well formed,
    the two rightmost ones with a notch set (the stepping rule tests
    their notches), a self-inverse reflector and a plugboard that swaps
    letters in pairs. *)
Definition wf_machine (e : Enigma) : bool :=
  forallb wf_rotor (_rotors e)
  && match rev (map has_notch (_rotors e)) with
     | n1 :: n2 :: _ :: _ => n1 && n2
     | _ => false
     end
  && is_perm (wiring (_reflector e))
  && self_inverse (wiring (_reflector e))
  && plug_ok (_plugboard e).

(** A starting position given to [encode]: absent, or one ASCII letter
    per rotor. *)
Definition start_ok (e : Enigma) (g : option str) : bool :=
  match g with
  | None => true
  | Some p => letters p && (length p =? length (_rotors e))%nat
  end.

(** What stepping and repositioning leave alone in a rotor. *)
Definition static (r : _InternalRotor) : RotorAttrs * Rotor :=
  (self_attrs r, baserotor r).

(** The machines [e'] that differ from [e] by the positions and cached
    mappings of the rotors only. *)
Definition same_static (e e' : Enigma) : Prop :=
  _reflector e' = _reflector e /\ _plugboard e' = _plugboard e
  /\ doublestep e' = doublestep e
  /\ map static (_rotors e') = map static (_rotors e).

(** [r'] is [r] moved: same wiring, ring, notches and base rotor, and a
    cached mapping that is still a permutation of the alphabet. *)
Definition moved (r r' : _InternalRotor) : Prop :=
  static r' = static r /\ mapping_ok r'.

(** ** Valid configurations *)

Definition defines_notch (r : Rotor) : bool :=
  match notch r with
  | Some _ => true
  | None => false
  end.

(** A configuration the documentation of [Enigma] calls valid, beyond
    what the constructor tests: rotor and reflector objects hold their
    wiring in upper-case letters (as [Rotor.__init__] stores it), the
    two rightmost rotors have notches, and the plugboard is made of
    ASCII letters none of which occurs twice, in either case. *)
Definition valid_configuration (rotors : list Rotor) (reflector : Rotor)
  (plugboard : list str) : bool :=
  forallb (fun r : Rotor => forallb is_upper (wiring r)) rotors
  && forallb is_upper (wiring reflector)
  && match rev (map defines_notch rotors) with
     | n1 :: n2 :: _ => n1 && n2
     | _ => false
     end
  && letters (concat plugboard)
  && distinct (upper (concat plugboard)).

(** A constructor call or an assignment that did not raise. *)
Definition accepted {A} (r : res A) : bool :=
  match r with
  | Ok _ => true
  | Raise _ => false
  end.

(** The machine a constructor call returns (an empty machine stands for a
    rejected call). *)
Definition machine (r : res Enigma) : Enigma :=
  unwrap (mkEnigma (mkInternalReflector (mkAttrs [] 0 None) no_rotor)
            [] [] false) r.

(** ** The machines of enigmatest.py *)

Definition M3 : Enigma :=
  machine (Enigma_init [Named.I; Named.II; Named.III] Named.UKWB (py "AAA")
             [] true []).

Definition M4_plugboard : list str :=
  [py "AE"; py "BF"; py "CM"; py "DQ"; py "HU"; py "JN"; py "LX"; py "PR";
   py "SZ"; py "VW"].

Definition M4 : Enigma :=
  machine (Enigma_init [Named.BETA; Named.V; Named.VI; Named.VIII]
             Named.UKWC_THIN (py "EPEL") M4_plugboard true []).

(** The [n]-th rotor of a machine, from the left. *)
Definition machine_rotor (e : Enigma) (n : nat) : _InternalRotor :=
  nth n (_rotors e) (mkInternalRotor (mkAttrs [] 0 None) no_rotor 0 []).

(** Rotor VIII of [M4] (ring L) brought to position Z. *)
Definition VIII_at_Z : _InternalRotor :=
  machine_rotor (snd (grundstellung_set (py "NAEZ") M4)) 3.

(** A wiring that swaps A and B and leaves every other letter where it
    is. *)
Definition swap_AB : str := py "BACDEFGHIJKLMNOPQRSTUVWXYZ".

(** ** Further vocabulary *)

(** [n] successive calls of [turn()]. *)
Fixpoint turns (n : nat) : M _InternalRotor unit :=
  match n with
  | O => ret tt
  | S n' => do_ turns n'; turn
  end.

(** The cache of a rotor is what [remap()] would compute, and its
    position is one of the 26. *)
Definition rotor_inv (r : _InternalRotor) : Prop :=
  mapping r = remapped r /\ 0 <= pos r < 26.

(** What the [ringstellung] setter makes of a rotor for the letter
    [c]. *)
Definition rering (r : _InternalRotor) (c : character) : _InternalRotor :=
  set_mapping (set_ring r (ord c)) (remapped (set_ring r (ord c))).

(** A plugboard pair as the getter gives it back: in upper case, the
    smaller letter first. *)
Definition sorted_pair (p : str) : str :=
  match upper p with
  | a :: b :: _ => if (a <? b)%N then [a; b] else [b; a]
  | _ => []
  end.

(** The two entries a pair adds to the plugboard dictionary. *)
Definition pair_entries (p : str) : dict :=
  match upper p with
  | a :: b :: _ => [(a, b); (b, a)]
  | _ => []
  end.

(** A rotor after one keystroke: where it was, or turned once. *)
Definition stepped (r r' : _InternalRotor) : Prop :=
  r' = r \/ turn r = (Ok tt, r').

(** A 26-letter wiring that has the letter A in both cases and no B. *)
Definition double_A : str := py "aACDEFGHIJKLMNOPQRSTUVWXYZ".

(** * Properties *)

(** ** The named constants are what their constructors return *)

Lemma rotors_constructed :
  new_Rotor 1 (py "EKMFLGDQVZNTOWYHXUSPAIBRCJ") (Some (py "Q")) (py "A") = Ok Named.I /\
  new_Rotor 2 (py "AJDKSIRUXBLHWTMCQGZNPYFVOE") (Some (py "E")) (py "A") = Ok Named.II /\
  new_Rotor 3 (py "BDFHJLCPRTXVZNYEIWGAKMUSQO") (Some (py "V")) (py "A") = Ok Named.III /\
  new_Rotor 4 (py "ESOVPZJAYQUIRHXLNFTGKDCMWB") (Some (py "J")) (py "A") = Ok Named.IV /\
  new_Rotor 5 (py "VZBRGITYUPSDNHLXAWMJQOFECK") (Some (py "Z")) (py "A") = Ok Named.V /\
  new_Rotor 6 (py "JPGVOUMFYQBENHZRDKASXLICTW") (Some (py "ZM")) (py "A") = Ok Named.VI /\
  new_Rotor 7 (py "NZJHGRCXMYSWBOUFAIVLPEKQDT") (Some (py "ZM")) (py "A") = Ok Named.VII /\
  new_Rotor 8 (py "FKQHTLXOCBJSPDZRAMEWNIUYGV") (Some (py "ZM")) (py "A") = Ok Named.VIII /\
  new_Rotor 9 (py "LEYJVCNIXWPBQMDRTAKZGFUHOS") None (py "A") = Ok Named.BETA /\
  new_Rotor 10 (py "FSOKANUERHMBTIYCWLQPZXVGJD") None (py "A") = Ok Named.GAMMA.
Proof. repeat split; vm_compute; reflexivity. Qed.

Lemma reflectors_constructed :
  new_Reflector 11 (py "YRUHQSLDPXNGOKMIEBFZCWVJAT") = Ok Named.UKWB /\
  new_Reflector 12 (py "FVPJIAOYEDRZXWGCTKUQSBNMHL") = Ok Named.UKWC /\
  new_Reflector 13 (py "ENKQAUYWJICOPBLMDXZVFTHRGS") = Ok Named.UKWB_THIN /\
  new_Reflector 14 (py "RDOBJNTKVEHMLFCWZAXGYIPSUQ") = Ok Named.UKWC_THIN.
Proof. repeat split; vm_compute; reflexivity. Qed.

(** ** Known vectors (enigmatest.py) *)

Example M3_encode_norings :
  (e <- Enigma_init [Named.I; Named.II; Named.III] Named.UKWB (py "AAA") []
          true [] ;;
   c <- call (encode (py "AAAAA") (Some (py "AAA"))) e ;; Ok (fst c))
  = Ok (py "BDZGO").
Proof. vm_compute. reflexivity. Qed.

Example M3_encode_rings :
  (e <- Enigma_init [Named.I; Named.II; Named.III] Named.UKWB (py "BBB") []
          true [] ;;
   c <- call (encode (py "AAAAA") (Some (py "AAA"))) e ;;
   d <- call (encode (py "EWTYX") (Some (py "AAA"))) (snd c) ;;
   Ok (fst c, fst d))
  = Ok (py "EWTYX", py "AAAAA").
Proof. vm_compute. reflexivity. Qed.

(** C2.  The M4 machine with rotors (BETA, V, VI, VIII), thin reflector C,
    ring settings EPEL and the ten plugboard pairs encodes QEOB to CDSZ
    from the starting position NAEM, whether NAEM is given to the
    constructor (as in the docstring of [encode]) or to [encode] (as in
    the test). *)
Theorem M4_encode_QEOB :
  (m4 <- Enigma_init [Named.BETA; Named.V; Named.VI; Named.VIII]
           Named.UKWC_THIN (py "EPEL") M4_plugboard true (py "NAEM") ;;
   c <- call (encode (py "QEOB") None) m4 ;; Ok (fst c))
  = Ok (py "CDSZ")
  /\
  (m4 <- Enigma_init [Named.BETA; Named.V; Named.VI; Named.VIII]
           Named.UKWC_THIN (py "EPEL") M4_plugboard true [] ;;
   c <- call (encode (py "QEOB") (Some (py "NAEM"))) m4 ;; Ok (fst c))
  = Ok (py "CDSZ").
Proof. split; vm_compute; reflexivity. Qed.

Example M4_encode_Doenitz :
  (m4 <- Enigma_init [Named.BETA; Named.V; Named.VI; Named.VIII]
           Named.UKWC_THIN (py "EPEL") M4_plugboard true [] ;;
   c <- call (encode (py "LANOTCTOUARBBFPMHPHGCZXTDYGAHGUFXGEWKBLKGJWL")
                (Some (py "CDSZ"))) m4 ;;
   Ok (fst c))
  = Ok (py "KRKRALLEXXFOLGENDESISTSOFORTBEKANNTZUGEBENXX").
Proof. vm_compute. reflexivity. Qed.

(** C3.  Rotors (I, II, III), reflector B, rings AAA: encoding HELLO from
    AAT leaves the positions at ABY; from ADT with the double step, at
    BFY; from ADT without it, at AEY. *)
Theorem doublestep_positions :
  (e <- Enigma_init [Named.I; Named.II; Named.III] Named.UKWB (py "AAA") []
          true [] ;;
   c <- call (encode (py "HELLO") (Some (py "AAT"))) e ;;
   grundstellung (snd c))
  = Ok (py "ABY")
  /\
  (e <- Enigma_init [Named.I; Named.II; Named.III] Named.UKWB (py "AAA") []
          true [] ;;
   c <- call (encode (py "HELLO") (Some (py "ADT"))) e ;;
   grundstellung (snd c))
  = Ok (py "BFY")
  /\
  (e <- Enigma_init [Named.I; Named.II; Named.III] Named.UKWB (py "AAA") []
          false [] ;;
   c <- call (encode (py "HELLO") (Some (py "ADT"))) e ;;
   grundstellung (snd c))
  = Ok (py "AEY").
Proof. repeat split; vm_compute; reflexivity. Qed.

(** The same three runs on one machine, as [test_doublestep] does them:
    [doublestep] is switched off before the third. *)
Example test_doublestep :
  (e <- Enigma_init [Named.I; Named.II; Named.III] Named.UKWB (py "AAA") []
          true [] ;;
   c1 <- call (encode (py "HELLO") (Some (py "AAT"))) e ;;
   g1 <- grundstellung (snd c1) ;;
   c2 <- call (encode (py "HELLO") (Some (py "ADT"))) (snd c1) ;;
   g2 <- grundstellung (snd c2) ;;
   c3 <- call (encode (py "HELLO") (Some (py "ADT")))
           (with_doublestep (snd c2) false) ;;
   g3 <- grundstellung (snd c3) ;;
   Ok (g1, g2, g3))
  = Ok (py "ABY", py "BFY", py "AEY").
Proof. vm_compute. reflexivity. Qed.

(** ** Strings *)

Lemma ABC_eq : ABC = map (fun k => N.of_nat (65 + k)) (seq 0 26).
Proof. reflexivity. Qed.

Lemma is_upper_In c : is_upper c = true <-> In c ABC.
Proof.
  unfold is_upper, between. rewrite ABC_eq, in_map_iff. split.
  - intros H. apply andb_prop in H. destruct H as [H1 H2].
    apply N.leb_le in H1. apply N.leb_le in H2.
    exists (N.to_nat c - 65)%nat. split; [lia|]. apply in_seq. lia.
  - intros [k [<- Hk]]. apply in_seq in Hk.
    apply andb_true_intro. split; apply N.leb_le; lia.
Qed.

(** A property checked on the 26 letters holds of every letter. *)
Lemma ABC_forall (P : character -> bool) :
  forallb P ABC = true -> forall c, is_upper c = true -> P c = true.
Proof.
  intros H c Hc. rewrite forallb_forall in H. apply H, is_upper_In, Hc.
Qed.

Lemma range26_forall (P : Z -> bool) :
  forallb P (map Z.of_nat (seq 0 26)) = true ->
  forall i, 0 <= i < 26 -> P i = true.
Proof.
  intros H i Hi. rewrite forallb_forall in H. apply H.
  apply in_map_iff. exists (Z.to_nat i). split; [lia|]. apply in_seq. lia.
Qed.

Lemma ord_range c : is_upper c = true -> 0 <= ord c < 26.
Proof.
  unfold is_upper, between, ord. intros H. apply andb_prop in H.
  destruct H as [H1 H2]. apply N.leb_le in H1. apply N.leb_le in H2. lia.
Qed.

Lemma chr_upper i : 0 <= i < 26 -> is_upper (chr i) = true.
Proof.
  intros H. unfold is_upper, between, chr.
  apply andb_true_intro. split; apply N.leb_le; lia.
Qed.

Lemma chr_ord c : is_upper c = true -> chr (ord c) = c.
Proof. intros H. apply ord_range in H. unfold chr, ord in *. lia. Qed.

Lemma ord_chr i : 0 <= i < 26 -> ord (chr i) = i.
Proof. intros H. unfold chr, ord. lia. Qed.

Lemma startswith_single s c :
  startswith s [c] = match s with
                     | [] => false
                     | d :: _ => (c =? d)%N
                     end.
Proof.
  destruct s as [|d s']; simpl; [reflexivity|].
  destruct s'; apply andb_true_r.
Qed.

Lemma find_from_single s c : forall i,
  find_from s [c] i = option_map (fun n => i + Z.of_nat n) (pos_of c s).
Proof.
  induction s as [|d s IH]; intros i.
  - reflexivity.
  - cbn [find_from pos_of]. rewrite startswith_single.
    destruct (c =? d)%N.
    + simpl. f_equal. lia.
    + rewrite IH. destruct (pos_of c s); simpl; [f_equal; lia|reflexivity].
Qed.

Lemma index_single s c :
  index s [c] = match pos_of c s with
                | Some n => Ok (Z.of_nat n)
                | None => Raise ValueError
                end.
Proof.
  unfold index. rewrite find_from_single.
  destruct (pos_of c s); simpl; reflexivity.
Qed.

Lemma pos_of_nth c s : forall n, pos_of c s = Some n -> nth_error s n = Some c.
Proof.
  induction s as [|d s IH]; intros n; simpl; [discriminate|].
  destruct (N.eqb_spec c d) as [->|Hne].
  - intros [= <-]. reflexivity.
  - destruct (pos_of c s) as [m|]; simpl; [|discriminate].
    intros [= <-]. simpl. apply IH. reflexivity.
Qed.

Lemma pos_of_In c s : In c s -> exists n, pos_of c s = Some n.
Proof.
  induction s as [|d s IH]; simpl; [tauto|].
  intros H. destruct (N.eqb_spec c d) as [->|Hne]; [eauto|].
  destruct H as [H|H]; [congruence|].
  destruct (IH H) as [n ->]. simpl. eauto.
Qed.

Lemma pos_of_None c s : ~ In c s -> pos_of c s = None.
Proof.
  induction s as [|d s IH]; simpl; [reflexivity|].
  intros H. destruct (N.eqb_spec c d) as [->|Hne]; [tauto|].
  rewrite IH; [reflexivity|tauto].
Qed.

Lemma pos_of_NoDup c s : NoDup s ->
  forall n, nth_error s n = Some c -> pos_of c s = Some n.
Proof.
  induction 1 as [|d s Hd Hs IH]; intros n Hn.
  - destruct n; discriminate.
  - simpl. destruct n as [|n]; simpl in Hn.
    + injection Hn as ->. rewrite N.eqb_refl. reflexivity.
    + destruct (N.eqb_spec c d) as [->|Hne].
      * exfalso. apply Hd. eapply nth_error_In, Hn.
      * rewrite (IH _ Hn). reflexivity.
Qed.

Lemma getitem_nonneg {A} (s : list A) i : 0 <= i ->
  getitem s i = match nth_error s (Z.to_nat i) with
                | Some c => Ok c
                | None => Raise IndexError
                end.
Proof.
  intros H. unfold getitem.
  destruct (Z.ltb_spec i 0); [lia|].
  destruct (Z.ltb_spec i 0); [lia|]. reflexivity.
Qed.

Lemma getitem_nat {A} (s : list A) n x :
  nth_error s n = Some x -> getitem s (Z.of_nat n) = Ok x.
Proof.
  intros H. rewrite getitem_nonneg by lia. rewrite Nat2Z.id, H. reflexivity.
Qed.

Lemma getitem_Ok {A} (s : list A) i x : 0 <= i ->
  getitem s i = Ok x -> nth_error s (Z.to_nat i) = Some x.
Proof.
  intros Hi. rewrite getitem_nonneg by assumption.
  destruct (nth_error s (Z.to_nat i)); [intros [= ->]; reflexivity|discriminate].
Qed.

Lemma index_ABC c : is_upper c = true -> index ABC [c] = Ok (ord c).
Proof.
  intros H.
  assert (E : forallb (fun c => match index ABC [c] with
                                | Ok i => i =? ord c
                                | Raise _ => false
                                end) ABC = true) by (vm_compute; reflexivity).
  pose proof (ABC_forall _ E c H) as Hc. cbv beta in Hc.
  destruct (index ABC [c]); [|discriminate].
  apply Z.eqb_eq in Hc. congruence.
Qed.

Lemma index_ABC_not_upper c :
  is_upper c = false -> index ABC [c] = Raise ValueError.
Proof.
  intros H. rewrite index_single, pos_of_None; [reflexivity|].
  intros Hin. apply is_upper_In in Hin. congruence.
Qed.

Lemma getitem_ABC i : 0 <= i < 26 -> getitem ABC i = Ok (chr i).
Proof.
  intros H.
  assert (E : forallb (fun i => match getitem ABC i with
                                | Ok c => (c =? chr i)%N
                                | Raise _ => false
                                end) (map Z.of_nat (seq 0 26)) = true)
    by (vm_compute; reflexivity).
  pose proof (range26_forall _ E i H) as Hi. cbv beta in Hi.
  destruct (getitem ABC i); [|discriminate].
  apply N.eqb_eq in Hi. congruence.
Qed.

Lemma NoDup_ABC : NoDup ABC.
Proof.
  rewrite ABC_eq. apply Injective_map_NoDup; [|apply seq_NoDup].
  intros x y Hxy. lia.
Qed.

(** ** Permutations of the alphabet *)

Lemma is_perm_Permutation m : is_perm m = true -> Permutation ABC m.
Proof.
  unfold is_perm. intros H. apply andb_prop in H. destruct H as [Hl Hin].
  apply Nat.eqb_eq in Hl. apply NoDup_Permutation_bis.
  - apply NoDup_ABC.
  - rewrite Hl. reflexivity.
  - intros c Hc. rewrite forallb_forall in Hin. specialize (Hin c Hc).
    apply existsb_exists in Hin. destruct Hin as [d [Hd E]].
    apply N.eqb_eq in E. subst d. exact Hd.
Qed.

Lemma Permutation_is_perm m : Permutation ABC m -> is_perm m = true.
Proof.
  intros H. unfold is_perm. apply andb_true_intro. split.
  - apply Nat.eqb_eq. rewrite <- (Permutation_length H). reflexivity.
  - apply forallb_forall. intros c Hc. apply existsb_exists.
    exists c. split; [|apply N.eqb_refl]. eapply Permutation_in; eassumption.
Qed.

Section Perm.
Variable m : str.
Hypothesis Hm : Permutation ABC m.

Lemma perm_length : length m = 26%nat.
Proof. rewrite <- (Permutation_length Hm). reflexivity. Qed.

Lemma perm_NoDup : NoDup m.
Proof. eapply Permutation_NoDup; [exact Hm|apply NoDup_ABC]. Qed.

Lemma perm_In c : In c m <-> is_upper c = true.
Proof.
  rewrite is_upper_In. split; intros H.
  - eapply Permutation_in; [apply Permutation_sym, Hm|exact H].
  - eapply Permutation_in; [apply Hm|exact H].
Qed.

(** [m[i]] for an index in range is a letter, found back by [index]. *)
Lemma perm_getitem i : 0 <= i < 26 ->
  exists x, getitem m i = Ok x /\ is_upper x = true /\ index m [x] = Ok i.
Proof.
  intros Hi. destruct (nth_error m (Z.to_nat i)) as [x|] eqn:E.
  - exists x. split; [|split].
    + rewrite getitem_nonneg, E by lia. reflexivity.
    + apply perm_In. eapply nth_error_In, E.
    + rewrite index_single, (pos_of_NoDup _ _ perm_NoDup _ E).
      f_equal. lia.
  - apply nth_error_None in E. rewrite perm_length in E. lia.
Qed.

(** [m.index(c)] for a letter is an index in range, where [c] is. *)
Lemma perm_index c : is_upper c = true ->
  exists i, index m [c] = Ok i /\ 0 <= i < 26 /\ getitem m i = Ok c.
Proof.
  intros Hc. apply perm_In in Hc. destruct (pos_of_In _ _ Hc) as [n Hn].
  exists (Z.of_nat n). rewrite index_single, Hn. split; [reflexivity|].
  apply pos_of_nth in Hn. split.
  - assert (n < length m)%nat by (apply nth_error_Some; congruence).
    rewrite perm_length in *. lia.
  - apply getitem_nat, Hn.
Qed.
End Perm.

(** ** The two halves of a rotor *)

Section Halves.
Variable self : _InternalRotor.
Hypothesis Hm : Permutation ABC (mapping self).

Lemma right2left_left2right char : is_upper char = true ->
  exists x, right2left self char = Ok x /\ is_upper x = true
            /\ left2right self x = Ok char.
Proof.
  intros Hc. pose proof (ord_range _ Hc) as Ho.
  destruct (perm_getitem _ Hm (ord char) Ho) as [n [Hget [Hn Hidx]]].
  pose proof (ord_range _ Hn) as Hon.
  assert (Hr : 0 <= (ord n - pos self) mod 26 < 26)
    by (apply Z.mod_pos_bound; lia).
  exists (chr ((ord n - pos self) mod 26)). split; [|split].
  - unfold right2left. rewrite (index_ABC _ Hc). cbn [rbind].
    rewrite Z.mod_small by lia. rewrite Hget. cbn [rbind].
    rewrite (index_ABC _ Hn). cbn [rbind]. apply getitem_ABC, Hr.
  - apply chr_upper, Hr.
  - unfold left2right. rewrite (index_ABC _ (chr_upper _ Hr)).
    cbn [rbind]. rewrite (ord_chr _ Hr).
    rewrite Z.add_mod_idemp_l by lia.
    replace (ord n - pos self + pos self) with (ord n) by lia.
    rewrite Z.mod_small by lia. rewrite (getitem_ABC _ Hon).
    cbn [rbind]. rewrite (chr_ord _ Hn), Hidx. cbn [rbind].
    rewrite Z.mod_small by lia. rewrite (getitem_ABC _ Ho).
    f_equal. apply chr_ord, Hc.
Qed.

Lemma left2right_right2left char : is_upper char = true ->
  exists x, left2right self char = Ok x /\ is_upper x = true
            /\ right2left self x = Ok char.
Proof.
  intros Hc. pose proof (ord_range _ Hc) as Ho.
  assert (Hr : 0 <= (ord char + pos self) mod 26 < 26)
    by (apply Z.mod_pos_bound; lia).
  pose proof (chr_upper _ Hr) as Hn.
  destruct (perm_index _ Hm _ Hn) as [j [Hidx [Hj Hget]]].
  exists (chr j). split; [|split].
  - unfold left2right. rewrite (index_ABC _ Hc). cbn [rbind].
    rewrite (getitem_ABC _ Hr). cbn [rbind]. rewrite Hidx. cbn [rbind].
    rewrite Z.mod_small by lia. apply getitem_ABC, Hj.
  - apply chr_upper, Hj.
  - unfold right2left. rewrite (index_ABC _ (chr_upper _ Hj)).
    cbn [rbind]. rewrite (ord_chr _ Hj), Z.mod_small by lia.
    rewrite Hget. cbn [rbind]. rewrite (index_ABC _ Hn). cbn [rbind].
    rewrite (ord_chr _ Hr), Zminus_mod_idemp_l.
    replace (ord char + pos self - pos self) with (ord char) by lia.
    rewrite Z.mod_small by lia. rewrite (getitem_ABC _ Ho).
    f_equal. apply chr_ord, Hc.
Qed.
End Halves.

(** ** remap and turn *)

Lemma mapM_map {A B} (f : A -> res B) (g : A -> B) (l : list A) :
  (forall a, In a l -> f a = Ok (g a)) -> mapM f l = Ok (map g l).
Proof.
  induction l as [|a l IH]; intros H; simpl; [reflexivity|].
  rewrite (H a) by (left; reflexivity). cbn [rbind].
  rewrite IH by (intros; apply H; right; assumption). reflexivity.
Qed.

Lemma mapM_Ok_inv {A B} (f : A -> res B) (l : list A) (bs : list B) :
  mapM f l = Ok bs -> Forall2 (fun a b => f a = Ok b) l bs.
Proof.
  revert bs. induction l as [|a l IH]; simpl; intros bs H.
  - injection H as <-. constructor.
  - destruct (f a) as [b|] eqn:Ea; [|discriminate]. cbn [rbind] in H.
    destruct (mapM f l) as [bs'|]; [|discriminate]. cbn [rbind] in H.
    injection H as <-. constructor; [assumption|]. apply IH. reflexivity.
Qed.

Lemma shift_spec k c : is_upper c = true ->
  (i <- index ABC [c] ;; getitem ABC ((i + k) mod 26)) = Ok (shift k c).
Proof.
  intros Hc. rewrite (index_ABC _ Hc). cbn [rbind].
  apply getitem_ABC, Z.mod_pos_bound. lia.
Qed.

Lemma shift_upper k c : is_upper (shift k c) = true.
Proof. apply chr_upper, Z.mod_pos_bound. lia. Qed.

Lemma shift_shift k c : is_upper c = true -> shift k (shift (- k) c) = c.
Proof.
  intros Hc. pose proof (ord_range _ Hc). unfold shift at 1.
  unfold shift. rewrite ord_chr by (apply Z.mod_pos_bound; lia).
  rewrite Z.add_mod_idemp_l by lia.
  replace (ord c + - k + k) with (ord c) by lia.
  rewrite Z.mod_small by lia. apply chr_ord, Hc.
Qed.

Lemma slices_rot {A} (w : list A) k : 0 <= k ->
  slice_from w k ++ slice_to w k = rot (Z.to_nat k) w.
Proof.
  intros Hk. unfold slice_from, slice_to, clip, rot.
  destruct (Z.ltb_spec k 0); [lia|]. reflexivity.
Qed.

Lemma remap_spec (self : _InternalRotor) :
  Forall (fun c => is_upper c = true) (wiring self) ->
  remap self = (Ok tt, set_mapping self (remapped self)).
Proof.
  intros H. unfold remap.
  rewrite (mapM_map _ (shift (ring self))).
  - cbn [rbind]. rewrite slices_rot by (apply Z.mod_pos_bound; lia).
    reflexivity.
  - intros c Hc. apply shift_spec. rewrite Forall_forall in H. auto.
Qed.

Lemma remap_Ok_upper (self self' : _InternalRotor) :
  remap self = (Ok tt, self') ->
  Forall (fun c => is_upper c = true) (wiring self).
Proof.
  unfold remap. intros H.
  destruct (mapM _ (wiring self)) as [w|] eqn:E; cbn [rbind] in H;
    [|discriminate].
  apply mapM_Ok_inv in E. clear H. induction E as [|c b l bs Hc _ IH];
    constructor; [|exact IH].
  destruct (is_upper c) eqn:Eu; [reflexivity|].
  rewrite (index_ABC_not_upper _ Eu) in Hc. discriminate.
Qed.

Lemma rot_Permutation {A} n (w : list A) : Permutation w (rot n w).
Proof.
  unfold rot. rewrite <- (firstn_skipn n w) at 1. apply Permutation_app_comm.
Qed.

Lemma shift_Permutation k : Permutation ABC (map (shift k) ABC).
Proof.
  apply NoDup_Permutation_bis.
  - apply NoDup_ABC.
  - rewrite length_map. reflexivity.
  - intros c Hc. apply is_upper_In in Hc. apply in_map_iff.
    exists (shift (- k) c). split; [apply shift_shift, Hc|].
    apply is_upper_In, shift_upper.
Qed.

Lemma remapped_Permutation (self : _InternalRotor) :
  Permutation ABC (wiring self) -> Permutation ABC (remapped self).
Proof.
  intros H. unfold remapped.
  eapply Permutation_trans; [|apply rot_Permutation].
  eapply Permutation_trans; [apply shift_Permutation|].
  apply Permutation_map, H.
Qed.

Lemma perm_Forall_upper m :
  Permutation ABC m -> Forall (fun c => is_upper c = true) m.
Proof. intros H. apply Forall_forall. intros c. apply (perm_In _ H). Qed.

Lemma skipn_cons_step {A} (w : list A) : forall k x b,
  skipn k w = x :: b ->
  firstn (S k) w = firstn k w ++ [x] /\ skipn (S k) w = b.
Proof.
  induction w as [|a w IH]; intros k x b H.
  - destruct k; discriminate.
  - destruct k as [|k].
    + simpl in H. injection H as -> ->. split; reflexivity.
    + simpl in H. destruct (IH _ _ _ H) as [H1 H2]. split.
      * change (firstn (S (S k)) (a :: w)) with (a :: firstn (S k) w).
        rewrite H1. reflexivity.
      * exact H2.
Qed.

(** Rotating once more: the head of the rotated table moves to its
    end. *)
Lemma rot_step {A} (w : list A) k : (k < length w)%nat ->
  exists c t, rot k w = c :: t
              /\ t ++ [c] = rot (if (S k <? length w)%nat then S k else 0) w.
Proof.
  intros Hk. destruct (skipn k w) as [|x b] eqn:E.
  - apply (f_equal (@length A)) in E. rewrite length_skipn in E.
    simpl in E. lia.
  - destruct (skipn_cons_step _ _ _ _ E) as [H1 H2].
    exists x, (b ++ firstn k w). split.
    + unfold rot. rewrite E. reflexivity.
    + destruct (Nat.ltb_spec (S k) (length w)) as [Hlt|Hge].
      * unfold rot. rewrite H1, H2. symmetry. apply app_assoc.
      * assert (Hb : b = []).
        { pose proof (f_equal (@length A) E) as El.
          rewrite length_skipn in El. simpl in El.
          destruct b; [reflexivity|simpl in El; lia]. }
        clear H1 H2. rewrite Hb in *. unfold rot.
        change (skipn 0 w) with w. change (firstn 0 w) with (@nil A).
        rewrite app_nil_r. rewrite <- (firstn_skipn k w) at 2.
        rewrite E. reflexivity.
Qed.

Lemma turn_spec (self : _InternalRotor) :
  length (wiring self) = 26%nat ->
  mapping self = remapped self ->
  turn self =
  (Ok tt, set_mapping (set_pos self ((pos self + 1) mod 26))
            (remapped (set_pos self ((pos self + 1) mod 26)))).
Proof.
  intros Hl Hm. set (K := (pos self - ring self) mod 26).
  assert (HK : 0 <= K < 26) by (apply Z.mod_pos_bound; lia).
  assert (Hlen : length (map (shift (ring self)) (wiring self)) = 26%nat)
    by (rewrite length_map; exact Hl).
  destruct (rot_step (map (shift (ring self)) (wiring self)) (Z.to_nat K))
    as [c [t [Hr Ht]]]; [rewrite Hlen; lia|].
  assert (HK' : ((pos self + 1) mod 26 - ring self) mod 26 =
                if K <? 25 then K + 1 else 0).
  { rewrite Zminus_mod_idemp_l.
    replace (pos self + 1 - ring self) with (pos self - ring self + 1) by lia.
    rewrite <- Z.add_mod_idemp_l by lia. fold K.
    destruct (Z.ltb_spec K 25).
    - apply Z.mod_small. lia.
    - replace K with 25 by lia. reflexivity. }
  unfold turn. cbn [mapping set_pos]. rewrite Hm. unfold remapped at 1 2.
  fold K. rewrite Hr. unfold getitem, slice_from, clip. simpl.
  f_equal. f_equal. rewrite Ht. unfold remapped. cbn [pos ring set_pos wiring self_attrs].
  rewrite HK', Hlen. destruct (Z.ltb_spec K 25).
  - destruct (Nat.ltb_spec (S (Z.to_nat K)) 26); [|lia].
    f_equal. lia.
  - destruct (Nat.ltb_spec (S (Z.to_nat K)) 26); [lia|]. reflexivity.
Qed.

(** ** The signal path is an involution *)

Lemma through_Raise {A} (f : A -> character -> res character) l e :
  fold_left (fun acc x => newchar <- acc ;; f x newchar) l (Raise e) = Raise e.
Proof. induction l as [|x l IH]; simpl; [reflexivity|exact IH]. Qed.

Lemma through_cons {A} (f : A -> character -> res character) x l c :
  through f (x :: l) c = (y <- f x c ;; through f l y).
Proof.
  unfold through. simpl. destruct (f x c); [reflexivity|apply through_Raise].
Qed.

Lemma through_snoc {A} (f : A -> character -> res character) x l c :
  through f (l ++ [x]) c = (y <- through f l c ;; f x y).
Proof. unfold through. rewrite fold_left_app. reflexivity. Qed.

Lemma rotors_there_and_back rs : Forall mapping_ok rs ->
  forall c, is_upper c = true ->
  exists x, through right2left (rev rs) c = Ok x /\ is_upper x = true
            /\ through left2right rs x = Ok c.
Proof.
  induction 1 as [|r rs Hr _ IH]; intros c Hc.
  - exists c. repeat split; assumption.
  - destruct (IH c Hc) as [y [Hy [Uy Hback]]].
    destruct (right2left_left2right r Hr y Uy) as [x [Hx [Ux Hxy]]].
    exists x. split; [|split].
    + simpl rev. rewrite through_snoc, Hy. exact Hx.
    + exact Ux.
    + rewrite through_cons, Hxy. exact Hback.
Qed.

Lemma rotors_back_and_there rs : Forall mapping_ok rs ->
  forall x, is_upper x = true ->
  exists c, through left2right rs x = Ok c /\ is_upper c = true
            /\ through right2left (rev rs) c = Ok x.
Proof.
  induction 1 as [|r rs Hr _ IH]; intros x Hx.
  - exists x. repeat split; assumption.
  - destruct (left2right_right2left r Hr x Hx) as [y [Hy [Uy Hyx]]].
    destruct (IH y Uy) as [c [Hc [Uc Hback]]].
    exists c. split; [|split].
    + rewrite through_cons, Hy. exact Hc.
    + exact Uc.
    + simpl rev. rewrite through_snoc, Hback. exact Hyx.
Qed.

Lemma upper_cp_upper c : is_upper c = true -> upper_cp c = [c].
Proof.
  intros H.
  assert (E : forallb (fun c => match upper_cp c with
                                | [d] => (d =? c)%N
                                | _ => false
                                end) ABC = true) by (vm_compute; reflexivity).
  pose proof (ABC_forall _ E c H) as Hc. cbv beta in Hc.
  destruct (upper_cp c) as [|d [|]]; try discriminate.
  apply N.eqb_eq in Hc. congruence.
Qed.

Lemma reflect_wired (self : _InternalReflector) c : is_upper c = true ->
  reflect self c = wired (wiring self) c.
Proof.
  intros H. unfold reflect, wired, upper. simpl.
  rewrite (upper_cp_upper _ H). reflexivity.
Qed.

Lemma wired_Ok_upper w c x : wired w c = Ok x -> is_upper c = true.
Proof.
  unfold wired. intros H. destruct (is_upper c) eqn:E; [reflexivity|].
  rewrite (index_ABC_not_upper _ E) in H. discriminate.
Qed.

Lemma self_inverse_spec w : self_inverse w = true ->
  forall c, is_upper c = true ->
  exists x, wired w c = Ok x /\ is_upper x = true /\ wired w x = Ok c.
Proof.
  intros H c Hc. pose proof (ABC_forall _ H c Hc) as E.
  unfold reflects_back in E.
  destruct (wired w c) as [x|] eqn:E1; cbn [rbind] in E; [|discriminate].
  destruct (wired w x) as [d|] eqn:E2; [|discriminate].
  apply N.eqb_eq in E. subst d. exists x. split; [reflexivity|].
  split; [eapply wired_Ok_upper, E2|exact E2].
Qed.

Lemma reflect_involution (self : _InternalReflector) : self_inverse (wiring self) = true ->
  forall c, is_upper c = true ->
  exists x, reflect self c = Ok x /\ is_upper x = true
            /\ reflect self x = Ok c.
Proof.
  intros H c Hc. destruct (self_inverse_spec _ H c Hc) as [x [H1 [Ux H2]]].
  exists x. rewrite (reflect_wired _ _ Hc), (reflect_wired _ _ Ux). auto.
Qed.

Lemma plug_ok_spec d : plug_ok d = true ->
  forall c, is_upper c = true ->
  is_upper (plug d c) = true /\ plug d (plug d c) = c.
Proof.
  intros H c Hc. pose proof (ABC_forall _ H c Hc) as E. cbv beta in E.
  apply andb_prop in E. destruct E as [E1 E2]. apply N.eqb_eq in E2. auto.
Qed.

Lemma signal_involution e :
  Forall mapping_ok (_rotors e) ->
  self_inverse (wiring (_reflector e)) = true ->
  plug_ok (_plugboard e) = true ->
  forall c, is_upper c = true ->
  exists o, signal e c = Ok o /\ is_upper o = true /\ signal e o = Ok c.
Proof.
  intros Hrs Hrefl Hplug c Hc.
  destruct (plug_ok_spec _ Hplug c Hc) as [Up Hpp].
  destruct (rotors_there_and_back _ Hrs _ Up) as [x [Hx [Ux Hxb]]].
  destruct (reflect_involution _ Hrefl x Ux) as [y [Hy [Uy Hyx]]].
  destruct (rotors_back_and_there _ Hrs y Uy) as [z [Hz [Uz Hzb]]].
  destruct (plug_ok_spec _ Hplug z Uz) as [Uo Hoo].
  exists (plug (_plugboard e) z). split; [|split].
  - unfold signal. fold (plug (_plugboard e) c). rewrite Hx. cbn [rbind].
    rewrite Hy. cbn [rbind]. rewrite Hz. reflexivity.
  - exact Uo.
  - unfold signal. fold (plug (_plugboard e) (plug (_plugboard e) z)).
    rewrite Hoo, Hzb. cbn [rbind]. rewrite Hyx. cbn [rbind]. rewrite Hxb.
    cbn [rbind]. fold (plug (_plugboard e) (plug (_plugboard e) c)).
    rewrite Hpp. reflexivity.
Qed.

(** ** Well-formed machines *)

Lemma wf_rotor_spec r :
  wf_rotor r = true ->
  Permutation ABC (wiring r) /\ mapping_ok r.
Proof.
  unfold wf_rotor, mapping_ok. intros H. apply andb_prop in H.
  destruct H as [H1 H2]. split; apply is_perm_Permutation; assumption.
Qed.

Lemma has_notch_static r r' : static r' = static r -> has_notch r' = has_notch r.
Proof.
  destruct r as [a b p m], r' as [a' b' p' m']. unfold static, has_notch.
  simpl. intros [= -> ->]. reflexivity.
Qed.

Lemma wiring_static (r r' : _InternalRotor) :
  static r' = static r -> wiring r' = wiring r.
Proof.
  destruct r as [a b p m], r' as [a' b' p' m']. unfold static.
  simpl. intros [= -> ->]. reflexivity.
Qed.

Lemma moved_refl r : wf_rotor r = true -> moved r r.
Proof. intros H. split; [reflexivity|apply wf_rotor_spec, H]. Qed.

Lemma moved_all_refl rs :
  forallb wf_rotor rs = true -> Forall2 moved rs rs.
Proof.
  induction rs as [|r rs IH]; simpl; intros H; constructor;
    apply andb_prop in H; destruct H as [H1 H2];
    [apply moved_refl, H1|apply IH, H2].
Qed.

Lemma moved_static rs rs' :
  Forall2 moved rs rs' -> map static rs' = map static rs.
Proof.
  induction 1 as [|r r' rs rs' [Hs _] _ IH]; simpl; [reflexivity|].
  rewrite Hs, IH. reflexivity.
Qed.

Lemma moved_wf rs rs' :
  forallb wf_rotor rs = true -> Forall2 moved rs rs' ->
  forallb wf_rotor rs' = true.
Proof.
  intros H F. induction F as [|r r' rs rs' [Hs Hm] _ IH]; simpl;
    [reflexivity|].
  simpl in H. apply andb_prop in H. destruct H as [H1 H2].
  apply andb_true_intro. split; [|apply IH, H2].
  unfold wf_rotor in *. apply andb_prop in H1. destruct H1 as [Hw _].
  rewrite (wiring_static _ _ Hs), Hw. apply Permutation_is_perm, Hm.
Qed.

Lemma static_notches rs rs' :
  map static rs' = map static rs -> map has_notch rs' = map has_notch rs.
Proof.
  revert rs'. induction rs as [|r rs IH]; intros [|r' rs']; simpl;
    try discriminate; [reflexivity|].
  intros H. pose proof (f_equal (hd (static r)) H) as Hs.
  pose proof (f_equal (@tl _) H) as Ht. simpl in Hs, Ht.
  rewrite (has_notch_static _ _ Hs), (IH _ Ht). reflexivity.
Qed.

Lemma wf_machine_iff e :
  wf_machine e = true <->
  forallb wf_rotor (_rotors e) = true
  /\ match rev (map has_notch (_rotors e)) with
     | n1 :: n2 :: _ :: _ => n1 && n2
     | _ => false
     end = true
  /\ is_perm (wiring (_reflector e)) = true
  /\ self_inverse (wiring (_reflector e)) = true
  /\ plug_ok (_plugboard e) = true.
Proof. unfold wf_machine. rewrite !andb_true_iff. tauto. Qed.

Lemma wf_moved e rs' :
  wf_machine e = true -> Forall2 moved (_rotors e) rs' ->
  wf_machine (with_rotors e rs') = true
  /\ same_static e (with_rotors e rs').
Proof.
  intros H F. pose proof (moved_static _ _ F) as Hs. split.
  - apply wf_machine_iff in H. destruct H as [H1 [H2 [H3 [H4 H5]]]].
    apply wf_machine_iff.
    cbn [_rotors _reflector _plugboard with_rotors].
    rewrite (static_notches _ _ Hs). repeat split; try assumption.
    eapply moved_wf; eassumption.
  - unfold same_static.
    cbn [_rotors _reflector _plugboard doublestep with_rotors]. auto.
Qed.

Lemma same_static_refl e : same_static e e.
Proof. unfold same_static. auto. Qed.

Lemma same_static_trans e1 e2 e3 :
  same_static e1 e2 -> same_static e2 e3 -> same_static e1 e3.
Proof.
  unfold same_static. intros [A1 [B1 [C1 D1]]] [A2 [B2 [C2 D2]]].
  repeat split; congruence.
Qed.

Lemma wf_mapping_ok e : wf_machine e = true -> Forall mapping_ok (_rotors e).
Proof.
  intros H. apply wf_machine_iff in H. destruct H as [H _].
  apply Forall_forall. intros r Hr. rewrite forallb_forall in H.
  apply wf_rotor_spec, H, Hr.
Qed.

(** The three rightmost rotors of a well-formed machine. *)
Lemma wf_last_three e : wf_machine e = true ->
  exists pre r3 r2 r1 n2 n1,
    _rotors e = pre ++ [r3; r2; r1]
    /\ notch r2 = Some n2 /\ notch r1 = Some n1.
Proof.
  intros H. apply wf_machine_iff in H. destruct H as [_ [H3 _]].
  rewrite <- map_rev in H3.
  rewrite <- (rev_involutive (_rotors e)).
  destruct (rev (_rotors e)) as [|r1 [|r2 [|r3 rest]]]; try discriminate.
  simpl in H3. apply andb_prop in H3. destruct H3 as [N1 N2].
  unfold has_notch in *.
  destruct (notch r1) as [n1|] eqn:E1; [|discriminate].
  destruct (notch r2) as [n2|] eqn:E2; [|discriminate].
  exists (rev rest), r3, r2, r1, n2, n1. split; [|auto].
  simpl. repeat rewrite <- app_assoc. reflexivity.
Qed.

(** ** Stepping *)

Lemma setitem_app {A} (pre : list A) r post x :
  setitem (pre ++ r :: post) (length pre) x = pre ++ x :: post.
Proof. induction pre as [|a pre IH]; simpl; [reflexivity|]. rewrite IH. reflexivity. Qed.

Lemma on_rotor_app {A} (m : M _InternalRotor A) e pre r post :
  _rotors e = pre ++ r :: post ->
  on_rotor (- Z.of_nat (length post) - 1) m e =
  (fst (m r), with_rotors e (pre ++ snd (m r) :: post)).
Proof.
  intros E. unfold on_rotor, getitem, index_of. rewrite E.
  assert (L : len (pre ++ r :: post) = Z.of_nat (length pre) + Z.of_nat (length post) + 1).
  { unfold len. rewrite length_app. simpl. lia. }
  destruct (Z.ltb_spec (- Z.of_nat (length post) - 1) 0); [|lia].
  rewrite L.
  replace (- Z.of_nat (length post) - 1 +
           (Z.of_nat (length pre) + Z.of_nat (length post) + 1))
    with (Z.of_nat (length pre)) by lia.
  destruct (Z.ltb_spec (Z.of_nat (length pre)) 0); [lia|].
  rewrite Nat2Z.id, nth_error_app2, Nat.sub_diag by lia. simpl.
  destruct (m r) as [x r']. simpl. rewrite setitem_app. reflexivity.
Qed.

Lemma on_rotor_1 {A} (m : M _InternalRotor A) e pre r3 r2 r1 :
  _rotors e = pre ++ [r3; r2; r1] ->
  on_rotor (-1) m e = (fst (m r1), with_rotors e (pre ++ [r3; r2; snd (m r1)])).
Proof.
  intros E. pose proof (on_rotor_app m e (pre ++ [r3; r2]) r1 []) as H.
  rewrite <- app_assoc in H. specialize (H E).
  rewrite <- app_assoc in H. exact H.
Qed.

Lemma on_rotor_2 {A} (m : M _InternalRotor A) e pre r3 r2 r1 :
  _rotors e = pre ++ [r3; r2; r1] ->
  on_rotor (-2) m e = (fst (m r2), with_rotors e (pre ++ [r3; snd (m r2); r1])).
Proof.
  intros E. pose proof (on_rotor_app m e (pre ++ [r3]) r2 [r1]) as H.
  rewrite <- app_assoc in H. specialize (H E).
  rewrite <- app_assoc in H. exact H.
Qed.

Lemma on_rotor_3 {A} (m : M _InternalRotor A) e pre r3 r2 r1 :
  _rotors e = pre ++ [r3; r2; r1] ->
  on_rotor (-3) m e = (fst (m r3), with_rotors e (pre ++ [snd (m r3); r2; r1])).
Proof. intros E. exact (on_rotor_app m e pre r3 [r2; r1] E). Qed.

Lemma turn_moved r : mapping_ok r ->
  exists r', turn r = (Ok tt, r') /\ moved r r'.
Proof.
  intros H. unfold mapping_ok in H.
  destruct (mapping r) as [|c t] eqn:E.
  - apply Permutation_length in H. discriminate.
  - eexists. split.
    + unfold turn. cbn [mapping set_pos]. rewrite E. reflexivity.
    + split; [reflexivity|]. unfold mapping_ok. cbn [mapping set_mapping].
      unfold slice_from, clip. simpl.
      eapply Permutation_trans; [exact H|]. apply Permutation_cons_append.
Qed.

Lemma bind_ok {S A B} (m : M S A) (f : A -> M S B) s a s' R :
  m s = (Ok a, s') -> f a s' = R -> bind m f s = R.
Proof. intros H1 H2. unfold bind. rewrite H1. exact H2. Qed.

Lemma on_rotor_1_ok {A} (m : M _InternalRotor A) e pre r3 r2 r1 x r' :
  _rotors e = pre ++ [r3; r2; r1] -> m r1 = (Ok x, r') ->
  on_rotor (-1) m e = (Ok x, with_rotors e (pre ++ [r3; r2; r'])).
Proof. intros E H. rewrite (on_rotor_1 m e pre r3 r2 r1 E), H. reflexivity. Qed.

Lemma on_rotor_2_ok {A} (m : M _InternalRotor A) e pre r3 r2 r1 x r' :
  _rotors e = pre ++ [r3; r2; r1] -> m r2 = (Ok x, r') ->
  on_rotor (-2) m e = (Ok x, with_rotors e (pre ++ [r3; r'; r1])).
Proof. intros E H. rewrite (on_rotor_2 m e pre r3 r2 r1 E), H. reflexivity. Qed.

Lemma on_rotor_3_ok {A} (m : M _InternalRotor A) e pre r3 r2 r1 x r' :
  _rotors e = pre ++ [r3; r2; r1] -> m r3 = (Ok x, r') ->
  on_rotor (-3) m e = (Ok x, with_rotors e (pre ++ [r'; r2; r1])).
Proof. intros E H. rewrite (on_rotor_3 m e pre r3 r2 r1 E), H. reflexivity. Qed.

Lemma pos_in_notch_1 e pre r3 r2 r1 n1 :
  _rotors e = pre ++ [r3; r2; r1] -> notch r1 = Some n1 ->
  pos_in_notch (-1) e =
  (Ok (in_set (pos r1) n1), with_rotors e (pre ++ [r3; r2; r1])).
Proof.
  intros E N. unfold pos_in_notch. eapply on_rotor_1_ok; [exact E|].
  rewrite N. reflexivity.
Qed.

Lemma pos_in_notch_2 e pre r3 r2 r1 n2 :
  _rotors e = pre ++ [r3; r2; r1] -> notch r2 = Some n2 ->
  pos_in_notch (-2) e =
  (Ok (in_set (pos r2) n2), with_rotors e (pre ++ [r3; r2; r1])).
Proof.
  intros E N. unfold pos_in_notch. eapply on_rotor_2_ok; [exact E|].
  rewrite N. reflexivity.
Qed.

(** The stepping rule on the three rightmost rotors: the rightmost one
    always turns; the middle one turns when the rightmost one is at a
    notch, or when it is at a notch itself and the double step is on;
    the third one turns when the middle one is at a notch and either
    moves for its own notch (double step) or is carried. *)
Lemma step_rotors e pre r3 r2 r1 n2 n1 t3 t2 t1 :
  _rotors e = pre ++ [r3; r2; r1] ->
  notch r2 = Some n2 -> notch r1 = Some n1 ->
  turn r3 = (Ok tt, t3) -> turn r2 = (Ok tt, t2) -> turn r1 = (Ok tt, t1) ->
  step e =
  (Ok tt,
   with_rotors e
     (pre ++ [if in_set (pos r2) n2 && (doublestep e || in_set (pos r1) n1)
              then t3 else r3;
              if (doublestep e && in_set (pos r2) n2) || in_set (pos r1) n1
              then t2 else r2;
              t1])).
Proof.
  intros E N2 N1 T3 T2 T1. unfold step.
  destruct (doublestep e) eqn:D;
    destruct (in_set (pos r2) n2) eqn:A2;
    destruct (in_set (pos r1) n1) eqn:A1; cbn [andb orb].
  all: eapply bind_ok;
    [first [eapply pos_in_notch_2; [exact E|exact N2] | reflexivity]|];
    rewrite ?A2; cbv iota.
  all: eapply bind_ok;
    [first
       [ (* the double step *)
         eapply bind_ok; [eapply on_rotor_2_ok; [reflexivity|exact T2]|];
         eapply on_rotor_3_ok; [reflexivity|exact T3]
       | (* the rightmost rotor is at a notch *)
         eapply bind_ok;
           [eapply pos_in_notch_1; [first [exact E|reflexivity]|exact N1]|];
         rewrite A1; cbv iota;
         eapply bind_ok; [eapply pos_in_notch_2; [reflexivity|exact N2]|];
         rewrite A2; cbv iota;
         eapply bind_ok;
           [first [eapply on_rotor_3_ok; [reflexivity|exact T3]
                  | reflexivity]|];
         eapply on_rotor_2_ok; [reflexivity|exact T2]
       | (* no notch is engaged *)
         eapply bind_ok;
           [eapply pos_in_notch_1; [first [exact E|reflexivity]|exact N1]|];
         rewrite A1; reflexivity ]|].
  all: (etransitivity; [eapply on_rotor_1_ok; [reflexivity|exact T1]|]);
    reflexivity.
Qed.

Lemma step_ok e : wf_machine e = true ->
  exists e', step e = (Ok tt, e') /\ wf_machine e' = true /\ same_static e e'.
Proof.
  intros H.
  destruct (wf_last_three e H) as (pre & r3 & r2 & r1 & n2 & n1 & E & N2 & N1).
  pose proof (wf_machine_iff e) as [W _]. specialize (W H).
  destruct W as [W _]. rewrite E, forallb_app in W.
  apply andb_prop in W. destruct W as [Wpre W]. simpl in W.
  rewrite andb_true_r in W.
  apply andb_prop in W. destruct W as [W3 W].
  apply andb_prop in W. destruct W as [W2 W1].
  destruct (turn_moved r3 (proj2 (wf_rotor_spec _ W3))) as [t3 [T3 M3]].
  destruct (turn_moved r2 (proj2 (wf_rotor_spec _ W2))) as [t2 [T2 M2]].
  destruct (turn_moved r1 (proj2 (wf_rotor_spec _ W1))) as [t1 [T1 M1]].
  rewrite (step_rotors e pre r3 r2 r1 n2 n1 t3 t2 t1 E N2 N1 T3 T2 T1).
  eexists. split; [reflexivity|]. apply wf_moved; [exact H|].
  rewrite E. apply Forall2_app; [apply moved_all_refl, Wpre|].
  apply Forall2_cons; [|apply Forall2_cons; [|apply Forall2_cons; [|constructor]]].
  - destruct (_ && _); [exact M3|apply moved_refl, W3].
  - destruct (_ || _); [exact M2|apply moved_refl, W2].
  - exact M1.
Qed.

(** ** The loop of encode *)

Lemma encode_loop_ok message : forall e ciphertext,
  wf_machine e = true ->
  Forall (fun c => is_upper c = true) message ->
  exists out e',
    encode_loop message ciphertext e = (Ok (ciphertext ++ out), e')
    /\ Forall (fun c => is_upper c = true) out
    /\ length out = length message
    /\ wf_machine e' = true /\ same_static e e'
    /\ forall acc, encode_loop out acc e = (Ok (acc ++ message), e').
Proof.
  induction message as [|c message IH]; intros e acc H U.
  - exists [], e. rewrite app_nil_r. repeat split; auto using same_static_refl.
    intros acc'. simpl. rewrite app_nil_r. reflexivity.
  - inversion U as [|? ? Uc U']; subst.
    destruct (step_ok e H) as [e1 [S [H1 St1]]].
    destruct (signal_involution e1 (wf_mapping_ok _ H1)) with (c := c)
      as [o [So [Uo Soc]]].
    { apply wf_machine_iff in H1. tauto. }
    { apply wf_machine_iff in H1. tauto. }
    { exact Uc. }
    destruct (IH e1 (acc ++ [o]) H1 U') as (out & e' & L & Uout & Len & H' & St & Back).
    exists (o :: out), e'. split; [|split; [|split; [|split; [|split]]]].
    + cbn [encode_loop]. unfold bind. rewrite S, So, L.
      rewrite <- app_assoc. reflexivity.
    + constructor; assumption.
    + simpl. rewrite Len. reflexivity.
    + exact H'.
    + eapply same_static_trans; eassumption.
    + intros acc'. cbn [encode_loop]. unfold bind. rewrite S, Soc, Back.
      rewrite <- app_assoc. reflexivity.
Qed.

(** ** Letters and their upper case *)

Ltac split_tests :=
  repeat match goal with
         | |- context [N.leb ?a ?b] => destruct (N.leb_spec a b)
         | |- context [N.eqb ?a ?b] => destruct (N.eqb_spec a b)
         | H : context [N.leb ?a ?b] |- _ => destruct (N.leb_spec a b)
         end.

Lemma upper_cp_letter c : ascii_letter c = true -> upper_cp c = [to_upper c].
Proof.
  unfold ascii_letter, upper_cp, to_upper, between. intros H.
  split_tests; simpl in *; try discriminate; try reflexivity; lia.
Qed.

Lemma to_upper_upper c : ascii_letter c = true -> is_upper (to_upper c) = true.
Proof.
  unfold ascii_letter, to_upper, is_upper, between. intros H.
  split_tests; simpl in *; try discriminate; try reflexivity; lia.
Qed.

Lemma is_upper_letter c : is_upper c = true -> ascii_letter c = true.
Proof. unfold ascii_letter, is_upper. intros ->. reflexivity. Qed.

Lemma letter_isalpha c : ascii_letter c = true -> isalpha_cp c = true.
Proof.
  unfold ascii_letter, isalpha_cp. intros H. rewrite H. reflexivity.
Qed.

Lemma upper_letters s : letters s = true -> upper s = map to_upper s.
Proof.
  induction s as [|c s IH]; simpl; intros H; [reflexivity|].
  apply andb_prop in H. destruct H as [Hc Hs].
  unfold upper in *. simpl. rewrite (upper_cp_letter _ Hc), (IH Hs).
  reflexivity.
Qed.

Lemma upper_letters_upper s : letters s = true ->
  Forall (fun c => is_upper c = true) (upper s).
Proof.
  intros H. rewrite (upper_letters _ H). apply Forall_forall.
  intros c Hc. apply in_map_iff in Hc. destruct Hc as [d [<- Hd]].
  apply to_upper_upper. unfold letters in H. rewrite forallb_forall in H. auto.
Qed.

Lemma isalpha_letters s : letters s = true -> s <> [] -> isalpha s = true.
Proof.
  intros H Hne. destruct s as [|c s]; [congruence|]. unfold isalpha.
  apply forallb_forall. intros d Hd. apply letter_isalpha.
  unfold letters in H. rewrite forallb_forall in H. auto.
Qed.

Lemma upper_letters_of s :
  Forall (fun c => is_upper c = true) s -> letters s = true.
Proof.
  intros H. apply forallb_forall. rewrite Forall_forall in H.
  intros c Hc. apply is_upper_letter, H, Hc.
Qed.

Lemma upper_of_upper s :
  Forall (fun c => is_upper c = true) s -> upper s = s.
Proof.
  induction 1 as [|c s Hc _ IH]; [reflexivity|].
  unfold upper in *. simpl. rewrite (upper_cp_upper _ Hc), IH. reflexivity.
Qed.

(** ** The grundstellung setter *)

Lemma reposition_static r r' p :
  static r' = static r -> reposition r' p = reposition r p.
Proof.
  destruct r as [a b q m], r' as [a' b' q' m']. unfold static. simpl.
  intros [= -> ->]. reflexivity.
Qed.

Lemma grundstellung_loop_spec rs : forall ps,
  forallb wf_rotor rs = true ->
  Forall (fun c => is_upper c = true) ps ->
  length ps = length rs ->
  grundstellung_loop rs ps =
  (Ok tt, map (fun rp => reposition (fst rp) (snd rp)) (combine rs ps)).
Proof.
  induction rs as [|r rs IH]; intros ps W U L.
  - destruct ps; [reflexivity|discriminate].
  - destruct ps as [|p ps]; [discriminate|].
    simpl in W. apply andb_prop in W. destruct W as [Wr Wrs].
    inversion U as [|? ? Up Ups]; subst. injection L as L.
    cbn [grundstellung_loop]. rewrite (index_ABC _ Up).
    rewrite remap_spec.
    + rewrite (IH ps Wrs Ups L). reflexivity.
    + apply perm_Forall_upper. apply (wf_rotor_spec _ Wr).
Qed.

Lemma reposition_moved r p : wf_rotor r = true -> moved r (reposition r p).
Proof.
  intros W. split; [reflexivity|]. unfold mapping_ok, reposition.
  cbn [mapping set_mapping]. apply remapped_Permutation.
  apply (wf_rotor_spec _ W).
Qed.

Lemma repositioned_moved rs : forall ps,
  forallb wf_rotor rs = true -> length ps = length rs ->
  Forall2 moved rs (map (fun rp => reposition (fst rp) (snd rp))
                        (combine rs ps)).
Proof.
  induction rs as [|r rs IH]; intros [|p ps] W L; simpl in *;
    try discriminate; constructor.
  - apply andb_prop in W. apply reposition_moved, W.
  - apply andb_prop in W. apply IH; [apply W|lia].
Qed.

Lemma repositioned_static rs : forall rs' ps,
  map static rs' = map static rs ->
  map (fun rp => reposition (fst rp) (snd rp)) (combine rs' ps) =
  map (fun rp => reposition (fst rp) (snd rp)) (combine rs ps).
Proof.
  induction rs as [|r rs IH]; intros [|r' rs'] ps H; simpl in H;
    try discriminate; [reflexivity|].
  pose proof (f_equal (hd (static r)) H) as Hs.
  pose proof (f_equal (@tl _) H) as Ht. simpl in Hs, Ht.
  destruct ps as [|p ps]; [reflexivity|]. simpl.
  rewrite (reposition_static _ _ p Hs), (IH _ ps Ht). reflexivity.
Qed.

Lemma wf_same_static e e' :
  wf_machine e = true -> same_static e e' ->
  forallb wf_rotor (_rotors e') = true -> wf_machine e' = true.
Proof.
  intros H [A [B [C D]]] W. apply wf_machine_iff in H.
  apply wf_machine_iff. rewrite A, B, (static_notches _ _ D). tauto.
Qed.

(** Setting the starting position [p] succeeds, and the machine it
    leaves does not depend on where the rotors stood before. *)
Lemma grundstellung_set_ok e p :
  wf_machine e = true -> letters p = true ->
  length p = length (_rotors e) ->
  exists e', grundstellung_set p e = (Ok tt, e')
             /\ wf_machine e' = true /\ same_static e e'
             /\ forall e2, wf_machine e2 = true -> same_static e e2 ->
                           grundstellung_set p e2 = (Ok tt, e').
Proof.
  intros H Lp Len.
  assert (Hne : p <> []).
  { destruct (wf_last_three e H) as (pre & r3 & r2 & r1 & _ & _ & E & _).
    rewrite E, length_app in Len. destruct p; [simpl in Len; lia|congruence]. }
  assert (Lu : length (upper p) = length (_rotors e)).
  { rewrite (upper_letters _ Lp), length_map. exact Len. }
  assert (W : forallb wf_rotor (_rotors e) = true)
    by (apply wf_machine_iff in H; tauto).
  pose proof (repositioned_moved _ _ W Lu) as Mv.
  destruct (wf_moved e _ H Mv) as [H' St].
  eexists. split; [|split; [exact H'|split; [exact St|]]].
  - unfold grundstellung_set. rewrite (isalpha_letters _ Lp Hne). simpl negb.
    unfold len. rewrite Len, Z.eqb_refl. simpl negb. cbv iota.
    rewrite (grundstellung_loop_spec _ _ W (upper_letters_upper _ Lp) Lu).
    reflexivity.
  - intros e2 H2 [A [B [C D]]].
    assert (W2 : forallb wf_rotor (_rotors e2) = true)
      by (apply wf_machine_iff in H2; tauto).
    unfold grundstellung_set. rewrite (isalpha_letters _ Lp Hne). simpl negb.
    assert (L2 : length (_rotors e2) = length (_rotors e)).
    { rewrite <- (length_map static (_rotors e2)), D. apply length_map. }
    unfold len. rewrite Len, L2, Z.eqb_refl. simpl negb. cbv iota.
    rewrite (grundstellung_loop_spec _ _ W2 (upper_letters_upper _ Lp))
      by (rewrite L2; exact Lu).
    rewrite (repositioned_static _ _ _ D).
    destruct e, e2. simpl in *. subst. reflexivity.
Qed.

(** ** encode *)

Lemma encode_with_start e message p :
  wf_machine e = true -> letters p = true ->
  length p = length (_rotors e) ->
  letters message = true -> message <> [] ->
  exists out e',
    encode message (Some p) e = (Ok out, e')
    /\ Forall (fun c => is_upper c = true) out
    /\ length out = length message
    /\ wf_machine e' = true /\ same_static e e'
    /\ encode out (Some p) e' = (Ok (upper message), e').
Proof.
  intros H Lp Len Lm Hne.
  destruct (grundstellung_set_ok e p H Lp Len) as (eP & G & HP & StP & Gany).
  destruct (encode_loop_ok (upper message) eP [] HP (upper_letters_upper _ Lm))
    as (out & e' & L & Uout & Lout & H' & St & Back).
  assert (Hp : exists c p', p = c :: p').
  { destruct p as [|c p']; [|eauto].
    destruct (wf_last_three e H) as (pre & r3 & r2 & r1 & _ & _ & E & _).
    rewrite E, length_app in Len. simpl in Len. lia. }
  destruct Hp as (c0 & p' & ->).
  exists out, e'. split; [|split; [|split; [|split; [|split]]]].
  - unfold encode. rewrite (isalpha_letters _ Lm Hne). simpl negb. cbv iota.
    unfold bind. rewrite G, L. reflexivity.
  - exact Uout.
  - rewrite Lout, (upper_letters _ Lm). apply length_map.
  - exact H'.
  - eapply same_static_trans; eassumption.
  - assert (Hout : out <> []).
    { intros ->. simpl in Lout. rewrite (upper_letters _ Lm), length_map in Lout.
      destruct message; [congruence|discriminate]. }
    unfold encode.
    rewrite (isalpha_letters _ (upper_letters_of _ Uout) Hout).
    simpl negb. cbv iota. unfold bind.
    rewrite (Gany e' H' (same_static_trans _ _ _ StP St)).
    rewrite (upper_of_upper _ Uout). apply (Back []).
Qed.

Lemma encode_without_start e message :
  wf_machine e = true -> letters message = true -> message <> [] ->
  exists out e',
    encode message None e = (Ok out, e')
    /\ Forall (fun c => is_upper c = true) out
    /\ length out = length message
    /\ wf_machine e' = true /\ same_static e e'.
Proof.
  intros H Lm Hne.
  destruct (encode_loop_ok (upper message) e [] H (upper_letters_upper _ Lm))
    as (out & e' & L & Uout & Lout & H' & St & _).
  exists out, e'. split; [|split; [|split; [|split]]]; try assumption.
  - unfold encode. rewrite (isalpha_letters _ Lm Hne). simpl negb. cbv iota.
    unfold bind, ret. exact L.
  - rewrite Lout, (upper_letters _ Lm). apply length_map.
Qed.

Lemma isalpha_false_iff s :
  isalpha s = false <-> s = [] \/ exists c, In c s /\ isalpha_cp c = false.
Proof.
  split.
  - destruct s as [|c s]; [auto|]. unfold isalpha. intros H. right.
    destruct (forallb isalpha_cp (c :: s)) eqn:E; [discriminate|].
    clear H. induction (c :: s) as [|d l IH]; [discriminate|].
    simpl in E. destruct (isalpha_cp d) eqn:Ed.
    + destruct (IH E) as [x [Hx Hx']]. exists x. split; [right|]; assumption.
    + exists d. split; [left; reflexivity|assumption].
  - intros [->|[c [Hc Hf]]]; [reflexivity|].
    destruct s as [|d s]; [destruct Hc|]. unfold isalpha.
    destruct (forallb isalpha_cp (d :: s)) eqn:E; [|reflexivity].
    rewrite forallb_forall in E. rewrite (E c Hc) in Hf. discriminate.
Qed.


(** ** Positioned rotors *)

Lemma positioned_spec (r : Rotor) r0 ringv posv :
  InternalRotor_init r (py "A") = Ok r0 ->
  Permutation ABC (wiring r0) ->
  exists self, positioned r ringv posv = Ok self /\ mapping_ok self.
Proof.
  intros E W. unfold positioned, call. rewrite E. cbn [rbind].
  rewrite remap_spec by (apply perm_Forall_upper, W). cbn [rbind snd].
  rewrite remap_spec by (apply perm_Forall_upper, W). cbn [rbind snd].
  eexists. split; [reflexivity|].
  unfold mapping_ok. cbn [mapping set_mapping].
  apply remapped_Permutation, W.
Qed.

Lemma ROTORLIST_init r : In r ROTORLIST ->
  exists r0, InternalRotor_init r (py "A") = Ok r0
             /\ is_perm (wiring r0) = true.
Proof.
  intros H. simpl in H.
  repeat (destruct H as [<-|H];
          [eexists; split; vm_compute; reflexivity|]).
  destruct H.
Qed.

(** C4.  For each of the rotors I to VIII, BETA and GAMMA, each ring
    value and each position from 0 to 25, and each letter [c] of the
    alphabet, the two halves of the positioned rotor undo each other:
    [left2right(right2left(c)) == c] and
    [right2left(left2right(c)) == c]. *)
Theorem rotor_halves_inverse r ringv posv c :
  In r ROTORLIST -> 0 <= ringv < 26 -> 0 <= posv < 26 -> In c ABC ->
  exists self,
    positioned r ringv posv = Ok self
    /\ (x <- right2left self c ;; left2right self x) = Ok c
    /\ (x <- left2right self c ;; right2left self x) = Ok c.
Proof.
  intros Hr _ _ Hc. apply is_upper_In in Hc.
  destruct (ROTORLIST_init r Hr) as [r0 [E W]].
  apply is_perm_Permutation in W.
  destruct (positioned_spec r r0 ringv posv E W) as [self [P Hm]].
  exists self. split; [exact P|]. split.
  - destruct (right2left_left2right self Hm c Hc) as [x [H1 [_ H2]]].
    rewrite H1. exact H2.
  - destruct (left2right_right2left self Hm c Hc) as [x [H1 [_ H2]]].
    rewrite H1. exact H2.
Qed.

Lemma rotor_halves_inverse_witness :
  In Named.VI ROTORLIST /\ 0 <= 4 < 26 /\ 0 <= 17 < 26 /\ In 81%N ABC
  /\ exists self,
       positioned Named.VI 4 17 = Ok self
       /\ (x <- right2left self 81%N ;; left2right self x) = Ok 81%N
       /\ (x <- left2right self 81%N ;; right2left self x) = Ok 81%N.
Proof.
  assert (H1 : In Named.VI ROTORLIST) by (simpl; tauto).
  assert (H2 : 0 <= 4 < 26) by lia.
  assert (H3 : 0 <= 17 < 26) by lia.
  assert (H4 : In 81%N ABC) by (apply is_upper_In; reflexivity).
  repeat (split; [assumption|]).
  exact (rotor_halves_inverse Named.VI 4 17 81%N H1 H2 H3 H4).
Defined.

(** C5.  On a rotor whose cached mapping is the one [remap()] computes
    (a full recompute changes nothing), [turn()] gives the same rotor,
    position and cached mapping, as setting [pos] to [(pos + 1) % 26] and
    calling [remap()]. *)
Theorem turn_refines_remap (self : _InternalRotor) :
  len (wiring self) = 26 ->
  remap self = (Ok tt, self) ->
  turn self = remap (set_pos self ((pos self + 1) mod 26)).
Proof.
  intros L C. pose proof (remap_Ok_upper _ _ C) as U.
  assert (Hm : mapping self = remapped self).
  { rewrite (remap_spec _ U) in C. injection C as C.
    apply (f_equal mapping) in C. symmetry. exact C. }
  rewrite turn_spec; [|unfold len in L; lia|exact Hm].
  rewrite remap_spec by exact U. reflexivity.
Qed.

Lemma turn_refines_remap_witness :
  len (wiring VIII_at_Z) = 26
  /\ remap VIII_at_Z = (Ok tt, VIII_at_Z)
  /\ turn VIII_at_Z
     = remap (set_pos VIII_at_Z ((pos VIII_at_Z + 1) mod 26)).
Proof.
  assert (H1 : len (wiring VIII_at_Z) = 26) by (vm_compute; reflexivity).
  assert (H2 : remap VIII_at_Z = (Ok tt, VIII_at_Z))
    by (vm_compute; reflexivity).
  split; [exact H1|]. split; [exact H2|].
  exact (turn_refines_remap VIII_at_Z H1 H2).
Defined.

(** ** Reflectors *)

Lemma Rotor_init_perm w :
  letters w = true -> is_perm (upper w) = true ->
  Rotor_init w None (py "A") = Ok (mkAttrs (upper w) 0 None).
Proof.
  intros L P. apply is_perm_Permutation in P.
  pose proof (perm_length _ P) as Len.
  pose proof (perm_NoDup _ P) as ND.
  rewrite (upper_letters _ L) in Len, ND. rewrite length_map in Len.
  apply NoDup_map_inv in ND.
  unfold Rotor_init, set_of. rewrite (nodup_fixed_point N.eq_dec ND).
  rewrite (isalpha_letters _ L) by (intros ->; discriminate).
  unfold len, str, character in *. rewrite !Len. reflexivity.
Qed.

Lemma Reflector_check_spec w en :
  Permutation ABC w ->
  Forall (fun ic => 0 <= fst ic < 26 /\ snd ic = chr (fst ic)) en ->
  Reflector_check w en =
  if forallb (fun ic => reflects_back w (snd ic)) en
  then Ok tt else Raise RotorError.
Proof.
  intros P. induction 1 as [|[i c] en [Hi Hc] _ IH]; [reflexivity|].
  simpl in Hi, Hc. subst c. pose proof (chr_upper _ Hi) as Uc.
  destruct (perm_getitem _ P i Hi) as (wi & Gi & Uwi & Ii).
  destruct (perm_index _ P _ Uc) as (k & Ik & Hk & Gk).
  destruct (perm_getitem _ P _ (ord_range _ Uwi)) as (v & Gv & Uv & Iv).
  cbn [Reflector_check forallb snd].
  rewrite Gi. cbn [rbind]. rewrite Ik. cbn [rbind].
  rewrite (getitem_ABC _ Hk). cbn [rbind].
  assert (T : reflects_back w (chr i) = (wi =? chr k)%N).
  { unfold reflects_back, wired. rewrite (index_ABC _ Uc). cbn [rbind].
    rewrite (ord_chr _ Hi), Gi. cbn [rbind].
    rewrite (index_ABC _ Uwi). cbn [rbind]. rewrite Gv.
    destruct (N.eqb_spec v (chr i)) as [->|Hne];
      destruct (N.eqb_spec wi (chr k)) as [->|Hne']; try reflexivity.
    - exfalso. apply Hne'. rewrite Ik in Iv. injection Iv as ->.
      symmetry. apply chr_ord, Uwi.
    - exfalso. apply Hne. rewrite (ord_chr _ Hk), Gk in Gv. congruence. }
  rewrite T. destruct (wi =? chr k)%N; [exact IH|reflexivity].
Qed.

Lemma enumerate_ABC_ok :
  Forall (fun ic => 0 <= fst ic < 26 /\ snd ic = chr (fst ic)) (enumerate ABC).
Proof.
  apply Forall_forall. intros [i c] H. unfold enumerate in H.
  pose proof (in_combine_l _ _ _ _ H) as Hi.
  apply in_map_iff in Hi. destruct Hi as [n [<- Hn]]. apply in_seq in Hn.
  simpl. split; [simpl in Hn; lia|].
  assert (E : forallb (fun ic => (snd ic =? chr (fst ic))%N) (enumerate ABC)
              = true) by (vm_compute; reflexivity).
  rewrite forallb_forall in E. specialize (E _ H). apply N.eqb_eq in E.
  exact E.
Qed.

Lemma forallb_enumerate {A} (f : A -> bool) (l : list A) :
  forallb (fun ic => f (snd ic)) (enumerate l) = forallb f l.
Proof.
  unfold enumerate. generalize 0%nat.
  induction l as [|a l IH]; intros n; simpl; [reflexivity|].
  rewrite IH. reflexivity.
Qed.

Lemma Reflector_init_perm w :
  letters w = true -> is_perm (upper w) = true ->
  Reflector_init w =
  if self_inverse (upper w)
  then Ok (mkAttrs (upper w) 0 None)
  else Raise RotorError.
Proof.
  intros L P. unfold Reflector_init.
  rewrite (Rotor_init_perm _ L P). cbn [rbind].
  rewrite (Reflector_check_spec _ _ (is_perm_Permutation _ P) enumerate_ABC_ok).
  rewrite forallb_enumerate. fold (self_inverse (upper w)).
  destruct (self_inverse (upper w)); reflexivity.
Qed.

(** C7 (as amended).  A reflector built from a 26-letter permutation of
    the alphabet is accepted exactly when [wiring[wiring[c]] == c] for
    every letter [c], and rejected with [RotorError] otherwise; whether a
    letter is wired to itself plays no part. *)
Theorem reflector_accepted_iff_self_inverse wiring :
  letters wiring = true -> is_perm (upper wiring) = true ->
  Reflector_init wiring =
  if self_inverse (upper wiring)
  then Ok (mkAttrs (upper wiring) 0 None)
  else Raise RotorError.
Proof. intros L P. apply Reflector_init_perm; assumption. Qed.

Lemma reflector_accepted_iff_self_inverse_witness :
  letters swap_AB = true /\ is_perm (upper swap_AB) = true
  /\ Reflector_init swap_AB =
     if self_inverse (upper swap_AB)
     then Ok (mkAttrs (upper swap_AB) 0 None)
     else Raise RotorError.
Proof.
  assert (H1 : letters swap_AB = true) by (vm_compute; reflexivity).
  assert (H2 : is_perm (upper swap_AB) = true) by (vm_compute; reflexivity).
  split; [exact H1|]. split; [exact H2|].
  exact (reflector_accepted_iff_self_inverse swap_AB H1 H2).
Defined.

(** C7 as stated fails: the wiring that swaps A and B and wires each of
    the other 24 letters to itself is accepted as a reflector, and the
    machine built on it encodes AAAAA to AAAAA. *)
Lemma reflector_fixed_point_accepted :
  new_Reflector 15 swap_AB = Ok (mkRotor 15 (mkAttrs swap_AB 0 None))
  /\ wired swap_AB 67%N = Ok 67%N
  /\ no_fixed_point swap_AB = false
  /\ (r <- new_Reflector 15 swap_AB ;;
      e <- Enigma_init [Named.I; Named.II; Named.III] r (py "AAA") [] true [] ;;
      c <- call (encode (py "AAAAA") (Some (py "AAA"))) e ;;
      Ok (fst c))
     = Ok (py "AAAAA").
Proof. repeat split; vm_compute; reflexivity. Qed.

(** ** Where the code departs from its documentation *)

(** C8.  The plugboard ['Ab', 'aC'] uses the letter A twice, once in each
    case.  The setter counts the letters before folding their case and
    accepts it; the dictionary it stores, {A: C, B: A, C: A}, sends B to
    A and A to C, so it is not its own inverse (the invariant of the
    docstring of [plugboard]), and the machine no longer decodes what it
    encodes. *)
Theorem plugboard_mixed_case_accepted :
  plugboard_set [py "Ab"; py "aC"] M3
  = (Ok tt, with_plugboard M3 [(65, 67); (66, 65); (67, 65)]%N)
  /\ plug [(65, 67); (66, 65); (67, 65)]%N 66%N = 65%N
  /\ plug [(65, 67); (66, 65); (67, 65)]%N 65%N = 67%N
  /\ plug_ok [(65, 67); (66, 65); (67, 65)]%N = false
  /\ (e <- Enigma_init [Named.I; Named.II; Named.III] Named.UKWB (py "AAA")
             [py "Ab"; py "aC"] true [] ;;
      c <- call (encode (py "B") (Some (py "AAA"))) e ;;
      d <- call (encode (fst c) (Some (py "AAA"))) (snd c) ;;
      Ok (fst c, fst d))
     = Ok (py "A", py "Q").
Proof. repeat split; vm_compute; reflexivity. Qed.

(** The same pairs written in one case are rejected, as the test
    expects. *)
Example plugboard_repeated_letter_rejected :
  plugboard_set [py "AB"; py "AC"] M3 = (Raise ValueError, M3)
  /\ plugboard_set [py "AB"; py "BC"] M3 = (Raise ValueError, M3)
  /\ plugboard_set [py "ABC"] M3 = (Raise ValueError, M3)
  /\ plugboard_set [py "A1"] M3 = (Raise ValueError, M3).
Proof. repeat split; vm_compute; reflexivity. Qed.

(** C9.  The starting position B, e-acute (U+00E9), A passes the two
    tests of the [grundstellung] setter ([isalpha] holds of every
    alphabetic character, and the length is right); the loop then moves
    the first rotor to B and raises [ValueError] on the second letter,
    which is not in [ABC].  The assignment is rejected and the machine
    has changed: positions BAA instead of AAA, and the cached mapping of
    the first rotor with them.  The [ringstellung] setter and [encode]
    with a starting position behave alike. *)
Theorem grundstellung_partial_mutation :
  grundstellung M3 = Ok (py "AAA")
  /\ fst (grundstellung_set [66; 233; 65]%N M3) = Raise ValueError
  /\ grundstellung (snd (grundstellung_set [66; 233; 65]%N M3))
     = Ok (py "BAA")
  /\ map mapping (_rotors (snd (grundstellung_set [66; 233; 65]%N M3)))
     <> map mapping (_rotors M3)
  /\ ringstellung M3 = Ok (py "AAA")
  /\ fst (ringstellung_set [66; 233; 65]%N M3) = Raise ValueError
  /\ ringstellung (snd (ringstellung_set [66; 233; 65]%N M3))
     = Ok (py "BAA")
  /\ fst (encode (py "HELLO") (Some [66; 233; 65]%N) M3) = Raise ValueError
  /\ grundstellung (snd (encode (py "HELLO") (Some [66; 233; 65]%N) M3))
     = Ok (py "BAA").
Proof.
  repeat split; try (vm_compute; reflexivity). vm_compute. discriminate.
Qed.

(** C10.  The constructor accepts the four rotors (BETA, I, BETA, II)
    with the thin reflector B: only the leftmost rotor is tested.  The
    first keystroke then tests [pos in notch] on the second BETA, whose
    [notch] is [None], and raises [TypeError].  With the notchless rotor
    in the rightmost slot the same happens; in the second slot from the
    left its notch is never read and the machine encodes. *)
Theorem notchless_rotor_TypeError :
  accepted (Enigma_init [Named.BETA; Named.I; Named.BETA; Named.II]
              Named.UKWB_THIN [] [] true []) = true
  /\ (e <- Enigma_init [Named.BETA; Named.I; Named.BETA; Named.II]
             Named.UKWB_THIN [] [] true [] ;;
      c <- call (encode (py "A") None) e ;; Ok (fst c))
     = Raise TypeError
  /\ (e <- Enigma_init [Named.BETA; Named.I; Named.II; Named.GAMMA]
             Named.UKWB_THIN [] [] true [] ;;
      c <- call (encode (py "A") None) e ;; Ok (fst c))
     = Raise TypeError
  /\ (e <- Enigma_init [Named.BETA; Named.BETA; Named.I; Named.II]
             Named.UKWB_THIN [] [] true [] ;;
      c <- call (encode (py "AAAAAAAA") None) e ;; Ok (fst c))
     = Ok (py "CEVUNSLG").
Proof. repeat split; vm_compute; reflexivity. Qed.

(** The three-rotor branch of the [rotors] setter does look for BETA and
    GAMMA in every slot. *)
Example three_rotors_reject_BETA :
  Enigma_init [Named.I; Named.BETA; Named.II] Named.UKWB [] [] true []
  = Raise EnigmaError
  /\ Enigma_init [Named.I; Named.II; Named.GAMMA] Named.UKWB [] [] true []
     = Raise EnigmaError.
Proof. split; vm_compute; reflexivity. Qed.

(** A message of one accented letter: [isalpha] holds, so the message is
    not rejected; the rotors step, and [ABC.index] raises [ValueError]
    in the first rotor. *)
Example encode_accented_letter :
  isalpha [233%N] = true
  /\ fst (encode [233%N] None M3) = Raise ValueError
  /\ grundstellung M3 = Ok (py "AAA")
  /\ grundstellung (snd (encode [233%N] None M3)) = Ok (py "AAB").
Proof. repeat split; vm_compute; reflexivity. Qed.

(** ** Rejected reassignments

    The [rotors], [reflector] and [plugboard] setters assign once every
    check has passed, so a rejected value leaves the machine as it was.
    The [grundstellung] and [ringstellung] setters do so as long as the
    string holds no alphabetic character outside A-Z and a-z: those pass
    [isalpha] and stop the loop half-way (C9). *)

Lemma rotors_set_atomic rotors e x e' :
  rotors_set rotors e = (Raise x, e') -> e' = e.
Proof.
  unfold rotors_set. destruct (rotors_value (_reflector e) rotors);
    intros [= _ <-]; reflexivity.
Qed.

Lemma reflector_set_atomic reflector e x e' :
  reflector_set reflector e = (Raise x, e') -> e' = e.
Proof.
  unfold reflector_set. destruct (InternalReflector_init reflector);
    intros [= _ <-]; reflexivity.
Qed.

Lemma upper_cp_nonempty c : exists x l, upper_cp c = x :: l.
Proof.
  unfold upper_cp.
  repeat match goal with
         | |- context [if ?b then _ else _] => destruct b
         end; eauto.
Qed.

Lemma upper_two a b : exists x y l, upper [a; b] = x :: y :: l.
Proof.
  unfold upper. simpl. rewrite app_nil_r.
  destruct (upper_cp_nonempty a) as [x [l ->]].
  destruct (upper_cp_nonempty b) as [y [l' ->]].
  destruct l as [|z l]; simpl; eauto.
Qed.

Lemma plugboard_loop_ok plugboard : forall d,
  existsb (fun p => negb (len p =? 2)) plugboard = false ->
  exists d', plugboard_loop plugboard d = (Ok tt, d').
Proof.
  induction plugboard as [|p rest IH]; intros d H; [simpl; eauto|].
  simpl in H. apply orb_false_elim in H. destruct H as [Hp Hrest].
  apply negb_false_iff, Z.eqb_eq in Hp.
  destruct p as [|a [|b [|? ?]]]; try (cbv in Hp; discriminate);
    [|unfold len in Hp; simpl in Hp; lia].
  cbn [plugboard_loop]. unfold getitem at 1 2. cbn [rbind].
  simpl. destruct (a =? b)%N; [apply IH, Hrest|].
  destruct (upper_two a b) as (x & y & l & E).
  unfold upper in E. simpl in E. rewrite E.
  unfold getitem. simpl. apply IH, Hrest.
Qed.

Lemma plugboard_set_atomic plugboard e x e' :
  plugboard_set plugboard e = (Raise x, e') -> e' = e.
Proof.
  unfold plugboard_set. destruct plugboard as [|p rest]; [discriminate|].
  destruct (existsb (fun p => negb (len p =? 2)) (p :: rest)) eqn:E1.
  - simpl. intros [= _ <-]. reflexivity.
  - cbn [orb]. destruct (negb (isalpha (concat (p :: rest)))).
    + intros [= _ <-]. reflexivity.
    + destruct (existsb _ (concat (p :: rest))).
      * intros [= _ <-]. reflexivity.
      * destruct (plugboard_loop_ok _ [] E1) as [d' ->]. discriminate.
Qed.





(** ** The plugboard of a valid configuration *)

Lemma dict_get_set d k v c dflt :
  dict_get (dict_set d k v) c dflt =
  if (k =? c)%N then v else dict_get d c dflt.
Proof.
  induction d as [|[k' v'] d IH]; simpl.
  - reflexivity.
  - destruct (N.eqb_spec k' k) as [->|Hne]; simpl.
    + destruct (k =? c)%N; reflexivity.
    + rewrite IH. destruct (N.eqb_spec k' c) as [->|Hne'];
        [|reflexivity].
      destruct (N.eqb_spec k c) as [->|]; [congruence|reflexivity].
Qed.

Lemma plug_set_pair d a b c :
  plug (dict_set (dict_set d a b) b a) c =
  if (b =? c)%N then a else if (a =? c)%N then b else plug d c.
Proof. unfold plug. rewrite !dict_get_set. reflexivity. Qed.

Lemma swaps_pair d used a b :
  swaps d used -> is_upper a = true -> is_upper b = true -> a <> b ->
  ~ In a used -> ~ In b used ->
  swaps (dict_set (dict_set d a b) b a) (a :: b :: used).
Proof.
  intros [Inv Out] Ua Ub Hab Na Nb. split.
  - intros c Uc. rewrite plug_set_pair.
    destruct (N.eqb_spec b c) as [<-|Hbc].
    + split; [exact Ua|]. rewrite plug_set_pair.
      destruct (N.eqb_spec b a); [congruence|]. rewrite N.eqb_refl.
      reflexivity.
    + destruct (N.eqb_spec a c) as [<-|Hac].
      * split; [exact Ub|]. rewrite plug_set_pair, N.eqb_refl. reflexivity.
      * destruct (Inv c Uc) as [Ux Hx]. split; [exact Ux|].
        rewrite plug_set_pair.
        destruct (N.eqb_spec b (plug d c)) as [E|_].
        { exfalso. rewrite <- E, (Out b Nb) in Hx. congruence. }
        destruct (N.eqb_spec a (plug d c)) as [E|_].
        { exfalso. rewrite <- E, (Out a Na) in Hx. congruence. }
        exact Hx.
  - intros c Hc. rewrite plug_set_pair.
    destruct (N.eqb_spec b c) as [<-|_]; [exfalso; apply Hc; simpl; auto|].
    destruct (N.eqb_spec a c) as [<-|_]; [exfalso; apply Hc; simpl; auto|].
    apply Out. intros H. apply Hc. simpl. auto.
Qed.

Lemma swaps_plug_ok d used : swaps d used -> plug_ok d = true.
Proof.
  intros [Inv _]. unfold plug_ok. apply forallb_forall. intros c Hc.
  apply is_upper_In in Hc. destruct (Inv c Hc) as [U E].
  rewrite U, E, N.eqb_refl. reflexivity.
Qed.

Lemma distinct_NoDup s : distinct s = true -> NoDup s.
Proof.
  induction s as [|c s IH]; simpl; intros H; constructor;
    apply andb_prop in H; destruct H as [H1 H2].
  - intros Hin. apply negb_true_iff in H1.
    assert (E : existsb (N.eqb c) s = true)
      by (apply existsb_exists; exists c; split; [exact Hin|apply N.eqb_refl]).
    congruence.
  - apply IH, H2.
Qed.

Lemma plugboard_loop_swaps plugboard : forall d used,
  swaps d used ->
  existsb (fun p => negb (len p =? 2)) plugboard = false ->
  letters (concat plugboard) = true ->
  NoDup (map to_upper (concat plugboard)) ->
  (forall c, In c used -> ~ In c (map to_upper (concat plugboard))) ->
  exists d' used', plugboard_loop plugboard d = (Ok tt, d') /\ swaps d' used'.
Proof.
  induction plugboard as [|p rest IH]; intros d used S H2 L ND Dis.
  - simpl. eauto.
  - simpl in H2. apply orb_false_elim in H2. destruct H2 as [Hp Hrest].
    apply negb_false_iff, Z.eqb_eq in Hp.
    destruct p as [|a [|b [|? ?]]]; try (cbv in Hp; discriminate);
      [|unfold len in Hp; simpl in Hp; lia].
    simpl concat in L, ND, Dis. simpl in L.
    apply andb_prop in L. destruct L as [La L].
    apply andb_prop in L. destruct L as [Lb L].
    simpl map in ND, Dis.
    inversion ND as [|? ? Na ND']; subst.
    inversion ND' as [|? ? Nb ND'']; subst.
    assert (Hab : to_upper a <> to_upper b)
      by (intros E; apply Na; left; symmetry; exact E).
    cbn [plugboard_loop]. unfold getitem at 1 2. simpl.
    destruct (N.eqb_spec a b) as [E|_]; [subst; congruence|].
    unfold upper. simpl.
    rewrite (upper_cp_letter _ La), (upper_cp_letter _ Lb). simpl.
    unfold getitem. simpl.
    apply (IH _ (to_upper a :: to_upper b :: used)); try assumption.
    + apply swaps_pair; try assumption.
      * apply to_upper_upper, La.
      * apply to_upper_upper, Lb.
      * intros Hin. apply (Dis _ Hin). left. reflexivity.
      * intros Hin. apply (Dis _ Hin). right. left. reflexivity.
    + intros c [<-|[<-|Hc]].
      * intros Hin. apply Na. right. exact Hin.
      * exact Nb.
      * intros Hin. apply (Dis _ Hc). right. right. exact Hin.
Qed.

Lemma swaps_empty : swaps [] [].
Proof. split; intros c H; simpl; auto. Qed.

(** With letters that are distinct whatever their case, the setter
    stores a plugboard that swaps letters in pairs. *)
Lemma plugboard_set_plug_ok plugboard e e' :
  letters (concat plugboard) = true ->
  distinct (upper (concat plugboard)) = true ->
  plugboard_set plugboard e = (Ok tt, e') ->
  plug_ok (_plugboard e') = true /\ e' = with_plugboard e (_plugboard e').
Proof.
  intros L D. unfold plugboard_set.
  destruct plugboard as [|p rest].
  - intros [= <-]. split; reflexivity.
  - destruct (existsb (fun p => negb (len p =? 2)) (p :: rest)) eqn:E1;
      [discriminate|]. cbn [orb].
    destruct (negb (isalpha (concat (p :: rest)))); [discriminate|].
    destruct (existsb _ (concat (p :: rest))); [discriminate|].
    apply distinct_NoDup in D. rewrite (upper_letters _ L) in D.
    destruct (plugboard_loop_swaps (p :: rest) [] [] swaps_empty E1 L D)
      as (d' & used' & -> & S).
    { intros c []. }
    intros [= <-]. split; [|reflexivity].
    cbn [_plugboard with_plugboard]. eapply swaps_plug_ok, S.
Qed.

(** ** The machine the constructor builds *)

Lemma nodup_length_le {A} (dec : forall x y : A, {x = y} + {x <> y}) l :
  (length (nodup dec l) <= length l)%nat.
Proof.
  induction l as [|a l IH]; simpl; [lia|].
  destruct (in_dec dec a l); simpl; lia.
Qed.

Lemma nodup_length_NoDup {A} (dec : forall x y : A, {x = y} + {x <> y}) l :
  (length l <= length (nodup dec l))%nat -> NoDup l.
Proof.
  induction l as [|a l IH]; simpl; intros H; [constructor|].
  pose proof (nodup_length_le dec l).
  destruct (in_dec dec a l) as [Hin|Hnin]; simpl in H; [lia|].
  constructor; [exact Hnin|]. apply IH. lia.
Qed.

Lemma upper_is_perm w :
  length w = 26%nat -> NoDup w -> forallb is_upper w = true ->
  is_perm w = true.
Proof.
  intros L ND U. apply Permutation_is_perm, Permutation_sym.
  apply NoDup_Permutation_bis; [exact ND|rewrite L; reflexivity|].
  intros c Hc. apply is_upper_In. rewrite forallb_forall in U. auto.
Qed.

Lemma forallb_upper_Forall w :
  forallb is_upper w = true -> Forall (fun c => is_upper c = true) w.
Proof. intros H. apply Forall_forall. rewrite forallb_forall in H. exact H. Qed.

(** What a successful [Rotor.__init__] says of its arguments. *)
Lemma Rotor_init_Ok w n rg a :
  Rotor_init w n rg = Ok a ->
  length w = 26%nat /\ NoDup w /\ wiring a = upper w
  /\ (n = None -> notch a = None)
  /\ (n <> None -> notch a <> None).
Proof.
  unfold Rotor_init.
  destruct (Z.eqb_spec (len w) 26) as [L|]; [|discriminate]. simpl negb.
  destruct (isalpha w); [|discriminate]. simpl negb. cbn [orb].
  destruct (Z.ltb_spec (len (set_of N.eq_dec w)) 26) as [|S]; [discriminate|].
  destruct (negb (len rg =? 1) || negb (isalpha rg)); [discriminate|].
  destruct (index ABC (upper rg)) as [r|]; [|discriminate]. cbn [rbind].
  intros H. split; [unfold len in L; lia|]. split.
  { apply (nodup_length_NoDup N.eq_dec).
    unfold len, set_of, str, character in *. lia. }
  destruct n as [n|].
  - destruct (negb ((len n =? 1) || (len n =? 2))); [discriminate|].
    destruct (mapM _ n); [|discriminate]. cbn [rbind] in H.
    injection H as <-. simpl. repeat split; congruence.
  - injection H as <-. simpl. repeat split; congruence.
Qed.

(** Rotor objects built from ASCII wirings hold them in upper case. *)
Lemma new_Rotor_upper o w n rg r :
  letters w = true -> new_Rotor o w n rg = Ok r ->
  forallb is_upper (wiring r) = true.
Proof.
  intros L. unfold new_Rotor.
  destruct (Rotor_init w n rg) as [a|] eqn:E; [|discriminate].
  cbn [rbind]. intros [= <-]. cbn [wiring attrs].
  destruct (Rotor_init_Ok _ _ _ _ E) as (_ & _ & -> & _).
  apply forallb_forall. pose proof (upper_letters_upper _ L) as U.
  rewrite Forall_forall in U. exact U.
Qed.

Lemma remap_wf (r r' : _InternalRotor) :
  is_perm (wiring r) = true -> remap r = (Ok tt, r') ->
  wf_rotor r' = true /\ has_notch r' = has_notch r.
Proof.
  intros P. apply is_perm_Permutation in P.
  rewrite (remap_spec _ (perm_Forall_upper _ P)). intros [= <-]. split.
  - unfold wf_rotor. cbn [wiring self_attrs set_mapping mapping].
    rewrite (Permutation_is_perm _ P).
    apply Permutation_is_perm, remapped_Permutation, P.
  - reflexivity.
Qed.

Lemma InternalRotor_init_wf (r : Rotor) ir :
  forallb is_upper (wiring r) = true ->
  InternalRotor_init r (py "A") = Ok ir ->
  wf_rotor ir = true /\ has_notch ir = defines_notch r.
Proof.
  intros U. unfold InternalRotor_init.
  destruct (match notch r with
            | Some ns => cs <- mapM (getitem ABC) ns ;; Ok (Some cs)
            | None => Ok None
            end) as [notches|] eqn:En; [|discriminate]. cbn [rbind].
  destruct (getitem ABC (ring r)) as [ringc|]; [|discriminate]. cbn [rbind].
  destruct (Rotor_init (wiring r) notches [ringc]) as [a|] eqn:Ea;
    [|discriminate]. cbn [rbind].
  destruct (Rotor_init_Ok _ _ _ _ Ea) as (L & ND & Wa & N1 & N2).
  rewrite (upper_of_upper _ (forallb_upper_Forall _ U)) in Wa.
  change ((len (py "A") =? 1) && isalpha (py "A")) with true. cbv iota.
  change (index ABC (upper (py "A"))) with (@Ok Z 0). cbn [rbind].
  destruct (remap (mkInternalRotor a r 0 [])) as [[[]|] self] eqn:Er;
    [|discriminate]. intros [= <-].
  apply remap_wf in Er.
  2:{ cbn [wiring self_attrs]. rewrite Wa. apply upper_is_perm; assumption. }
  destruct Er as [W Hn]. split; [exact W|]. rewrite Hn.
  unfold has_notch, defines_notch. cbn [notch self_attrs].
  destruct (notch r) as [ns|].
  - destruct (mapM (getitem ABC) ns); [|discriminate]. cbn [rbind] in En.
    injection En as <-. destruct (notch a); [reflexivity|].
    exfalso. apply N2; [discriminate|reflexivity].
  - injection En as <-. rewrite N1; reflexivity.
Qed.

Lemma rotors_init_wf rotors : forall rs,
  forallb (fun r : Rotor => forallb is_upper (wiring r)) rotors = true ->
  mapM (fun r => InternalRotor_init r (py "A")) rotors = Ok rs ->
  forallb wf_rotor rs = true /\ map has_notch rs = map defines_notch rotors.
Proof.
  induction rotors as [|r rotors IH]; intros rs U; simpl.
  - intros [= <-]. split; reflexivity.
  - simpl in U. apply andb_prop in U. destruct U as [Ur U].
    destruct (InternalRotor_init r (py "A")) as [ir|] eqn:Ei; [|discriminate].
    cbn [rbind].
    destruct (mapM _ rotors) as [rs'|]; [|discriminate]. cbn [rbind].
    intros [= <-]. destruct (IH rs' U eq_refl) as [W N].
    destruct (InternalRotor_init_wf r ir Ur Ei) as [Wi Ni].
    simpl. rewrite Wi, W, Ni, N. split; reflexivity.
Qed.

Lemma ringstellung_loop_wf rs : forall rings rs',
  forallb wf_rotor rs = true ->
  ringstellung_loop rs rings = (Ok tt, rs') ->
  forallb wf_rotor rs' = true /\ map has_notch rs' = map has_notch rs.
Proof.
  induction rs as [|r rs IH]; intros rings rs' W; simpl.
  - intros [= <-]. split; reflexivity.
  - destruct rings as [|c rings]; [intros [= <-]; split; [exact W|reflexivity]|].
    simpl in W. apply andb_prop in W. destruct W as [Wr W].
    destruct (index ABC [c]) as [k|]; [|discriminate].
    destruct (remap (set_ring r k)) as [[[]|] r'] eqn:Er; [|discriminate].
    destruct (ringstellung_loop rs rings) as [[[]|] rs''] eqn:El;
      [|discriminate].
    intros [= <-]. destruct (IH _ _ W El) as [W' N'].
    apply remap_wf in Er.
    2:{ unfold wf_rotor in Wr. apply andb_prop in Wr. apply Wr. }
    destruct Er as [Wr' Nr']. simpl. rewrite Wr', W', Nr', N'.
    split; reflexivity.
Qed.

Lemma grundstellung_loop_wf rs : forall ps rs',
  forallb wf_rotor rs = true ->
  grundstellung_loop rs ps = (Ok tt, rs') ->
  forallb wf_rotor rs' = true /\ map has_notch rs' = map has_notch rs.
Proof.
  induction rs as [|r rs IH]; intros ps rs' W; simpl.
  - intros [= <-]. split; reflexivity.
  - destruct ps as [|c ps]; [intros [= <-]; split; [exact W|reflexivity]|].
    simpl in W. apply andb_prop in W. destruct W as [Wr W].
    destruct (index ABC [c]) as [k|]; [|discriminate].
    destruct (remap (set_pos r k)) as [[[]|] r'] eqn:Er; [|discriminate].
    destruct (grundstellung_loop rs ps) as [[[]|] rs''] eqn:El;
      [|discriminate].
    intros [= <-]. destruct (IH _ _ W El) as [W' N'].
    apply remap_wf in Er.
    2:{ unfold wf_rotor in Wr. apply andb_prop in Wr. apply Wr. }
    destruct Er as [Wr' Nr']. simpl. rewrite Wr', W', Nr', N'.
    split; reflexivity.
Qed.

Lemma Reflector_init_wf (reflector : Rotor) refl :
  forallb is_upper (wiring reflector) = true ->
  InternalReflector_init reflector = Ok refl ->
  is_perm (wiring refl) = true /\ self_inverse (wiring refl) = true.
Proof.
  intros U. unfold InternalReflector_init.
  destruct (Reflector_init (wiring reflector)) as [a|] eqn:E; [|discriminate].
  cbn [rbind]. intros [= <-]. cbn [wiring reflector_attrs].
  pose proof (forallb_upper_Forall _ U) as F.
  assert (P : is_perm (upper (wiring reflector)) = true).
  { unfold Reflector_init in E.
    destruct (Rotor_init (wiring reflector) None (py "A")) as [a'|] eqn:Ea;
      [|discriminate].
    destruct (Rotor_init_Ok _ _ _ _ Ea) as (L & ND & _).
    rewrite (upper_of_upper _ F). apply upper_is_perm; assumption. }
  rewrite (Reflector_init_perm _ (upper_letters_of _ F) P) in E.
  destruct (self_inverse (upper (wiring reflector))) eqn:S; [|discriminate].
  injection E as <-. simpl. auto.
Qed.

Lemma ringstellung_set_wf rings e e' :
  forallb wf_rotor (_rotors e) = true ->
  ringstellung_set rings e = (Ok tt, e') ->
  forallb wf_rotor (_rotors e') = true
  /\ map has_notch (_rotors e') = map has_notch (_rotors e)
  /\ _reflector e' = _reflector e.
Proof.
  intros W. unfold ringstellung_set.
  destruct (negb (len (_rotors e) =? len rings)); [discriminate|].
  destruct (negb (isalpha rings)); [discriminate|].
  destruct (ringstellung_loop (_rotors e) (upper rings)) as [[[]|] rs] eqn:E;
    [|discriminate].
  intros [= <-]. destruct (ringstellung_loop_wf _ _ _ W E) as [W' N'].
  cbn [_rotors _reflector with_rotors]. auto.
Qed.

Lemma grundstellung_set_wf g e e' :
  forallb wf_rotor (_rotors e) = true ->
  grundstellung_set g e = (Ok tt, e') ->
  forallb wf_rotor (_rotors e') = true
  /\ map has_notch (_rotors e') = map has_notch (_rotors e)
  /\ _reflector e' = _reflector e.
Proof.
  intros W. unfold grundstellung_set.
  destruct (negb (isalpha g)); [discriminate|].
  destruct (negb (len g =? len (_rotors e))); [discriminate|].
  destruct (grundstellung_loop (_rotors e) (upper g)) as [[[]|] rs] eqn:E;
    [|discriminate].
  intros [= <-]. destruct (grundstellung_loop_wf _ _ _ W E) as [W' N'].
  cbn [_rotors _reflector with_rotors]. auto.
Qed.

Lemma rotors_value_wf refl rotors rs :
  forallb (fun r : Rotor => forallb is_upper (wiring r)) rotors = true ->
  rotors_value refl rotors = Ok rs ->
  forallb wf_rotor rs = true
  /\ map has_notch rs = map defines_notch rotors
  /\ (3 <= length rotors)%nat.
Proof.
  intros U. unfold rotors_value.
  destruct (Z.eqb_spec (len rotors) 3) as [L|L3].
  - destruct (_ || _); [discriminate|].
    destruct (is_in _ _); [discriminate|]. cbn [rbind]. intros M.
    destruct (rotors_init_wf _ _ U M). unfold len in L.
    repeat split; try assumption. lia.
  - destruct (Z.eqb_spec (len rotors) 4) as [L|L4]; [|discriminate].
    destruct (getitem rotors 0) as [r0|]; [|discriminate]. cbn [rbind].
    destruct (negb _); [discriminate|].
    destruct (is_in _ _); [discriminate|]. cbn [rbind]. intros M.
    destruct (rotors_init_wf _ _ U M). unfold len in L.
    repeat split; try assumption. lia.
Qed.

(** A valid configuration that the constructor accepts gives a machine
    in a valid state, with one positioned rotor per rotor. *)
Lemma Enigma_init_wf rotors reflector ringstellung plugboard doublestep
  grundstellung e :
  valid_configuration rotors reflector plugboard = true ->
  Enigma_init rotors reflector ringstellung plugboard doublestep grundstellung
  = Ok e ->
  wf_machine e = true /\ length (_rotors e) = length rotors.
Proof.
  unfold valid_configuration. rewrite !andb_true_iff.
  intros [[[[V1 V2] V3] V4] V5]. unfold Enigma_init.
  destruct (InternalReflector_init reflector) as [refl|] eqn:Er;
    [|discriminate]. cbn [rbind].
  destruct (rotors_value refl rotors) as [rs|] eqn:Ers; [|discriminate].
  cbn [rbind]. cbv zeta. unfold bind.
  destruct (ringstellung_set _ _) as [[[]|] e1] eqn:E1; [|discriminate].
  destruct (grundstellung_set _ e1) as [[[]|] e2] eqn:E2; [|discriminate].
  destruct (plugboard_set plugboard e2) as [[[]|] e3] eqn:E3; [|discriminate].
  intros [= <-].
  destruct (Reflector_init_wf _ _ V2 Er) as [Rp Rs].
  destruct (rotors_value_wf _ _ _ V1 Ers) as (W0 & N0 & Len).
  destruct (ringstellung_set_wf _ (mkEnigma refl rs [] doublestep) _ W0 E1)
    as (W1 & N1 & R1).
  destruct (grundstellung_set_wf _ _ _ W1 E2) as (W2 & N2 & R2).
  destruct (plugboard_set_plug_ok _ _ _ V4 V5 E3) as [P3 E].
  cbn [_rotors _reflector] in N1, R1.
  assert (N : map has_notch (_rotors e3) = map defines_notch rotors).
  { rewrite E. cbn [_rotors with_plugboard]. congruence. }
  split.
  - apply wf_machine_iff. rewrite N. rewrite E.
    cbn [_rotors _reflector _plugboard with_plugboard].
    rewrite R2, R1. repeat split; try assumption.
    rewrite <- (length_map defines_notch), <- length_rev in Len.
    destruct (rev (map defines_notch rotors)) as [|n1 [|n2 [|n3 l]]];
      try discriminate; simpl in Len; try lia. exact V3.
  - rewrite <- (length_map has_notch), N. apply length_map.
Qed.

Example M3_M4_valid :
  Enigma_init [Named.I; Named.II; Named.III] Named.UKWB (py "AAA") [] true []
  = Ok M3
  /\ valid_configuration [Named.I; Named.II; Named.III] Named.UKWB [] = true
  /\ Enigma_init [Named.BETA; Named.V; Named.VI; Named.VIII] Named.UKWC_THIN
       (py "EPEL") M4_plugboard true []
     = Ok M4
  /\ valid_configuration [Named.BETA; Named.V; Named.VI; Named.VIII]
       Named.UKWC_THIN M4_plugboard = true.
Proof. repeat split; vm_compute; reflexivity. Qed.

(** ** encode: the claims *)

(** On a machine in a valid state, decoding from the starting position
    of the encoding gives the message back in upper case. *)
Lemma encode_decode_wf e p plaintext :
  wf_machine e = true ->
  letters p = true -> length p = length (_rotors e) ->
  letters plaintext = true -> plaintext <> [] ->
  (c <- call (encode plaintext (Some p)) e ;;
   d <- call (encode (fst c) (Some p)) (snd c) ;;
   Ok (fst d))
  = Ok (upper plaintext).
Proof.
  intros H Lp Len Lm Hne.
  destruct (encode_with_start e plaintext p H Lp Len Lm Hne)
    as (out & e' & E1 & _ & _ & _ & _ & E2).
  unfold call. rewrite E1. cbn [rbind fst snd]. rewrite E2. reflexivity.
Qed.

(** C1 (as amended).  For every valid configuration (rotors, reflector,
    ring settings, plugboard, double-step flag, initial position) that
    the constructor accepts, every starting position [p] of one ASCII
    letter per rotor and every non-empty message of ASCII letters,
    encoding the result of encoding the message, from [p] both times,
    returns the message in upper case. *)
Theorem encode_decode_upper rotors reflector ringstellung plugboard
  doublestep grundstellung M p plaintext :
  valid_configuration rotors reflector plugboard = true ->
  Enigma_init rotors reflector ringstellung plugboard doublestep grundstellung
  = Ok M ->
  letters p = true -> length p = length rotors ->
  letters plaintext = true -> plaintext <> [] ->
  (c <- call (encode plaintext (Some p)) M ;;
   d <- call (encode (fst c) (Some p)) (snd c) ;;
   Ok (fst d))
  = Ok (upper plaintext).
Proof.
  intros V I Lp Len Lm Hne.
  destruct (Enigma_init_wf _ _ _ _ _ _ _ V I) as [W L].
  apply encode_decode_wf; try assumption. congruence.
Qed.

Lemma encode_decode_upper_witness :
  valid_configuration [Named.BETA; Named.V; Named.VI; Named.VIII]
    Named.UKWC_THIN M4_plugboard = true
  /\ Enigma_init [Named.BETA; Named.V; Named.VI; Named.VIII] Named.UKWC_THIN
       (py "EPEL") M4_plugboard true [] = Ok M4
  /\ letters (py "NAEM") = true
  /\ length (py "NAEM")
     = length [Named.BETA; Named.V; Named.VI; Named.VIII]
  /\ letters (py "Krkr") = true
  /\ py "Krkr" <> []
  /\ (c <- call (encode (py "Krkr") (Some (py "NAEM"))) M4 ;;
      d <- call (encode (fst c) (Some (py "NAEM"))) (snd c) ;;
      Ok (fst d))
     = Ok (upper (py "Krkr")).
Proof.
  assert (H0 : valid_configuration [Named.BETA; Named.V; Named.VI; Named.VIII]
                 Named.UKWC_THIN M4_plugboard = true)
    by (vm_compute; reflexivity).
  assert (H1 : Enigma_init [Named.BETA; Named.V; Named.VI; Named.VIII]
                 Named.UKWC_THIN (py "EPEL") M4_plugboard true [] = Ok M4)
    by (vm_compute; reflexivity).
  assert (H2 : letters (py "NAEM") = true) by (vm_compute; reflexivity).
  assert (H3 : length (py "NAEM")
               = length [Named.BETA; Named.V; Named.VI; Named.VIII])
    by reflexivity.
  assert (H4 : letters (py "Krkr") = true) by (vm_compute; reflexivity).
  assert (H5 : py "Krkr" <> []) by (vm_compute; discriminate).
  repeat (split; [assumption|]).
  exact (encode_decode_upper _ _ _ _ _ _ M4 (py "NAEM") (py "Krkr")
           H0 H1 H2 H3 H4 H5).
Defined.

(** C1 as stated fails on a lower-case message: the machine (I, II, III)
    with reflector B turns [a] into [B] and [B] back into [A], which is
    not [a]. *)
Lemma encode_decode_lowercase :
  Enigma_init [Named.I; Named.II; Named.III] Named.UKWB (py "AAA") [] true []
  = Ok M3
  /\ (c <- call (encode (py "a") (Some (py "AAA"))) M3 ;;
      d <- call (encode (fst c) (Some (py "AAA"))) (snd c) ;;
      Ok (fst c, fst d))
     = Ok (py "B", py "A")
  /\ py "A" <> py "a".
Proof.
  split; [vm_compute; reflexivity|].
  split; [vm_compute; reflexivity|]. vm_compute. discriminate.
Qed.

(** C6 (as amended).  On a machine in a valid state, [encode] raises
    [EnigmaError], leaving the machine as it was, when the message is
    empty or holds a character (of Latin-1) that is not alphabetic; and
    for a non-empty message of ASCII letters it returns a ciphertext of
    upper-case letters, as long as the message. *)
Theorem encode_raises_or_returns e message g :
  wf_machine e = true -> start_ok e g = true ->
  ((message = []
    \/ exists c, In c message /\ (c < 256)%N /\ isalpha_cp c = false) ->
   encode message g e = (Raise EnigmaError, e))
  /\
  (message <> [] -> letters message = true ->
   exists ciphertext e',
     encode message g e = (Ok ciphertext, e')
     /\ length ciphertext = length message
     /\ Forall (fun c => is_upper c = true) ciphertext).
Proof.
  intros H G. split.
  - intros Hbad. unfold encode.
    assert (E : isalpha message = false).
    { apply isalpha_false_iff. destruct Hbad as [->|[c [Hc [_ Hf]]]]; eauto. }
    rewrite E. reflexivity.
  - intros Hne Lm. destruct g as [p|].
    + simpl in G. apply andb_prop in G. destruct G as [Lp Len].
      apply Nat.eqb_eq in Len.
      destruct (encode_with_start e message p H Lp Len Lm Hne)
        as (out & e' & E1 & U & L & _).
      exists out, e'. auto.
    + destruct (encode_without_start e message H Lm Hne)
        as (out & e' & E1 & U & L & _).
      exists out, e'. auto.
Qed.

Lemma encode_raises_or_returns_witness :
  wf_machine M3 = true /\ start_ok M3 (Some (py "ADT")) = true
  /\ encode (py "A1A") (Some (py "ADT")) M3 = (Raise EnigmaError, M3)
  /\ exists ciphertext e',
       encode (py "Hello") (Some (py "ADT")) M3 = (Ok ciphertext, e')
       /\ length ciphertext = length (py "Hello")
       /\ Forall (fun c => is_upper c = true) ciphertext.
Proof.
  assert (H1 : wf_machine M3 = true) by (vm_compute; reflexivity).
  assert (H2 : start_ok M3 (Some (py "ADT")) = true)
    by (vm_compute; reflexivity).
  split; [exact H1|]. split; [exact H2|]. split.
  - apply (proj1 (encode_raises_or_returns M3 (py "A1A") _ H1 H2)).
    right. exists 49%N. split; [|split].
    + vm_compute. tauto.
    + reflexivity.
    + reflexivity.
  - apply (proj2 (encode_raises_or_returns M3 (py "Hello") _ H1 H2)).
    + vm_compute. discriminate.
    + vm_compute. reflexivity.
Defined.

(** C6 as stated fails on the empty message: it holds no character that
    is not a letter, and [encode] raises [EnigmaError]. *)
Lemma encode_empty_message_raises :
  wf_machine M3 = true
  /\ letters [] = true
  /\ encode [] (Some (py "AAA")) M3 = (Raise EnigmaError, M3)
  /\ encode [] None M3 = (Raise EnigmaError, M3).
Proof. repeat split; vm_compute; reflexivity. Qed.

(** * Further properties *)

(** ** The reflector *)

Lemma Reflector_check_Ok w en :
  Reflector_check w en = Ok tt ->
  forall i c, In (i, c) en ->
  exists k, getitem w i = Ok (chr k) /\ 0 <= k < 26 /\ getitem w k = Ok c.
Proof.
  induction en as [|[j d] en IH]; intros H i c Hin; [destruct Hin|].
  cbn [Reflector_check] in H.
  destruct (getitem w j) as [wj|] eqn:Gj; [|discriminate]. cbn [rbind] in H.
  destruct (index w [d]) as [k|] eqn:Ik; [|discriminate]. cbn [rbind] in H.
  destruct (getitem ABC k) as [a|] eqn:Ga; [|discriminate]. cbn [rbind] in H.
  destruct (N.eqb_spec wj a) as [->|]; [|discriminate]. simpl in H.
  destruct Hin as [[= <- <-]|Hin]; [|apply IH; assumption].
  rewrite index_single in Ik.
  destruct (pos_of d w) as [n|] eqn:Pn; [|discriminate].
  injection Ik as <-. apply pos_of_nth in Pn.
  assert (Hn : (n < 26)%nat).
  { apply getitem_Ok in Ga; [|lia]. rewrite Nat2Z.id in Ga.
    assert (Hl : (n < length ABC)%nat)
      by (apply nth_error_Some; congruence).
    exact Hl. }
  exists (Z.of_nat n). rewrite getitem_ABC in Ga by lia.
  injection Ga as <-. split; [exact Gj|]. split; [lia|].
  apply getitem_nat, Pn.
Qed.

Lemma enumerate_ABC_In i : 0 <= i < 26 -> In (i, chr i) (enumerate ABC).
Proof.
  intros H.
  assert (E : forallb (fun i => match nth_error (enumerate ABC) (Z.to_nat i) with
                                | Some (j, c) => (j =? i) && (c =? chr i)%N
                                | None => false
                                end) (map Z.of_nat (seq 0 26)) = true)
    by (vm_compute; reflexivity).
  pose proof (range26_forall _ E i H) as Hi. cbv beta in Hi.
  destruct (nth_error (enumerate ABC) (Z.to_nat i)) as [[j c]|] eqn:En;
    [|discriminate].
  apply andb_prop in Hi. destruct Hi as [Hj Hc].
  apply Z.eqb_eq in Hj. apply N.eqb_eq in Hc. subst.
  eapply nth_error_In, En.
Qed.

Lemma reflect_letter (self : _InternalReflector) c :
  ascii_letter c = true ->
  reflect self c = getitem (wiring self) (ord (to_upper c)).
Proof.
  intros L. unfold reflect, upper. simpl. rewrite (upper_cp_letter _ L).
  simpl. rewrite (index_ABC _ (to_upper_upper _ L)). reflexivity.
Qed.

Lemma InternalReflector_init_check (reflector : Rotor) self :
  InternalReflector_init reflector = Ok self ->
  Reflector_check (wiring self) (enumerate ABC) = Ok tt.
Proof.
  unfold InternalReflector_init, Reflector_init.
  destruct (Rotor_init (wiring reflector) None (py "A")) as [a|] eqn:Ea;
    [|discriminate]. cbn [rbind].
  destruct (Reflector_check _ _) as [[]|] eqn:Ec; [|discriminate].
  cbn [rbind]. intros [= <-]. cbn [wiring reflector_attrs].
  destruct (Rotor_init_Ok _ _ _ _ Ea) as (_ & _ & -> & _). exact Ec.
Qed.

(** X1.  For every reflector the machine accepts and every ASCII letter
    [c], of either case, [reflect(reflect(c))] is [c] in upper case. *)
Theorem reflect_reflect (reflector : Rotor) self c :
  InternalReflector_init reflector = Ok self ->
  ascii_letter c = true ->
  (x <- reflect self c ;; reflect self x) = Ok (to_upper c).
Proof.
  intros I L. pose proof (InternalReflector_init_check _ _ I) as Ck.
  pose proof (to_upper_upper _ L) as U. pose proof (ord_range _ U) as R.
  destruct (Reflector_check_Ok _ _ Ck _ _ (enumerate_ABC_In _ R))
    as (k & G1 & Hk & G2).
  rewrite (reflect_letter _ _ L), G1. cbn [rbind].
  rewrite (reflect_letter _ _ (is_upper_letter _ (chr_upper _ Hk))).
  unfold to_upper at 1.
  replace (between 97 122 (chr k)) with false.
  - rewrite (ord_chr _ Hk), G2, (chr_ord _ U). reflexivity.
  - symmetry. unfold between, chr.
    apply andb_false_intro1. apply N.leb_gt. lia.
Qed.

Lemma reflect_reflect_witness :
  InternalReflector_init Named.UKWC_THIN = Ok (_reflector M4)
  /\ ascii_letter 113%N = true
  /\ (x <- reflect (_reflector M4) 113%N ;; reflect (_reflector M4) x)
     = Ok (to_upper 113%N).
Proof.
  assert (H1 : InternalReflector_init Named.UKWC_THIN = Ok (_reflector M4))
    by (vm_compute; reflexivity).
  assert (H2 : ascii_letter 113%N = true) by reflexivity.
  split; [exact H1|]. split; [exact H2|].
  exact (reflect_reflect Named.UKWC_THIN (_reflector M4) 113%N H1 H2).
Defined.

(** ** One keystroke *)

Lemma turn_pos r r' : turn r = (Ok tt, r') -> pos r' = (pos r + 1) mod 26.
Proof.
  unfold turn. cbn [mapping set_pos].
  destruct (getitem (mapping r) 0); intros [= <-]; reflexivity.
Qed.

Lemma wf_three e pre r3 r2 r1 :
  wf_machine e = true -> _rotors e = pre ++ [r3; r2; r1] ->
  forallb wf_rotor pre = true
  /\ wf_rotor r3 = true /\ wf_rotor r2 = true /\ wf_rotor r1 = true.
Proof.
  intros H E. apply wf_machine_iff in H. destruct H as [W _].
  rewrite E, forallb_app in W. apply andb_prop in W. destruct W as [Wpre W].
  simpl in W. rewrite andb_true_r in W.
  apply andb_prop in W. destruct W as [W3 W].
  apply andb_prop in W. destruct W as [W2 W1]. auto.
Qed.

(** The shape of a keystroke: the rotors left of the three rightmost ones
    stay, the third and the second stay or turn once, the rightmost one
    turns. *)
Lemma step_shape e : wf_machine e = true ->
  exists pre r3 r2 r1 a b c,
    _rotors e = pre ++ [r3; r2; r1]
    /\ step e = (Ok tt, with_rotors e (pre ++ [a; b; c]))
    /\ stepped r3 a /\ stepped r2 b /\ turn r1 = (Ok tt, c)
    /\ wf_rotor r3 = true /\ wf_rotor r2 = true /\ wf_rotor r1 = true
    /\ wf_machine (with_rotors e (pre ++ [a; b; c])) = true.
Proof.
  intros H.
  destruct (wf_last_three e H) as (pre & r3 & r2 & r1 & n2 & n1 & E & N2 & N1).
  destruct (wf_three e pre r3 r2 r1 H E) as (Wpre & W3 & W2 & W1).
  destruct (turn_moved r3 (proj2 (wf_rotor_spec _ W3))) as [t3 [T3 M3]].
  destruct (turn_moved r2 (proj2 (wf_rotor_spec _ W2))) as [t2 [T2 M2]].
  destruct (turn_moved r1 (proj2 (wf_rotor_spec _ W1))) as [t1 [T1 M1]].
  pose proof (step_rotors e pre r3 r2 r1 n2 n1 t3 t2 t1 E N2 N1 T3 T2 T1) as S.
  do 7 eexists. split; [exact E|]. split; [exact S|].
  split; [|split; [|split; [exact T1|]]].
  - match goal with
    | |- stepped _ (if ?t then _ else _) => destruct t
    end; unfold stepped; auto.
  - match goal with
    | |- stepped _ (if ?t then _ else _) => destruct t
    end; unfold stepped; auto.
  - repeat (split; [assumption|]). apply wf_moved; [exact H|].
    rewrite E. apply Forall2_app; [apply moved_all_refl, Wpre|].
    apply Forall2_cons; [|apply Forall2_cons; [|apply Forall2_cons;
                                                 [|constructor]]].
    + match goal with
      | |- moved _ (if ?t then _ else _) => destruct t
      end; [exact M3|apply moved_refl, W3].
    + match goal with
      | |- moved _ (if ?t then _ else _) => destruct t
      end; [exact M2|apply moved_refl, W2].
    + exact M1.
Qed.

(** X2.  The stepping rule in closed form.  On a machine in a valid
    state whose three rightmost rotors are [r3], [r2], [r1], a keystroke
    advances [r1] by one position (mod 26); it advances [r2] exactly
    when [r1] is at one of its notches, or [r2] is at one of its own and
    the double step is on; it advances [r3] exactly when [r2] is at a
    notch and either the double step is on or [r1] is at a notch; the
    rotors further left keep their position. *)
Theorem step_positions e pre r3 r2 r1 n2 n1 :
  wf_machine e = true ->
  _rotors e = pre ++ [r3; r2; r1] ->
  notch r2 = Some n2 -> notch r1 = Some n1 ->
  exists e',
    step e = (Ok tt, e')
    /\ map pos (_rotors e') =
       map pos pre
       ++ [if in_set (pos r2) n2 && (doublestep e || in_set (pos r1) n1)
           then (pos r3 + 1) mod 26 else pos r3;
           if (doublestep e && in_set (pos r2) n2) || in_set (pos r1) n1
           then (pos r2 + 1) mod 26 else pos r2;
           (pos r1 + 1) mod 26].
Proof.
  intros H E N2 N1.
  destruct (wf_three e pre r3 r2 r1 H E) as (Wpre & W3 & W2 & W1).
  destruct (turn_moved r3 (proj2 (wf_rotor_spec _ W3))) as [t3 [T3 _]].
  destruct (turn_moved r2 (proj2 (wf_rotor_spec _ W2))) as [t2 [T2 _]].
  destruct (turn_moved r1 (proj2 (wf_rotor_spec _ W1))) as [t1 [T1 _]].
  eexists. split.
  - exact (step_rotors e pre r3 r2 r1 n2 n1 t3 t2 t1 E N2 N1 T3 T2 T1).
  - cbn [_rotors with_rotors]. rewrite map_app. f_equal. simpl.
    rewrite (turn_pos _ _ T1).
    destruct (in_set (pos r2) n2 && (doublestep e || in_set (pos r1) n1));
      destruct ((doublestep e && in_set (pos r2) n2) || in_set (pos r1) n1);
      rewrite ?(turn_pos _ _ T3), ?(turn_pos _ _ T2); reflexivity.
Qed.

Lemma step_positions_witness :
  wf_machine (snd (grundstellung_set (py "ADV") M3)) = true
  /\ _rotors (snd (grundstellung_set (py "ADV") M3))
     = [] ++ [machine_rotor (snd (grundstellung_set (py "ADV") M3)) 0;
              machine_rotor (snd (grundstellung_set (py "ADV") M3)) 1;
              machine_rotor (snd (grundstellung_set (py "ADV") M3)) 2]
  /\ notch (machine_rotor (snd (grundstellung_set (py "ADV") M3)) 1)
     = Some [4]
  /\ notch (machine_rotor (snd (grundstellung_set (py "ADV") M3)) 2)
     = Some [21]
  /\ exists e',
       step (snd (grundstellung_set (py "ADV") M3)) = (Ok tt, e')
       /\ map pos (_rotors e') = [0; 4; 22].
Proof.
  assert (H1 : wf_machine (snd (grundstellung_set (py "ADV") M3)) = true)
    by (vm_compute; reflexivity).
  assert (H2 : _rotors (snd (grundstellung_set (py "ADV") M3))
     = [] ++ [machine_rotor (snd (grundstellung_set (py "ADV") M3)) 0;
              machine_rotor (snd (grundstellung_set (py "ADV") M3)) 1;
              machine_rotor (snd (grundstellung_set (py "ADV") M3)) 2])
    by (vm_compute; reflexivity).
  assert (H3 : notch (machine_rotor (snd (grundstellung_set (py "ADV") M3)) 1)
               = Some [4]) by (vm_compute; reflexivity).
  assert (H4 : notch (machine_rotor (snd (grundstellung_set (py "ADV") M3)) 2)
               = Some [21]) by (vm_compute; reflexivity).
  repeat (split; [assumption|]).
  destruct (step_positions _ _ _ _ _ _ _ H1 H2 H3 H4) as [e' [S P]].
  exists e'. split; [exact S|]. rewrite P. vm_compute. reflexivity.
Defined.

(** ** A full revolution *)

Lemma turns_spec (self : _InternalRotor) : forall k,
  length (mapping self) = 26%nat -> 0 <= pos self < 26 -> (k <= 26)%nat ->
  turns k self =
  (Ok tt,
   set_mapping (set_pos self ((pos self + Z.of_nat k) mod 26))
     (if (k =? 26)%nat then mapping self else rot k (mapping self))).
Proof.
  intros k L P. induction k as [|k IH]; intros Hk.
  - simpl. unfold ret, rot. simpl. rewrite app_nil_r.
    rewrite Z.add_0_r, Z.mod_small by lia. destruct self. reflexivity.
  - cbn [turns]. unfold bind. rewrite IH by lia.
    destruct (Nat.eqb_spec k 26) as [|_]; [lia|].
    destruct (rot_step (mapping self) k) as (c & t & Hr & Ht); [lia|].
    unfold turn. cbn [mapping set_pos set_mapping pos]. rewrite Hr.
    unfold getitem, slice_from, clip. simpl nth_error.
    change (0 <? 0) with false. cbv iota.
    change (0 <? 0) with false. cbv iota.
    simpl skipn. rewrite Ht, L. f_equal.
    unfold set_mapping, set_pos. cbn [self_attrs baserotor pos mapping].
    f_equal.
    + rewrite Z.add_mod_idemp_l by lia. f_equal. lia.
    + destruct (Nat.ltb_spec (S k) 26) as [Hlt|Hge].
      * destruct (Nat.eqb_spec (S k) 26); [lia|reflexivity].
      * destruct (Nat.eqb_spec (S k) 26); [|lia].
        unfold rot. simpl. apply app_nil_r.
Qed.

(** X3.  Twenty-six calls of [turn()] bring a rotor back to the state it
    was in, position and cached mapping, whatever its wiring and ring
    (for a cached mapping of 26 entries and a position from 0 to 25, as
    every rotor of a machine has). *)
Theorem turns_26 (self : _InternalRotor) :
  length (mapping self) = 26%nat -> 0 <= pos self < 26 ->
  turns 26 self = (Ok tt, self).
Proof.
  intros L P. rewrite (turns_spec self 26 L P) by lia.
  change (26 =? 26)%nat with true. cbv iota.
  rewrite <- Z.add_mod_idemp_r by lia. change (Z.of_nat 26 mod 26) with 0.
  rewrite Z.add_0_r, Z.mod_small by lia. destruct self. reflexivity.
Qed.

Lemma turns_26_witness :
  length (mapping VIII_at_Z) = 26%nat /\ 0 <= pos VIII_at_Z < 26
  /\ turns 26 VIII_at_Z = (Ok tt, VIII_at_Z).
Proof.
  assert (H1 : length (mapping VIII_at_Z) = 26%nat)
    by (vm_compute; reflexivity).
  assert (H2 : 0 <= pos VIII_at_Z < 26).
  { assert (E : pos VIII_at_Z = 25) by (vm_compute; reflexivity).
    rewrite E. lia. }
  split; [exact H1|]. split; [exact H2|].
  exact (turns_26 VIII_at_Z H1 H2).
Defined.

(** ** encode, message by message *)

Lemma wf_parts e : wf_machine e = true ->
  Forall mapping_ok (_rotors e)
  /\ self_inverse (wiring (_reflector e)) = true
  /\ plug_ok (_plugboard e) = true.
Proof.
  intros H. split; [apply wf_mapping_ok, H|].
  apply wf_machine_iff in H. tauto.
Qed.

Lemma signal_Ok e c : wf_machine e = true -> is_upper c = true ->
  exists o, signal e c = Ok o /\ is_upper o = true.
Proof.
  intros H U. destruct (wf_parts e H) as (A & B & C).
  destruct (signal_involution e A B C c U) as (o & S & Uo & _). eauto.
Qed.

(** What the [grundstellung] setter does on a machine in a valid
    state. *)
Lemma grundstellung_set_spec e p :
  wf_machine e = true -> letters p = true ->
  length p = length (_rotors e) ->
  grundstellung_set p e =
  (Ok tt,
   with_rotors e (map (fun rp => reposition (fst rp) (snd rp))
                      (combine (_rotors e) (upper p))))
  /\ wf_machine
       (with_rotors e (map (fun rp => reposition (fst rp) (snd rp))
                           (combine (_rotors e) (upper p)))) = true
  /\ same_static e
       (with_rotors e (map (fun rp => reposition (fst rp) (snd rp))
                           (combine (_rotors e) (upper p)))).
Proof.
  intros H Lp Len.
  assert (Hne : p <> []).
  { destruct (wf_last_three e H) as (pre & r3 & r2 & r1 & _ & _ & E & _).
    rewrite E, length_app in Len. destruct p; [simpl in Len; lia|congruence]. }
  assert (Lu : length (upper p) = length (_rotors e)).
  { rewrite (upper_letters _ Lp), length_map. exact Len. }
  assert (W : forallb wf_rotor (_rotors e) = true)
    by (apply wf_machine_iff in H; tauto).
  split; [|apply wf_moved; [exact H|apply repositioned_moved; assumption]].
  unfold grundstellung_set. rewrite (isalpha_letters _ Lp Hne). simpl negb.
  unfold len. rewrite Len, Z.eqb_refl. simpl negb. cbv iota.
  rewrite (grundstellung_loop_spec _ _ W (upper_letters_upper _ Lp) Lu).
  reflexivity.
Qed.

(** [encode] on a message of letters: the loop, run from the machine as
    it is or as the starting position leaves it. *)
Lemma encode_unfold e message g :
  wf_machine e = true -> start_ok e g = true ->
  letters message = true -> message <> [] ->
  exists e0,
    encode message g e = encode_loop (upper message) [] e0
    /\ wf_machine e0 = true /\ same_static e e0
    /\ match g with
       | None => e0 = e
       | Some p =>
           e0 = with_rotors e (map (fun rp => reposition (fst rp) (snd rp))
                                   (combine (_rotors e) (upper p)))
       end.
Proof.
  intros H G Lm Hne. unfold encode.
  rewrite (isalpha_letters _ Lm Hne). simpl negb. cbv iota.
  destruct g as [p|].
  - simpl in G. apply andb_prop in G. destruct G as [Lp Len].
    apply Nat.eqb_eq in Len.
    destruct (grundstellung_set_spec e p H Lp Len) as (S & W & St).
    eexists. split; [|split; [exact W|split; [exact St|reflexivity]]].
    destruct p as [|c p].
    + exfalso. destruct (wf_last_three e H)
        as (pre & r3 & r2 & r1 & _ & _ & E & _).
      rewrite E, length_app in Len. simpl in Len. lia.
    + unfold bind. rewrite S. reflexivity.
  - exists e. split; [reflexivity|].
    split; [exact H|split; [apply same_static_refl|reflexivity]].
Qed.

Lemma Forall2_map_left {A B C} (f : A -> B) (P : B -> C -> Prop) l out :
  Forall2 P (map f l) out -> Forall2 (fun a o => P (f a) o) l out.
Proof.
  revert out. induction l as [|a l IH]; intros out H; inversion H; subst;
    constructor; auto.
Qed.

(** *** No letter is encoded to itself *)

Lemma no_fixed_point_spec w : no_fixed_point w = true ->
  forall c d, is_upper c = true -> wired w c = Ok d -> d <> c.
Proof.
  intros H c d Uc W. pose proof (ABC_forall _ H c Uc) as E. cbv beta in E.
  rewrite W in E. apply negb_true_iff, N.eqb_neq in E. exact E.
Qed.

Lemma signal_differs e c o :
  wf_machine e = true ->
  no_fixed_point (wiring (_reflector e)) = true ->
  is_upper c = true -> signal e c = Ok o -> o <> c.
Proof.
  intros H NF Uc S. destruct (wf_parts e H) as (A & B & C).
  destruct (plug_ok_spec _ C c Uc) as [Up Hpp].
  destruct (rotors_there_and_back _ A _ Up) as (x & Hx & Ux & Hxb).
  destruct (reflect_involution _ B x Ux) as (y & Hy & Uy & _).
  destruct (rotors_back_and_there _ A y Uy) as (z & Hz & Uz & Hzb).
  destruct (plug_ok_spec _ C z Uz) as [_ Hzz].
  unfold signal in S. fold (plug (_plugboard e) c) in S.
  rewrite Hx in S. cbn [rbind] in S. rewrite Hy in S. cbn [rbind] in S.
  rewrite Hz in S. cbn [rbind] in S. injection S as <-.
  fold (plug (_plugboard e) z). intros E.
  assert (Ez : z = plug (_plugboard e) c) by (rewrite <- E, Hzz; reflexivity).
  rewrite Ez, Hx in Hzb. injection Hzb as Exy.
  rewrite (reflect_wired _ _ Ux) in Hy.
  apply (no_fixed_point_spec _ NF x y Ux Hy). symmetry. exact Exy.
Qed.

Lemma encode_loop_differs message : forall e acc,
  wf_machine e = true ->
  no_fixed_point (wiring (_reflector e)) = true ->
  Forall (fun c => is_upper c = true) message ->
  exists out e',
    encode_loop message acc e = (Ok (acc ++ out), e')
    /\ Forall2 (fun c o => o <> c) message out.
Proof.
  induction message as [|c message IH]; intros e acc H NF U.
  - exists [], e. rewrite app_nil_r. split; [reflexivity|constructor].
  - inversion U as [|? ? Uc U']; subst.
    destruct (step_ok e H) as (e1 & S & H1 & St).
    destruct (signal_Ok e1 c H1 Uc) as (o & So & _).
    assert (NF1 : no_fixed_point (wiring (_reflector e1)) = true).
    { destruct St as [-> _]. exact NF. }
    destruct (IH e1 (acc ++ [o]) H1 NF1 U') as (out & e' & L & D).
    exists (o :: out), e'. split.
    + cbn [encode_loop]. unfold bind. rewrite S, So, L.
      rewrite <- app_assoc. reflexivity.
    + constructor; [|exact D]. eapply signal_differs; eassumption.
Qed.

(** X4.  On a machine in a valid state whose reflector wires no letter
    to itself, no letter of a message is encoded to itself: each
    character of the ciphertext differs from the character of the
    message at the same place, taken in upper case. *)
Theorem encode_never_identity e message g :
  wf_machine e = true -> start_ok e g = true ->
  no_fixed_point (wiring (_reflector e)) = true ->
  letters message = true -> message <> [] ->
  exists ciphertext e',
    encode message g e = (Ok ciphertext, e')
    /\ Forall2 (fun c o => o <> to_upper c) message ciphertext.
Proof.
  intros H G NF Lm Hne.
  destruct (encode_unfold e message g H G Lm Hne) as (e0 & E & H0 & St & _).
  assert (NF0 : no_fixed_point (wiring (_reflector e0)) = true).
  { destruct St as [-> _]. exact NF. }
  destruct (encode_loop_differs _ e0 [] H0 NF0 (upper_letters_upper _ Lm))
    as (out & e' & L & D).
  exists out, e'. split; [rewrite E; exact L|].
  rewrite (upper_letters _ Lm) in D. apply Forall2_map_left in D. exact D.
Qed.

Lemma encode_never_identity_witness :
  wf_machine M4 = true /\ start_ok M4 (Some (py "NAEM")) = true
  /\ no_fixed_point (wiring (_reflector M4)) = true
  /\ letters (py "qeob") = true /\ py "qeob" <> []
  /\ exists ciphertext e',
       encode (py "qeob") (Some (py "NAEM")) M4 = (Ok ciphertext, e')
       /\ Forall2 (fun c o => o <> to_upper c) (py "qeob") ciphertext.
Proof.
  assert (H1 : wf_machine M4 = true) by (vm_compute; reflexivity).
  assert (H2 : start_ok M4 (Some (py "NAEM")) = true)
    by (vm_compute; reflexivity).
  assert (H3 : no_fixed_point (wiring (_reflector M4)) = true)
    by (vm_compute; reflexivity).
  assert (H4 : letters (py "qeob") = true) by (vm_compute; reflexivity).
  assert (H5 : py "qeob" <> []) by (vm_compute; discriminate).
  repeat (split; [assumption|]).
  exact (encode_never_identity M4 (py "qeob") _ H1 H2 H3 H4 H5).
Defined.

(** *** The rotors move with the length of the message only *)

Lemma encode_loop_state m1 : forall m2 e acc1 acc2,
  wf_machine e = true ->
  Forall (fun c => is_upper c = true) m1 ->
  Forall (fun c => is_upper c = true) m2 ->
  length m1 = length m2 ->
  snd (encode_loop m1 acc1 e) = snd (encode_loop m2 acc2 e).
Proof.
  induction m1 as [|c m1 IH]; intros [|d m2] e acc1 acc2 H U1 U2 L;
    try discriminate; [reflexivity|].
  inversion U1 as [|? ? Uc U1']; inversion U2 as [|? ? Ud U2']; subst.
  injection L as L.
  destruct (step_ok e H) as (e1 & S & H1 & _).
  destruct (signal_Ok e1 c H1 Uc) as (o & So & _).
  destruct (signal_Ok e1 d H1 Ud) as (o' & So' & _).
  cbn [encode_loop]. unfold bind. rewrite S, So, So'.
  apply IH; assumption.
Qed.

(** X7.  On a machine in a valid state, where the rotors stand after
    [encode] depends on the starting position and on the length of the
    message, not on its letters: two messages of letters of the same
    length leave the machine in the same state. *)
Theorem encode_state_by_length e g m1 m2 :
  wf_machine e = true -> start_ok e g = true ->
  letters m1 = true -> letters m2 = true -> m1 <> [] ->
  length m1 = length m2 ->
  snd (encode m1 g e) = snd (encode m2 g e).
Proof.
  intros H G L1 L2 N1 Len.
  assert (N2 : m2 <> []) by (intros ->; destruct m1; [congruence|discriminate]).
  destruct (encode_unfold e m1 g H G L1 N1) as (e1 & E1 & H1 & _ & F1).
  destruct (encode_unfold e m2 g H G L2 N2) as (e2 & E2 & _ & _ & F2).
  assert (e2 = e1) by (destruct g; congruence). subst e2.
  rewrite E1, E2. apply encode_loop_state; try assumption.
  - apply upper_letters_upper, L1.
  - apply upper_letters_upper, L2.
  - rewrite (upper_letters _ L1), (upper_letters _ L2), !length_map. exact Len.
Qed.

Lemma encode_state_by_length_witness :
  wf_machine M3 = true /\ start_ok M3 (Some (py "ADT")) = true
  /\ letters (py "HELLO") = true /\ letters (py "world") = true
  /\ py "HELLO" <> [] /\ length (py "HELLO") = length (py "world")
  /\ snd (encode (py "HELLO") (Some (py "ADT")) M3)
     = snd (encode (py "world") (Some (py "ADT")) M3).
Proof.
  assert (H1 : wf_machine M3 = true) by (vm_compute; reflexivity).
  assert (H2 : start_ok M3 (Some (py "ADT")) = true)
    by (vm_compute; reflexivity).
  assert (H3 : letters (py "HELLO") = true) by (vm_compute; reflexivity).
  assert (H4 : letters (py "world") = true) by (vm_compute; reflexivity).
  assert (H5 : py "HELLO" <> []) by (vm_compute; discriminate).
  assert (H6 : length (py "HELLO") = length (py "world")) by reflexivity.
  repeat (split; [assumption|]).
  exact (encode_state_by_length M3 _ _ _ H1 H2 H3 H4 H5 H6).
Defined.

(** *** Messages in pieces *)

Lemma encode_loop_acc message : forall acc e,
  encode_loop message acc e =
  match encode_loop message [] e with
  | (Ok c, e') => (Ok (acc ++ c), e')
  | (Raise x, e') => (Raise x, e')
  end.
Proof.
  induction message as [|c message IH]; intros acc e.
  - simpl. unfold ret. rewrite app_nil_r. reflexivity.
  - cbn [encode_loop]. unfold bind.
    destruct (step e) as [[[]|x] e1]; [|reflexivity].
    destruct (signal e1 c) as [o|x]; [|reflexivity].
    rewrite (IH (acc ++ [o])), (IH ([] ++ [o])).
    destruct (encode_loop message [] e1) as [[out|x] e2]; [|reflexivity].
    rewrite <- app_assoc. reflexivity.
Qed.

Lemma encode_loop_app m1 : forall m2 e,
  encode_loop (m1 ++ m2) [] e =
  (do c1 <- encode_loop m1 [];
   do c2 <- encode_loop m2 [];
   ret (c1 ++ c2)) e.
Proof.
  induction m1 as [|c m1 IH]; intros m2 e.
  - simpl. unfold bind, ret.
    destruct (encode_loop m2 [] e) as [[out|x] e']; reflexivity.
  - cbn [app encode_loop]. unfold bind.
    destruct (step e) as [[[]|x] e1]; [|reflexivity].
    destruct (signal e1 c) as [o|x]; [|reflexivity].
    rewrite (encode_loop_acc (m1 ++ m2) ([] ++ [o])), IH.
    rewrite (encode_loop_acc m1 ([] ++ [o])). unfold bind, ret.
    destruct (encode_loop m1 [] e1) as [[c1|x] e2]; [|reflexivity].
    destruct (encode_loop m2 [] e2) as [[c2|x] e3]; [|reflexivity].
    rewrite <- app_assoc. reflexivity.
Qed.

Lemma isalpha_app m1 m2 :
  isalpha m1 = true -> isalpha m2 = true -> isalpha (m1 ++ m2) = true.
Proof.
  destruct m1 as [|c m1]; [discriminate|]. intros H1 H2.
  unfold isalpha in *. cbn [app]. change (c :: m1 ++ m2) with ((c :: m1) ++ m2).
  rewrite forallb_app, H1. destruct m2; [discriminate|exact H2].
Qed.

(** X5.  A message can be encoded in pieces: for two messages that
    [isalpha] accepts, encoding their concatenation is encoding the
    first, then the second without a starting position (from where the
    rotors stand), and joining the two ciphertexts; an exception raised
    on the way is the same on both sides, and so is the machine left
    behind. *)
Theorem encode_concat m1 m2 g e :
  isalpha m1 = true -> isalpha m2 = true ->
  encode (m1 ++ m2) g e =
  (do c1 <- encode m1 g;
   do c2 <- encode m2 None;
   ret (c1 ++ c2)) e.
Proof.
  intros A1 A2.
  assert (E : forall m, isalpha m = true ->
              encode m g e =
              match match g with
                    | Some ((_ :: _) as g0) => grundstellung_set g0
                    | _ => ret tt
                    end e with
              | (Ok _, s) => encode_loop (upper m) [] s
              | (Raise x, s) => (Raise x, s)
              end).
  { intros m A. unfold encode. rewrite A. reflexivity. }
  assert (E2 : forall s, encode m2 None s = encode_loop (upper m2) [] s).
  { intros s. unfold encode. rewrite A2. reflexivity. }
  cbv beta delta [bind].
  rewrite (E _ (isalpha_app _ _ A1 A2)), (E _ A1).
  unfold upper. rewrite flat_map_app. fold (upper m1) (upper m2).
  destruct (match g with
            | Some ((_ :: _) as g0) => grundstellung_set g0
            | _ => ret tt
            end e) as [[[]|x] e0]; [|reflexivity].
  rewrite encode_loop_app. cbv beta delta [bind ret].
  destruct (encode_loop (upper m1) [] e0) as [[c1|x] e1]; [|reflexivity].
  rewrite E2. reflexivity.
Qed.

Lemma encode_concat_witness :
  isalpha (py "KRKRALLE") = true /\ isalpha (py "XXFOLGENDES") = true
  /\ encode (py "KRKRALLE" ++ py "XXFOLGENDES") (Some (py "CDSZ")) M4 =
     (do c1 <- encode (py "KRKRALLE") (Some (py "CDSZ"));
      do c2 <- encode (py "XXFOLGENDES") None;
      ret (c1 ++ c2)) M4.
Proof.
  assert (H1 : isalpha (py "KRKRALLE") = true) by (vm_compute; reflexivity).
  assert (H2 : isalpha (py "XXFOLGENDES") = true)
    by (vm_compute; reflexivity).
  split; [exact H1|]. split; [exact H2|].
  exact (encode_concat _ _ _ M4 H1 H2).
Defined.

(** X6.  [encode] does not see the case of an ASCII message: the message
    and its upper case give the same result, ciphertext or exception,
    and leave the same machine. *)
Theorem encode_ignores_case message g e :
  letters message = true ->
  encode (upper message) g e = encode message g e.
Proof.
  intros L. destruct message as [|c message]; [reflexivity|].
  pose proof (upper_letters_upper _ L) as U.
  assert (N : upper (c :: message) <> []).
  { rewrite (upper_letters _ L). discriminate. }
  unfold encode.
  rewrite (isalpha_letters _ (upper_letters_of _ U) N).
  rewrite (isalpha_letters _ L) by discriminate.
  rewrite (upper_of_upper _ U). reflexivity.
Qed.

Lemma encode_ignores_case_witness :
  letters (py "Hello") = true
  /\ encode (upper (py "Hello")) (Some (py "ADT")) M3
     = encode (py "Hello") (Some (py "ADT")) M3.
Proof.
  assert (H1 : letters (py "Hello") = true) by (vm_compute; reflexivity).
  split; [exact H1|].
  exact (encode_ignores_case (py "Hello") (Some (py "ADT")) M3 H1).
Defined.

(** ** What encode keeps *)

Lemma firstn_exact {A} (pre l : list A) : firstn (length pre) (pre ++ l) = pre.
Proof.
  replace (length pre) with (length pre + 0)%nat by lia.
  rewrite firstn_app_2. simpl. apply app_nil_r.
Qed.

Lemma encode_loop_prefix message : forall e acc,
  wf_machine e = true ->
  Forall (fun c => is_upper c = true) message ->
  length (_rotors (snd (encode_loop message acc e))) = length (_rotors e)
  /\ firstn (length (_rotors e) - 3)
            (_rotors (snd (encode_loop message acc e)))
     = firstn (length (_rotors e) - 3) (_rotors e).
Proof.
  induction message as [|c message IH]; intros e acc H U.
  - simpl. auto.
  - inversion U as [|? ? Uc U']; subst.
    destruct (step_shape e H)
      as (pre & r3 & r2 & r1 & a & b & d & E & S & _ & _ & _ & _ & _ & _ & H1).
    destruct (signal_Ok _ c H1 Uc) as (o & So & _).
    cbn [encode_loop]. unfold bind. rewrite S, So.
    destruct (IH _ (acc ++ [o]) H1 U') as [L F].
    cbn [_rotors with_rotors] in L, F.
    assert (Len : length (pre ++ [a; b; d]) = length (_rotors e))
      by (rewrite E, !length_app; reflexivity).
    assert (K : (length (pre ++ [a; b; d]) - 3)%nat = length pre)
      by (rewrite length_app; simpl; lia).
    split; [congruence|]. rewrite K in F.
    rewrite <- Len, K, F, E, !firstn_exact. reflexivity.
Qed.

(** X8.  While a message is encoded, the rotors to the left of the three
    rightmost ones do not move: in a four-rotor machine the leftmost
    rotor is, after [encode], where the starting position put it, or
    where it stood if none was given. *)
Theorem encode_keeps_left_rotors e message g :
  wf_machine e = true -> start_ok e g = true ->
  letters message = true -> message <> [] ->
  firstn (length (_rotors e) - 3) (_rotors (snd (encode message g e)))
  = firstn (length (_rotors e) - 3)
      match g with
      | None => _rotors e
      | Some p => map (fun rp => reposition (fst rp) (snd rp))
                      (combine (_rotors e) (upper p))
      end.
Proof.
  intros H G Lm Hne.
  destruct (encode_unfold e message g H G Lm Hne) as (e0 & E & H0 & St & F).
  destruct (encode_loop_prefix _ e0 [] H0 (upper_letters_upper _ Lm))
    as [_ P].
  assert (L0 : length (_rotors e0) = length (_rotors e)).
  { destruct St as (_ & _ & _ & M).
    rewrite <- (length_map static (_rotors e0)), M. apply length_map. }
  rewrite E, <- L0, P. destruct g as [p|]; subst e0; reflexivity.
Qed.

Lemma encode_keeps_left_rotors_witness :
  wf_machine M4 = true /\ start_ok M4 None = true
  /\ letters (py "KRKRALLEXXFOLGENDESISTSOFORTBEKANNTZUGEBEN") = true
  /\ py "KRKRALLEXXFOLGENDESISTSOFORTBEKANNTZUGEBEN" <> []
  /\ firstn (length (_rotors M4) - 3)
       (_rotors (snd (encode (py "KRKRALLEXXFOLGENDESISTSOFORTBEKANNTZUGEBEN")
                        None M4)))
     = firstn (length (_rotors M4) - 3) (_rotors M4).
Proof.
  assert (H1 : wf_machine M4 = true) by (vm_compute; reflexivity).
  assert (H2 : start_ok M4 None = true) by reflexivity.
  assert (H3 : letters (py "KRKRALLEXXFOLGENDESISTSOFORTBEKANNTZUGEBEN")
               = true) by (vm_compute; reflexivity).
  assert (H4 : py "KRKRALLEXXFOLGENDESISTSOFORTBEKANNTZUGEBEN" <> [])
    by (vm_compute; discriminate).
  repeat (split; [assumption|]).
  exact (encode_keeps_left_rotors M4 _ None H1 H2 H3 H4).
Defined.

(** *** The cache is never stale *)

Lemma remapped_set_mapping r m : remapped (set_mapping r m) = remapped r.
Proof. reflexivity. Qed.

Lemma turn_inv r r' :
  wf_rotor r = true -> rotor_inv r -> turn r = (Ok tt, r') -> rotor_inv r'.
Proof.
  intros W [C P] T.
  assert (L : length (wiring r) = 26%nat).
  { apply perm_length, (wf_rotor_spec _ W). }
  rewrite (turn_spec r L C) in T. injection T as <-. split.
  - reflexivity.
  - cbn [pos set_mapping set_pos]. apply Z.mod_pos_bound. lia.
Qed.

Lemma stepped_inv r r' :
  wf_rotor r = true -> rotor_inv r -> stepped r r' -> rotor_inv r'.
Proof.
  intros W I [->|T]; [exact I|]. eapply turn_inv; eassumption.
Qed.

Lemma encode_loop_inv message : forall e acc,
  wf_machine e = true -> Forall rotor_inv (_rotors e) ->
  Forall (fun c => is_upper c = true) message ->
  Forall rotor_inv (_rotors (snd (encode_loop message acc e))).
Proof.
  induction message as [|c message IH]; intros e acc H I U.
  - exact I.
  - inversion U as [|? ? Uc U']; subst.
    destruct (step_shape e H)
      as (pre & r3 & r2 & r1 & a & b & d & E & S
          & S3 & S2 & T1 & W3 & W2 & W1 & H1).
    destruct (signal_Ok _ c H1 Uc) as (o & So & _).
    cbn [encode_loop]. unfold bind. rewrite S, So.
    apply IH; [exact H1| |exact U'].
    cbn [_rotors with_rotors]. rewrite E in I.
    apply Forall_app in I. destruct I as [Ipre I].
    inversion I as [|? ? I3 I']; subst.
    inversion I' as [|? ? I2 I'']; subst.
    inversion I'' as [|? ? I1 _]; subst.
    apply Forall_app. split; [exact Ipre|].
    apply Forall_cons; [|apply Forall_cons; [|apply Forall_cons;
                                              [|constructor]]].
    + exact (stepped_inv _ _ W3 I3 S3).
    + exact (stepped_inv _ _ W2 I2 S2).
    + exact (turn_inv _ _ W1 I1 T1).
Qed.

Lemma reposition_inv r c : is_upper c = true -> rotor_inv (reposition r c).
Proof.
  intros U. split; [reflexivity|].
  unfold reposition. cbn [pos set_mapping set_pos]. apply ord_range, U.
Qed.

Lemma repositioned_inv rs : forall ps,
  Forall (fun c => is_upper c = true) ps ->
  Forall rotor_inv (map (fun rp => reposition (fst rp) (snd rp))
                        (combine rs ps)).
Proof.
  induction rs as [|r rs IH]; intros [|p ps] U; simpl; try constructor.
  - inversion U; subst. apply reposition_inv. assumption.
  - inversion U; subst. apply IH. assumption.
Qed.

Lemma grundstellung_of_inv rs : Forall rotor_inv rs ->
  mapM (fun r => getitem ABC (pos r)) rs = Ok (map (fun r => chr (pos r)) rs).
Proof.
  intros I. apply mapM_map. intros r Hr. rewrite Forall_forall in I.
  apply getitem_ABC, (I r Hr).
Qed.

(** X9.  [encode] keeps the rotors of a machine consistent: if every
    rotor has a position from 0 to 25 and a cached mapping equal to what
    [remap()] would compute, the same holds after encoding a message of
    letters (although [turn()] only rotates the cache), the machine is
    still in a valid state, and the [grundstellung] getter returns one
    letter per rotor. *)
Theorem encode_keeps_rotors_consistent e message g :
  wf_machine e = true -> start_ok e g = true ->
  Forall rotor_inv (_rotors e) ->
  letters message = true -> message <> [] ->
  exists ciphertext e',
    encode message g e = (Ok ciphertext, e')
    /\ wf_machine e' = true
    /\ Forall rotor_inv (_rotors e')
    /\ exists s, grundstellung e' = Ok s
                 /\ length s = length (_rotors e).
Proof.
  intros H G I Lm Hne.
  destruct (encode_unfold e message g H G Lm Hne) as (e0 & E & H0 & St & F).
  pose proof (upper_letters_upper _ Lm) as U.
  assert (I0 : Forall rotor_inv (_rotors e0)).
  { destruct g as [p|]; subst e0; [|exact I].
    cbn [_rotors with_rotors]. apply repositioned_inv.
    simpl in G. apply andb_prop in G. apply upper_letters_upper, G. }
  destruct (encode_loop_ok _ e0 [] H0 U) as (out & e' & L & _ & _ & H' & _).
  pose proof (encode_loop_inv _ e0 [] H0 I0 U) as I'.
  destruct (encode_loop_prefix _ e0 [] H0 U) as [Len _].
  rewrite L in I', Len. cbn [snd] in I', Len.
  exists out, e'. split; [rewrite E; exact L|]. split; [exact H'|].
  split; [exact I'|]. eexists. split.
  - unfold grundstellung. apply grundstellung_of_inv, I'.
  - rewrite length_map, Len.
    destruct St as (_ & _ & _ & M).
    rewrite <- (length_map static (_rotors e0)), M. apply length_map.
Qed.

Lemma encode_keeps_rotors_consistent_witness :
  wf_machine M4 = true /\ start_ok M4 (Some (py "NAEM")) = true
  /\ Forall rotor_inv (_rotors M4)
  /\ letters (py "QEOB") = true /\ py "QEOB" <> []
  /\ exists ciphertext e',
       encode (py "QEOB") (Some (py "NAEM")) M4 = (Ok ciphertext, e')
       /\ wf_machine e' = true
       /\ Forall rotor_inv (_rotors e')
       /\ exists s, grundstellung e' = Ok s
                    /\ length s = length (_rotors M4).
Proof.
  assert (H1 : wf_machine M4 = true) by (vm_compute; reflexivity).
  assert (H2 : start_ok M4 (Some (py "NAEM")) = true)
    by (vm_compute; reflexivity).
  assert (H3 : Forall rotor_inv (_rotors M4)).
  { repeat constructor; try (vm_compute; reflexivity);
      vm_compute; discriminate. }
  assert (H4 : letters (py "QEOB") = true) by (vm_compute; reflexivity).
  assert (H5 : py "QEOB" <> []) by (vm_compute; discriminate).
  repeat (split; [assumption|]).
  exact (encode_keeps_rotors_consistent M4 _ _ H1 H2 H3 H4 H5).
Defined.

(** ** What the constructor and the setters establish *)

Lemma remap_inv r r' :
  remap r = (Ok tt, r') -> mapping r' = remapped r' /\ pos r' = pos r.
Proof.
  intros R. pose proof (remap_Ok_upper _ _ R) as U.
  rewrite (remap_spec _ U) in R. injection R as <-. split; reflexivity.
Qed.

Lemma index_ABC_range c k : index ABC [c] = Ok k -> 0 <= k < 26.
Proof.
  destruct (is_upper c) eqn:U.
  - rewrite (index_ABC _ U). intros [= <-]. apply ord_range, U.
  - rewrite (index_ABC_not_upper _ U). discriminate.
Qed.

Lemma InternalRotor_init_pos (r : Rotor) ir :
  InternalRotor_init r (py "A") = Ok ir -> rotor_inv ir /\ pos ir = 0.
Proof.
  unfold InternalRotor_init.
  destruct (match notch r with
            | Some ns => cs <- mapM (getitem ABC) ns ;; Ok (Some cs)
            | None => Ok None
            end) as [notches|]; [|discriminate]. cbn [rbind].
  destruct (getitem ABC (ring r)) as [ringc|]; [|discriminate]. cbn [rbind].
  destruct (Rotor_init (wiring r) notches [ringc]) as [a|]; [|discriminate].
  cbn [rbind].
  change ((len (py "A") =? 1) && isalpha (py "A")) with true. cbv iota.
  change (index ABC (upper (py "A"))) with (@Ok Z 0). cbn [rbind].
  destruct (remap (mkInternalRotor a r 0 [])) as [[[]|] self] eqn:Er;
    [|discriminate]. intros [= <-].
  destruct (remap_inv _ _ Er) as [C P]. cbn [pos] in P.
  split; [split; [exact C|rewrite P; lia]|exact P].
Qed.

Lemma rotors_init_inv rotors : forall rs,
  mapM (fun r => InternalRotor_init r (py "A")) rotors = Ok rs ->
  Forall (fun r => rotor_inv r /\ pos r = 0) rs.
Proof.
  induction rotors as [|r rotors IH]; intros rs; simpl.
  - intros [= <-]. constructor.
  - destruct (InternalRotor_init r (py "A")) as [ir|] eqn:Ei; [|discriminate].
    cbn [rbind].
    destruct (mapM _ rotors) as [rs'|]; [|discriminate]. cbn [rbind].
    intros [= <-]. constructor; [exact (InternalRotor_init_pos _ _ Ei)|].
    apply IH. reflexivity.
Qed.

Lemma rotors_value_mapM refl rotors rs :
  rotors_value refl rotors = Ok rs ->
  mapM (fun r => InternalRotor_init r (py "A")) rotors = Ok rs.
Proof.
  unfold rotors_value.
  destruct (if len rotors =? 3 then _ else _) as [[]|]; [|discriminate].
  cbn [rbind]. auto.
Qed.

Lemma ringstellung_loop_inv rs : forall rings rs',
  Forall rotor_inv rs ->
  ringstellung_loop rs rings = (Ok tt, rs') -> Forall rotor_inv rs'.
Proof.
  induction rs as [|r rs IH]; intros rings rs' I; simpl.
  - intros [= <-]. constructor.
  - destruct rings as [|c rings]; [intros [= <-]; exact I|].
    inversion I as [|? ? [_ Pr] Irs]; subst.
    destruct (index ABC [c]) as [k|]; [|discriminate].
    destruct (remap (set_ring r k)) as [[[]|] r'] eqn:Er; [|discriminate].
    destruct (ringstellung_loop rs rings) as [[[]|] rs''] eqn:El;
      [|discriminate].
    intros [= <-]. constructor; [|eapply IH; eassumption].
    destruct (remap_inv _ _ Er) as [C P]. split; [exact C|].
    rewrite P. exact Pr.
Qed.

Lemma grundstellung_loop_inv rs : forall ps rs',
  Forall rotor_inv rs ->
  grundstellung_loop rs ps = (Ok tt, rs') -> Forall rotor_inv rs'.
Proof.
  induction rs as [|r rs IH]; intros ps rs' I; simpl.
  - intros [= <-]. constructor.
  - destruct ps as [|c ps]; [intros [= <-]; exact I|].
    inversion I as [|? ? _ Irs]; subst.
    destruct (index ABC [c]) as [k|] eqn:Ik; [|discriminate].
    destruct (remap (set_pos r k)) as [[[]|] r'] eqn:Er; [|discriminate].
    destruct (grundstellung_loop rs ps) as [[[]|] rs''] eqn:El;
      [|discriminate].
    intros [= <-]. constructor; [|eapply IH; eassumption].
    destruct (remap_inv _ _ Er) as [C P]. split; [exact C|].
    rewrite P. cbn [pos set_pos]. eapply index_ABC_range, Ik.
Qed.

Lemma ringstellung_set_rotors rings e e' :
  ringstellung_set rings e = (Ok tt, e') ->
  ringstellung_loop (_rotors e) (upper rings) = (Ok tt, _rotors e').
Proof.
  unfold ringstellung_set.
  destruct (negb (len (_rotors e) =? len rings)); [discriminate|].
  destruct (negb (isalpha rings)); [discriminate|].
  destruct (ringstellung_loop (_rotors e) (upper rings)) as [[[]|] rs];
    intros [= <-]; reflexivity.
Qed.

Lemma grundstellung_set_rotors g e e' :
  grundstellung_set g e = (Ok tt, e') ->
  grundstellung_loop (_rotors e) (upper g) = (Ok tt, _rotors e').
Proof.
  unfold grundstellung_set.
  destruct (negb (isalpha g)); [discriminate|].
  destruct (negb (len g =? len (_rotors e))); [discriminate|].
  destruct (grundstellung_loop (_rotors e) (upper g)) as [[[]|] rs];
    intros [= <-]; reflexivity.
Qed.

Lemma plugboard_set_rotors plugboard e r e' :
  plugboard_set plugboard e = (r, e') -> _rotors e' = _rotors e.
Proof.
  unfold plugboard_set. destruct plugboard as [|p rest].
  - intros [= _ <-]. reflexivity.
  - destruct (_ || _); [intros [= _ <-]; reflexivity|].
    destruct (existsb _ _); [intros [= _ <-]; reflexivity|].
    destruct (plugboard_loop (p :: rest) []). intros [= _ <-]. reflexivity.
Qed.

(** X10.  Every machine the constructor returns, whatever its arguments,
    has consistent rotors: each position is from 0 to 25 and each cached
    mapping is what [remap()] computes from wiring, ring and
    position. *)
Theorem Enigma_init_rotors_consistent rotors reflector ringstellung plugboard
  doublestep grundstellung e :
  Enigma_init rotors reflector ringstellung plugboard doublestep grundstellung
  = Ok e ->
  Forall rotor_inv (_rotors e).
Proof.
  unfold Enigma_init.
  destruct (InternalReflector_init reflector) as [refl|]; [|discriminate].
  cbn [rbind].
  destruct (rotors_value refl rotors) as [rs|] eqn:Ers; [|discriminate].
  cbn [rbind]. cbv zeta. unfold bind.
  destruct (ringstellung_set _ _) as [[[]|] e1] eqn:E1; [|discriminate].
  destruct (grundstellung_set _ e1) as [[[]|] e2] eqn:E2; [|discriminate].
  destruct (plugboard_set plugboard e2) as [[[]|] e3] eqn:E3; [|discriminate].
  intros [= <-].
  rewrite (plugboard_set_rotors _ _ _ _ E3).
  apply grundstellung_set_rotors in E2.
  apply ringstellung_set_rotors in E1. cbn [_rotors] in E1.
  eapply grundstellung_loop_inv; [|exact E2].
  eapply ringstellung_loop_inv; [|exact E1].
  pose proof (rotors_init_inv _ _ (rotors_value_mapM _ _ _ Ers)) as I.
  eapply Forall_impl; [|exact I]. intros r [Hr _]. exact Hr.
Qed.

Lemma Enigma_init_rotors_consistent_witness :
  Enigma_init [Named.BETA; Named.V; Named.VI; Named.VIII] Named.UKWC_THIN
    (py "EPEL") M4_plugboard true (py "NAEM")
  = Ok (snd (grundstellung_set (py "NAEM") M4))
  /\ Forall rotor_inv (_rotors (snd (grundstellung_set (py "NAEM") M4))).
Proof.
  assert (H1 : Enigma_init [Named.BETA; Named.V; Named.VI; Named.VIII]
                 Named.UKWC_THIN (py "EPEL") M4_plugboard true (py "NAEM")
               = Ok (snd (grundstellung_set (py "NAEM") M4)))
    by (vm_compute; reflexivity).
  split; [exact H1|].
  exact (Enigma_init_rotors_consistent _ _ _ _ _ _ _ H1).
Defined.



(** ** Setting and reading back *)

Lemma grundstellung_repositioned rs : forall ps,
  Forall (fun c => is_upper c = true) ps -> length ps = length rs ->
  mapM (fun r => getitem ABC (pos r))
       (map (fun rp => reposition (fst rp) (snd rp)) (combine rs ps))
  = Ok ps.
Proof.
  induction rs as [|r rs IH]; intros [|p ps] U L; try discriminate;
    [reflexivity|].
  inversion U as [|? ? Up U']; subst. injection L as L. simpl.
  rewrite (getitem_ABC _ (ord_range _ Up)). cbn [rbind].
  rewrite (IH ps U' L). cbn [rbind]. rewrite (chr_ord _ Up). reflexivity.
Qed.

Lemma ringstellung_repositioned rs : forall ps,
  length ps = length rs ->
  mapM (fun r : _InternalRotor => getitem ABC (ring r))
       (map (fun rp => reposition (fst rp) (snd rp)) (combine rs ps))
  = mapM (fun r : _InternalRotor => getitem ABC (ring r)) rs.
Proof.
  induction rs as [|r rs IH]; intros [|p ps] L; try discriminate;
    [reflexivity|].
  injection L as L. simpl. rewrite (IH ps L). reflexivity.
Qed.

(** X11.  On a machine in a valid state, assigning a starting position
    of one ASCII letter per rotor succeeds; the [grundstellung] getter
    then returns the assigned string in upper case, and the ring
    settings are what they were. *)
Theorem grundstellung_set_get e p :
  wf_machine e = true -> letters p = true ->
  length p = length (_rotors e) ->
  exists e',
    grundstellung_set p e = (Ok tt, e')
    /\ grundstellung e' = Ok (upper p)
    /\ ringstellung e' = ringstellung e.
Proof.
  intros H Lp Len.
  destruct (grundstellung_set_spec e p H Lp Len) as (S & _ & _).
  assert (Lu : length (upper p) = length (_rotors e)).
  { rewrite (upper_letters _ Lp), length_map. exact Len. }
  eexists. split; [exact S|]. split.
  - unfold grundstellung. cbn [_rotors with_rotors].
    apply grundstellung_repositioned; [apply upper_letters_upper, Lp|exact Lu].
  - unfold ringstellung. cbn [_rotors with_rotors].
    apply ringstellung_repositioned, Lu.
Qed.

Lemma grundstellung_set_get_witness :
  wf_machine M4 = true /\ letters (py "naem") = true
  /\ length (py "naem") = length (_rotors M4)
  /\ exists e',
       grundstellung_set (py "naem") M4 = (Ok tt, e')
       /\ grundstellung e' = Ok (upper (py "naem"))
       /\ ringstellung e' = ringstellung M4.
Proof.
  assert (H1 : wf_machine M4 = true) by (vm_compute; reflexivity).
  assert (H2 : letters (py "naem") = true) by (vm_compute; reflexivity).
  assert (H3 : length (py "naem") = length (_rotors M4))
    by (vm_compute; reflexivity).
  repeat (split; [assumption|]).
  exact (grundstellung_set_get M4 (py "naem") H1 H2 H3).
Defined.

Lemma ringstellung_loop_spec rs : forall rings,
  forallb wf_rotor rs = true ->
  Forall (fun c => is_upper c = true) rings ->
  length rings = length rs ->
  ringstellung_loop rs rings =
  (Ok tt, map (fun rc => rering (fst rc) (snd rc)) (combine rs rings)).
Proof.
  induction rs as [|r rs IH]; intros rings W U L.
  - destruct rings; [reflexivity|discriminate].
  - destruct rings as [|c rings]; [discriminate|].
    simpl in W. apply andb_prop in W. destruct W as [Wr Wrs].
    inversion U as [|? ? Uc Urs]; subst. injection L as L.
    cbn [ringstellung_loop]. rewrite (index_ABC _ Uc).
    rewrite remap_spec.
    + rewrite (IH rings Wrs Urs L). reflexivity.
    + apply perm_Forall_upper. apply (wf_rotor_spec _ Wr).
Qed.

Lemma ringstellung_rering rs : forall cs,
  Forall (fun c => is_upper c = true) cs -> length cs = length rs ->
  mapM (fun r : _InternalRotor => getitem ABC (ring r))
       (map (fun rc => rering (fst rc) (snd rc)) (combine rs cs))
  = Ok cs.
Proof.
  induction rs as [|r rs IH]; intros [|c cs] U L; try discriminate;
    [reflexivity|].
  inversion U as [|? ? Uc U']; subst. injection L as L. simpl.
  rewrite (getitem_ABC _ (ord_range _ Uc)). cbn [rbind].
  rewrite (IH cs U' L). cbn [rbind]. rewrite (chr_ord _ Uc). reflexivity.
Qed.

Lemma grundstellung_rering rs : forall cs,
  length cs = length rs ->
  mapM (fun r => getitem ABC (pos r))
       (map (fun rc => rering (fst rc) (snd rc)) (combine rs cs))
  = mapM (fun r => getitem ABC (pos r)) rs.
Proof.
  induction rs as [|r rs IH]; intros [|c cs] L; try discriminate;
    [reflexivity|].
  injection L as L. simpl. rewrite (IH cs L). reflexivity.
Qed.

Lemma ringstellung_set_spec e rings :
  wf_machine e = true -> letters rings = true ->
  length rings = length (_rotors e) ->
  ringstellung_set rings e =
  (Ok tt, with_rotors e (map (fun rc => rering (fst rc) (snd rc))
                             (combine (_rotors e) (upper rings))))
  /\ wf_machine
       (with_rotors e (map (fun rc => rering (fst rc) (snd rc))
                           (combine (_rotors e) (upper rings)))) = true.
Proof.
  intros H Lp Len.
  assert (Hne : rings <> []).
  { destruct (wf_last_three e H) as (pre & r3 & r2 & r1 & _ & _ & E & _).
    rewrite E, length_app in Len.
    destruct rings; [simpl in Len; lia|congruence]. }
  assert (Lu : length (upper rings) = length (_rotors e)).
  { rewrite (upper_letters _ Lp), length_map. exact Len. }
  pose proof (upper_letters_upper _ Lp) as U.
  assert (W : forallb wf_rotor (_rotors e) = true)
    by (apply wf_machine_iff in H; tauto).
  assert (S : ringstellung_set rings e =
              (Ok tt, with_rotors e
                        (map (fun rc => rering (fst rc) (snd rc))
                             (combine (_rotors e) (upper rings))))).
  { unfold ringstellung_set. unfold len. rewrite Len, Z.eqb_refl.
    simpl negb. cbv iota. rewrite (isalpha_letters _ Lp Hne). simpl negb.
    cbv iota. rewrite (ringstellung_loop_spec _ _ W U Lu). reflexivity. }
  split; [exact S|].
  destruct (ringstellung_set_wf _ _ _ W S) as (W' & N' & R').
  apply wf_machine_iff in H. destruct H as (_ & H2 & H3 & H4 & H5).
  apply wf_machine_iff. rewrite N', R'.
  cbn [_plugboard with_rotors]. auto.
Qed.

(** X12.  On a machine in a valid state, assigning ring settings of one
    ASCII letter per rotor succeeds; the [ringstellung] getter then
    returns the assigned string in upper case, the rotors stand where
    they stood, and the machine is still in a valid state. *)
Theorem ringstellung_set_get e rings :
  wf_machine e = true -> letters rings = true ->
  length rings = length (_rotors e) ->
  exists e',
    ringstellung_set rings e = (Ok tt, e')
    /\ ringstellung e' = Ok (upper rings)
    /\ grundstellung e' = grundstellung e
    /\ wf_machine e' = true.
Proof.
  intros H Lp Len.
  destruct (ringstellung_set_spec e rings H Lp Len) as [S W].
  assert (Lu : length (upper rings) = length (_rotors e)).
  { rewrite (upper_letters _ Lp), length_map. exact Len. }
  eexists. split; [exact S|]. split; [|split; [|exact W]].
  - unfold ringstellung. cbn [_rotors with_rotors].
    apply ringstellung_rering; [apply upper_letters_upper, Lp|exact Lu].
  - unfold grundstellung. cbn [_rotors with_rotors].
    apply grundstellung_rering, Lu.
Qed.

Lemma ringstellung_set_get_witness :
  wf_machine M3 = true /\ letters (py "fcd") = true
  /\ length (py "fcd") = length (_rotors M3)
  /\ exists e',
       ringstellung_set (py "fcd") M3 = (Ok tt, e')
       /\ ringstellung e' = Ok (upper (py "fcd"))
       /\ grundstellung e' = grundstellung M3
       /\ wf_machine e' = true.
Proof.
  assert (H1 : wf_machine M3 = true) by (vm_compute; reflexivity).
  assert (H2 : letters (py "fcd") = true) by (vm_compute; reflexivity).
  assert (H3 : length (py "fcd") = length (_rotors M3))
    by (vm_compute; reflexivity).
  repeat (split; [assumption|]).
  exact (ringstellung_set_get M3 (py "fcd") H1 H2 H3).
Defined.

(** ** The plugboard read back *)

Lemma dict_set_fresh d k v :
  ~ In k (map fst d) -> dict_set d k v = d ++ [(k, v)].
Proof.
  induction d as [|[k' v'] d IH]; simpl; intros H; [reflexivity|].
  destruct (N.eqb_spec k' k) as [E|_]; [exfalso; apply H; left; exact E|].
  rewrite IH; [reflexivity|]. intros Hin. apply H. right. exact Hin.
Qed.

Lemma plugboard_loop_entries plugboard : forall d,
  existsb (fun p => negb (len p =? 2)) plugboard = false ->
  letters (concat plugboard) = true ->
  NoDup (map fst d ++ map to_upper (concat plugboard)) ->
  plugboard_loop plugboard d = (Ok tt, d ++ flat_map pair_entries plugboard).
Proof.
  induction plugboard as [|p rest IH]; intros d H2 L ND.
  - simpl. rewrite app_nil_r. reflexivity.
  - simpl in H2. apply orb_false_elim in H2. destruct H2 as [Hp Hrest].
    apply negb_false_iff, Z.eqb_eq in Hp.
    destruct p as [|a [|b [|? ?]]]; try (cbv in Hp; discriminate);
      [|unfold len in Hp; simpl in Hp; lia].
    simpl concat in L, ND. simpl in L.
    apply andb_prop in L. destruct L as [La L].
    apply andb_prop in L. destruct L as [Lb L].
    simpl map in ND.
    pose proof (NoDup_remove_2 _ _ _ ND) as Na.
    pose proof (NoDup_remove_1 _ _ _ ND) as ND1.
    pose proof (NoDup_remove_2 _ _ _ ND1) as Nb.
    assert (Hab : to_upper a <> to_upper b).
    { intros E. apply Na. apply in_or_app. right. left. symmetry. exact E. }
    cbn [plugboard_loop]. unfold getitem at 1 2. simpl.
    destruct (N.eqb_spec a b) as [E|_]; [subst; congruence|].
    cbn [flat_map]. unfold pair_entries at 1.
    unfold upper. simpl.
    rewrite (upper_cp_letter _ La), (upper_cp_letter _ Lb). simpl.
    unfold getitem. simpl.
    rewrite (dict_set_fresh d (to_upper a) (to_upper b)).
    2:{ intros Hin. apply Na. apply in_or_app. left. exact Hin. }
    rewrite dict_set_fresh.
    2:{ rewrite map_app. simpl. intros Hin. apply in_app_or in Hin.
        destruct Hin as [Hin|[Hin|[]]]; [|congruence].
        apply Nb. apply in_or_app. left. exact Hin. }
    rewrite IH; try assumption.
    + rewrite <- !app_assoc. reflexivity.
    + rewrite !map_app. simpl. rewrite <- !app_assoc. simpl. exact ND.
Qed.

Lemma NoDup_count s c : NoDup s -> count s c <= 1.
Proof.
  unfold count, len. induction 1 as [|d s Hd ND IH]; simpl; [lia|].
  destruct (N.eqb_spec d c) as [E|_]; [|exact IH].
  subst d. simpl length.
  assert (F : filter (fun d => (d =? c)%N) s = []).
  { clear - Hd. induction s as [|x s IH]; [reflexivity|]. simpl.
    destruct (N.eqb_spec x c) as [E|_].
    - exfalso. apply Hd. left. exact E.
    - apply IH. intros H. apply Hd. right. exact H. }
  rewrite F. simpl. lia.
Qed.

Lemma NoDup_no_repeat s :
  NoDup s -> existsb (fun c => 1 <? count s c) s = false.
Proof.
  intros ND. destruct (existsb _ s) eqn:E; [|reflexivity].
  apply existsb_exists in E. destruct E as (c & _ & Hc).
  apply Z.ltb_lt in Hc. pose proof (NoDup_count s c ND). lia.
Qed.

Lemma plugboard_get_entries plugboard :
  existsb (fun p => negb (len p =? 2)) plugboard = false ->
  letters (concat plugboard) = true ->
  NoDup (map to_upper (concat plugboard)) ->
  map (fun kv => [fst kv; snd kv])
      (filter (fun kv => (fst kv <? snd kv)%N)
              (flat_map pair_entries plugboard))
  = map sorted_pair plugboard.
Proof.
  induction plugboard as [|p rest IH]; intros H2 L ND; [reflexivity|].
  simpl in H2. apply orb_false_elim in H2. destruct H2 as [Hp Hrest].
  apply negb_false_iff, Z.eqb_eq in Hp.
  destruct p as [|a [|b [|? ?]]]; try (cbv in Hp; discriminate);
    [|unfold len in Hp; simpl in Hp; lia].
  simpl concat in L, ND. simpl in L.
  apply andb_prop in L. destruct L as [La L].
  apply andb_prop in L. destruct L as [Lb L].
  simpl map in ND.
  inversion ND as [|? ? Na ND']; subst.
  inversion ND' as [|? ? Nb ND'']; subst.
  assert (Hab : to_upper a <> to_upper b)
    by (intros E; apply Na; left; symmetry; exact E).
  cbn [flat_map map]. unfold pair_entries at 1, sorted_pair at 1.
  unfold upper. simpl flat_map.
  rewrite (upper_cp_letter _ La), (upper_cp_letter _ Lb).
  cbn [app filter fst snd].
  rewrite <- (IH Hrest L ND'').
  destruct (N.ltb_spec (to_upper a) (to_upper b)) as [Lt|Ge];
    destruct (N.ltb_spec (to_upper b) (to_upper a)) as [Lt'|Ge'];
    try reflexivity; exfalso; lia.
Qed.

Lemma plugboard_set_spec plugboard e :
  existsb (fun p => negb (len p =? 2)) plugboard = false ->
  letters (concat plugboard) = true ->
  distinct (upper (concat plugboard)) = true ->
  plugboard_set plugboard e
  = (Ok tt, with_plugboard e (flat_map pair_entries plugboard))
  /\ (wf_machine e = true ->
      wf_machine (with_plugboard e (flat_map pair_entries plugboard)) = true).
Proof.
  intros H2 L D. pose proof D as D0.
  apply distinct_NoDup in D. rewrite (upper_letters _ L) in D.
  assert (S : plugboard_set plugboard e =
              (Ok tt, with_plugboard e (flat_map pair_entries plugboard))).
  { unfold plugboard_set. destruct plugboard as [|p rest]; [reflexivity|].
    rewrite H2. cbn [orb].
    assert (Hne : concat (p :: rest) <> []).
    { simpl in H2. apply orb_false_elim in H2. destruct H2 as [Hp _].
      apply negb_false_iff, Z.eqb_eq in Hp.
      destruct p; [cbv in Hp; discriminate|simpl; congruence]. }
    rewrite (isalpha_letters _ L Hne). simpl negb. cbv iota.
    rewrite (NoDup_no_repeat _ (NoDup_map_inv _ _ D)).
    rewrite (plugboard_loop_entries (p :: rest) [] H2 L D). reflexivity. }
  split; [exact S|].
  intros H. destruct (plugboard_set_plug_ok _ _ _ L D0 S) as [P _].
  apply wf_machine_iff in H. destruct H as (H1 & H2' & H3 & H4 & _).
  apply wf_machine_iff. cbn [_rotors _reflector with_plugboard].
  auto.
Qed.

(** X13.  A list of two-character strings of ASCII letters that are
    distinct whatever their case is accepted by the [plugboard] setter;
    the dictionary gets the two entries of each pair in order, the
    [plugboard] getter returns the pairs in the order given, each in
    upper case with its smaller letter first, and a machine in a valid
    state stays in one. *)
Theorem plugboard_set_get plugboard e :
  existsb (fun p => negb (len p =? 2)) plugboard = false ->
  letters (concat plugboard) = true ->
  distinct (upper (concat plugboard)) = true ->
  exists e',
    plugboard_set plugboard e = (Ok tt, e')
    /\ e' = with_plugboard e (flat_map pair_entries plugboard)
    /\ plugboard_get e' = map sorted_pair plugboard
    /\ (wf_machine e = true -> wf_machine e' = true).
Proof.
  intros H2 L D.
  destruct (plugboard_set_spec plugboard e H2 L D) as [S W].
  exists (with_plugboard e (flat_map pair_entries plugboard)).
  split; [exact S|]. split; [reflexivity|]. split; [|exact W].
  unfold plugboard_get. cbn [_plugboard with_plugboard].
  apply plugboard_get_entries;
    [assumption|assumption|].
  apply distinct_NoDup in D. rewrite (upper_letters _ L) in D. exact D.
Qed.

Lemma plugboard_set_get_witness :
  exists e',
    plugboard_set [py "dc"; py "Ba"; py "EF"] M3 = (Ok tt, e')
    /\ e' = with_plugboard M3
              (flat_map pair_entries [py "dc"; py "Ba"; py "EF"])
    /\ plugboard_get e' = map sorted_pair [py "dc"; py "Ba"; py "EF"]
    /\ (wf_machine M3 = true -> wf_machine e' = true).
Proof.
  apply (plugboard_set_get [py "dc"; py "Ba"; py "EF"] M3);
    vm_compute; reflexivity.
Defined.

(** ** Rotor objects *)

Lemma NoDup_distinct s : NoDup s -> distinct s = true.
Proof.
  induction 1 as [|c s Hc _ IH]; [reflexivity|]. simpl. rewrite IH.
  destruct (existsb (N.eqb c) s) eqn:E; [|reflexivity].
  apply existsb_exists in E. destruct E as (d & Hd & Ed).
  apply N.eqb_eq in Ed. subst d. contradiction.
Qed.

Lemma set_size_distinct w :
  length w = 26%nat ->
  (len (set_of N.eq_dec w) <? 26) = negb (distinct w).
Proof.
  intros L. unfold set_of, len. destruct (distinct w) eqn:D.
  - apply distinct_NoDup in D. rewrite (nodup_fixed_point N.eq_dec D).
    unfold str, character in *. rewrite L. reflexivity.
  - simpl. apply Z.ltb_lt.
    pose proof (nodup_length_le N.eq_dec w) as Le.
    destruct (Nat.eq_dec (length (nodup N.eq_dec w)) (length w)) as [E|N].
    + assert (ND : NoDup w) by (apply (nodup_length_NoDup N.eq_dec); lia).
      apply NoDup_distinct in ND. congruence.
    + unfold str, character in *. lia.
Qed.

Lemma getitem_In {A} (s : list A) i x : getitem s i = Ok x -> In x s.
Proof.
  unfold getitem. destruct (_ <? 0); [discriminate|].
  destruct (nth_error s _) eqn:E; [|discriminate].
  intros [= <-]. eapply nth_error_In, E.
Qed.

Lemma mapM_index_upper ns :
  Forall (fun c => is_upper c = true) ns ->
  mapM (fun c => index ABC [c]) ns = Ok (map ord ns).
Proof.
  intros U. apply mapM_map. intros c Hc. apply index_ABC.
  rewrite Forall_forall in U. auto.
Qed.

(** X14.  The [Rotor] constructor on a wiring of ASCII letters, a ring
    letter and at most two upper-case notch letters: the wiring is
    accepted exactly when it has 26 characters that are distinct as
    written, and the object then holds the wiring in upper case, the
    ring letter's position and the set of the notch positions.  The
    test is made before the conversion to upper case, so a wiring with
    the same letter in both cases is accepted. *)
Theorem Rotor_init_letters w n g :
  letters w = true -> ascii_letter g = true ->
  (forall ns, n = Some ns ->
     (length ns = 1 \/ length ns = 2)%nat
     /\ Forall (fun c => is_upper c = true) ns) ->
  Rotor_init w n [g] =
  if (length w =? 26)%nat && distinct w
  then Ok (mkAttrs (upper w) (ord (to_upper g))
             (option_map (fun ns => set_of Z.eq_dec (map ord ns)) n))
  else Raise RotorError.
Proof.
  intros L G N. unfold Rotor_init.
  destruct (Nat.eqb_spec (length w) 26) as [Len|Len].
  - assert (E : (len w =? 26) = true)
      by (apply Z.eqb_eq; unfold len, str, character in *; lia).
    rewrite E. simpl negb. cbn [orb andb].
    rewrite (isalpha_letters _ L) by (intros ->; discriminate).
    simpl negb. cbn [orb]. rewrite (set_size_distinct _ Len).
    destruct (distinct w); cbn [negb]; cbv iota; [|reflexivity].
    rewrite (letter_isalpha _ G). cbn [negb andb orb]. cbv iota.
    assert (Ug : upper [g] = [to_upper g]).
    { rewrite upper_letters; [reflexivity|]. simpl. rewrite G. reflexivity. }
    rewrite Ug, (index_ABC _ (to_upper_upper _ G)). cbn [rbind].
    destruct n as [ns|]; [|reflexivity].
    destruct (N ns eq_refl) as [Hl U].
    assert (El : (len ns =? 1) || (len ns =? 2) = true).
    { unfold len, str, character in *.
      destruct Hl as [-> | ->]; reflexivity. }
    rewrite El. simpl negb. cbv iota.
    rewrite (mapM_index_upper _ U). reflexivity.
  - assert (E : (len w =? 26) = false)
      by (apply Z.eqb_neq; unfold len, str, character in *; lia).
    rewrite E. reflexivity.
Qed.

Lemma Rotor_init_letters_witness :
  Rotor_init double_A (Some (py "Q")) (py "b")
  = Ok (mkAttrs (py "AACDEFGHIJKLMNOPQRSTUVWXYZ") 1 (Some [16])).
Proof.
  refine (eq_trans
            (Rotor_init_letters double_A (Some (py "Q")) 98%N _ _ _) _).
  - vm_compute. reflexivity.
  - vm_compute. reflexivity.
  - intros ns [= <-]. split; [left; reflexivity|].
    repeat constructor.
  - vm_compute. reflexivity.
Defined.

Lemma Rotor_init_ring w n c a :
  is_upper c = true -> Rotor_init w n [c] = Ok a -> ring a = ord c.
Proof.
  intros U. unfold Rotor_init.
  destruct (_ || _); [discriminate|].
  destruct (_ || _); [discriminate|].
  rewrite (upper_of_upper [c]) by (constructor; [exact U|constructor]).
  rewrite (index_ABC _ U). cbn [rbind].
  destruct n as [ns|].
  - destruct (negb _); [discriminate|].
    destruct (mapM _ ns); [|discriminate]. cbn [rbind].
    intros [= <-]. reflexivity.
  - intros [= <-]. reflexivity.
Qed.

Lemma InternalRotor_init_ring (r : Rotor) ir :
  InternalRotor_init r (py "A") = Ok ir ->
  getitem ABC (ring ir) = getitem ABC (ring r).
Proof.
  unfold InternalRotor_init.
  destruct (match notch r with
            | Some ns => cs <- mapM (getitem ABC) ns ;; Ok (Some cs)
            | None => Ok None
            end) as [notches|]; [|discriminate]. cbn [rbind].
  destruct (getitem ABC (ring r)) as [ringc|] eqn:G; [|discriminate].
  cbn [rbind].
  assert (U : is_upper ringc = true) by (apply is_upper_In, (getitem_In _ _ _ G)).
  destruct (Rotor_init (wiring r) notches [ringc]) as [a|] eqn:Ea;
    [|discriminate]. cbn [rbind].
  pose proof (Rotor_init_ring _ _ _ _ U Ea) as Ra.
  destruct (_ && _); [|discriminate].
  destruct (index ABC (upper (py "A"))) as [p|]; [|discriminate].
  cbn [rbind].
  destruct (remap _) as [[[]|] self] eqn:R; [|discriminate].
  intros [= <-]. pose proof (remap_Ok_upper _ _ R) as Uw.
  rewrite (remap_spec _ Uw) in R. injection R as <-.
  cbn [ring self_attrs set_mapping]. rewrite Ra.
  rewrite (getitem_ABC _ (ord_range _ U)), (chr_ord _ U). reflexivity.
Qed.

Lemma mapM_length {A B} (f : A -> res B) l : forall bs,
  mapM f l = Ok bs -> length bs = length l.
Proof.
  intros bs H. apply mapM_Ok_inv in H.
  induction H; simpl; congruence.
Qed.

Lemma rotors_init_rings rotors : forall rs,
  mapM (fun r => InternalRotor_init r (py "A")) rotors = Ok rs ->
  mapM (fun r : _InternalRotor => getitem ABC (ring r)) rs
  = mapM (fun r : Rotor => getitem ABC (ring r)) rotors.
Proof.
  induction rotors as [|r rotors IH]; intros rs; simpl.
  - intros [= <-]. reflexivity.
  - destruct (InternalRotor_init r (py "A")) as [ir|] eqn:Ei; [|discriminate].
    cbn [rbind].
    destruct (mapM _ rotors) as [rs'|]; [|discriminate]. cbn [rbind].
    intros [= <-]. simpl.
    rewrite (InternalRotor_init_ring _ _ Ei), (IH rs' eq_refl). reflexivity.
Qed.

(** X15.  An accepted assignment to [rotors] starts afresh: every rotor
    stands at A again, whatever the positions were, and the ring
    settings are those of the rotor objects given, whatever
    [ringstellung] had been assigned; the reflector, the plugboard and
    the stepping mode are kept. *)
Theorem rotors_set_resets rotors e e' :
  rotors_set rotors e = (Ok tt, e') ->
  grundstellung e' = Ok (times_A (len rotors))
  /\ ringstellung e' = mapM (fun r : Rotor => getitem ABC (ring r)) rotors
  /\ _reflector e' = _reflector e /\ _plugboard e' = _plugboard e
  /\ doublestep e' = doublestep e.
Proof.
  unfold rotors_set.
  destruct (rotors_value (_reflector e) rotors) as [rs|] eqn:V;
    [|discriminate].
  intros [= <-]. apply rotors_value_mapM in V.
  split; [|split; [|repeat split]].
  - unfold grundstellung. cbn [_rotors with_rotors].
    rewrite (mapM_map _ (fun _ => 65%N)).
    + f_equal. unfold times_A, len. rewrite Nat2Z.id.
      rewrite <- (mapM_length _ _ _ V). clear V.
      induction rs; simpl; congruence.
    + intros r Hr. pose proof (rotors_init_inv _ _ V) as F.
      rewrite Forall_forall in F. destruct (F r Hr) as [_ ->]. reflexivity.
  - unfold ringstellung. cbn [_rotors with_rotors].
    apply rotors_init_rings, V.
Qed.

Lemma rotors_set_resets_witness :
  let e1 := snd (encode (py "HELLO") (Some (py "ADT")) M3) in
  let e2 := snd (rotors_set [Named.I; Named.III; Named.V] e1) in
  grundstellung e1 = Ok (py "BFY")
  /\ rotors_set [Named.I; Named.III; Named.V] e1 = (Ok tt, e2)
  /\ grundstellung e2 = Ok (times_A (len [Named.I; Named.III; Named.V]))
  /\ ringstellung e2 =
     mapM (fun r : Rotor => getitem ABC (ring r)) [Named.I; Named.III; Named.V]
  /\ _reflector e2 = _reflector e1 /\ _plugboard e2 = _plugboard e1
  /\ doublestep e2 = doublestep e1.
Proof.
  intros e1 e2.
  split; [vm_compute; reflexivity|]. split; [vm_compute; reflexivity|].
  apply (rotors_set_resets [Named.I; Named.III; Named.V]).
  vm_compute. reflexivity.
Defined.

(** ** Rejected calls *)

(** X17.  An assignment to [rotors], [reflector] or [plugboard] that
    raises leaves the machine exactly as it was: the [rotors] and
    [reflector] setters build the new internal objects before they
    replace the attribute, and the [plugboard] setter, which empties the
    dictionary before it fills it, cannot fail once its tests have
    passed. *)
Theorem rejected_assignment_keeps_machine e x e' :
  (forall rotors, rotors_set rotors e = (Raise x, e') -> e' = e)
  /\ (forall reflector, reflector_set reflector e = (Raise x, e') -> e' = e)
  /\ (forall plugboard, plugboard_set plugboard e = (Raise x, e') -> e' = e).
Proof.
  split; [|split]; intros a H.
  - exact (rotors_set_atomic _ _ _ _ H).
  - exact (reflector_set_atomic _ _ _ _ H).
  - exact (plugboard_set_atomic _ _ _ _ H).
Qed.





Lemma rejected_assignment_keeps_machine_witness :
  rotors_set [Named.BETA; Named.I; Named.II] M3 = (Raise EnigmaError, M3)
  /\ (forall rotors,
        rotors_set rotors M3 = (Raise EnigmaError, M3) -> M3 = M3)
  /\ (forall reflector,
        reflector_set reflector M3 = (Raise EnigmaError, M3) -> M3 = M3)
  /\ (forall plugboard,
        plugboard_set plugboard M3 = (Raise EnigmaError, M3) -> M3 = M3).
Proof.
  split; [vm_compute; reflexivity|].
  exact (rejected_assignment_keeps_machine M3 EnigmaError M3).
Defined.

Lemma grundstellung_set_Ok_inv s e e1 :
  grundstellung_set s e = (Ok tt, e1) ->
  isalpha s = true /\ len s = len (_rotors e).
Proof.
  unfold grundstellung_set.
  destruct (isalpha s); simpl negb; cbv iota; [|discriminate].
  destruct (Z.eqb_spec (len s) (len (_rotors e))) as [L|L];
    simpl negb; cbv iota; [|discriminate].
  auto.
Qed.



(** X20.  The [reflector] setter accepts every reflector object whose
    wiring is in upper case, whatever the number of rotors (the test of
    thin reflectors against the number of rotors is made by the
    [rotors] setter only); the machine stays in a valid state, with the
    same rotors, positions and plugboard. *)
Theorem reflector_set_valid e (reflector : Rotor) e' :
  wf_machine e = true ->
  forallb is_upper (wiring reflector) = true ->
  reflector_set reflector e = (Ok tt, e') ->
  wf_machine e' = true
  /\ _rotors e' = _rotors e /\ _plugboard e' = _plugboard e
  /\ doublestep e' = doublestep e
  /\ wiring (_reflector e') = wiring reflector.
Proof.
  intros H U. unfold reflector_set.
  destruct (InternalReflector_init reflector) as [r|] eqn:E; [|discriminate].
  intros [= <-]. destruct (Reflector_init_wf _ _ U E) as [P S].
  cbn [_rotors _plugboard doublestep _reflector with_reflector].
  split; [|repeat split].
  - apply wf_machine_iff in H. destruct H as (H1 & H2 & _ & _ & H5).
    apply wf_machine_iff.
    cbn [_rotors _plugboard _reflector with_reflector]. auto.
  - revert E. unfold InternalReflector_init, Reflector_init.
    destruct (Rotor_init (wiring reflector) None (py "A")) as [a|] eqn:Ea;
      [|discriminate]. cbn [rbind].
    destruct (Reflector_check _ _) as [[]|]; [|discriminate]. cbn [rbind].
    intros [= <-]. cbn [wiring reflector_attrs].
    destruct (Rotor_init_Ok _ _ _ _ Ea) as (_ & _ & -> & _).
    apply upper_of_upper. apply Forall_forall. intros c Hc.
    rewrite forallb_forall in U. auto.
Qed.

Lemma reflector_set_valid_witness :
  length (_rotors M3) = 3%nat
  /\ exists e',
       reflector_set Named.UKWB_THIN M3 = (Ok tt, e')
       /\ wf_machine e' = true
       /\ _rotors e' = _rotors M3 /\ _plugboard e' = _plugboard M3
       /\ doublestep e' = doublestep M3
       /\ wiring (_reflector e') = wiring Named.UKWB_THIN.
Proof.
  split; [reflexivity|]. eexists. split; [vm_compute; reflexivity|].
  apply (reflector_set_valid M3 Named.UKWB_THIN).
  - vm_compute. reflexivity.
  - vm_compute. reflexivity.
  - vm_compute. reflexivity.
Defined.

(** ** The settings of a new machine *)

Lemma times_A_upper n : Forall (fun c => is_upper c = true) (times_A n).
Proof.
  unfold times_A. induction (Z.to_nat n); simpl; constructor;
    [reflexivity|assumption].
Qed.

Lemma times_A_letters n : letters (times_A n) = true.
Proof.
  unfold times_A. induction (Z.to_nat n); simpl; [reflexivity|assumption].
Qed.

Lemma ringstellung_set_Ok_inv s e e1 :
  ringstellung_set s e = (Ok tt, e1) -> len (_rotors e) = len s.
Proof.
  unfold ringstellung_set.
  destruct (Z.eqb_spec (len (_rotors e)) (len s)) as [L|L];
    simpl negb; cbv iota; [|discriminate].
  auto.
Qed.

Lemma default_letters (s : str) n :
  letters s = true ->
  letters (match s with [] => times_A n | _ => s end) = true.
Proof. destruct s; [intros _; apply times_A_letters|auto]. Qed.

Lemma default_upper (s : str) n :
  upper (match s with [] => times_A n | _ => s end)
  = match s with [] => times_A n | _ => upper s end.
Proof. destruct s; [apply upper_of_upper, times_A_upper|reflexivity]. Qed.

(** X21.  What the constructor accepts is what the getters give back.
    For rotor and reflector objects with upper-case wirings, the two
    rightmost rotors with notches, ring settings and starting positions
    of ASCII letters and a plugboard of two-letter strings of ASCII
    letters distinct whatever their case: the machine constructed is in
    a valid state, [ringstellung] and [grundstellung] read back the
    arguments in upper case (a string of A, one per rotor, for an empty
    argument), [plugboard] reads back the pairs sorted, and
    [doublestep] is the argument. *)
Theorem Enigma_init_settings rotors reflector rings plugboard ds g e :
  valid_configuration rotors reflector plugboard = true ->
  existsb (fun p => negb (len p =? 2)) plugboard = false ->
  letters rings = true -> letters g = true ->
  Enigma_init rotors reflector rings plugboard ds g = Ok e ->
  wf_machine e = true
  /\ ringstellung e
     = Ok (match rings with [] => times_A (len rotors) | _ => upper rings end)
  /\ grundstellung e
     = Ok (match g with [] => times_A (len rotors) | _ => upper g end)
  /\ plugboard_get e = map sorted_pair plugboard
  /\ doublestep e = ds.
Proof.
  intros V P2 Lr Lg I. pose proof V as V0. revert V I.
  unfold valid_configuration. rewrite !andb_true_iff.
  intros [[[[V1 V2] V3] V4] V5]. unfold Enigma_init.
  destruct (InternalReflector_init reflector) as [refl|] eqn:Er;
    [|discriminate]. cbn [rbind].
  destruct (rotors_value refl rotors) as [rs|] eqn:Ers; [|discriminate].
  cbn [rbind]. cbv zeta. unfold bind.
  destruct (ringstellung_set _ _) as [[[]|] e1] eqn:E1; [|discriminate].
  destruct (grundstellung_set _ e1) as [[[]|] e2] eqn:E2; [|discriminate].
  destruct (plugboard_set plugboard e2) as [[[]|] e3] eqn:E3; [|discriminate].
  intros [= <-].
  destruct (plugboard_set_spec plugboard e2 P2 V4 V5) as [S3 H3].
  rewrite S3 in E3. injection E3 as <-.
  destruct (Reflector_init_wf _ _ V2 Er) as [Rp Rs].
  destruct (rotors_value_wf _ _ _ V1 Ers) as (W0 & N0 & Len).
  assert (H0 : wf_machine (mkEnigma refl rs [] ds) = true).
  { apply wf_machine_iff. cbn [_rotors _reflector _plugboard]. rewrite N0.
    repeat split; try assumption.
    rewrite <- (length_map defines_notch), <- length_rev in Len.
    destruct (rev (map defines_notch rotors)) as [|n1 [|n2 [|n3 l]]];
      try discriminate; simpl in Len; try lia. exact V3. }
  pose proof (default_letters rings (len rotors) Lr) as Lr'.
  pose proof (default_letters g (len rotors) Lg) as Lg'.
  pose proof (ringstellung_set_Ok_inv _ _ _ E1) as L1.
  cbn [_rotors] in L1.
  assert (L1' : length (match rings with
                        | [] => times_A (len rotors)
                        | _ => rings
                        end) = length rs)
    by (apply Nat2Z.inj; symmetry; exact L1).
  destruct (ringstellung_set_spec _ _ H0 Lr' L1') as [S1 H1].
  rewrite S1 in E1. injection E1 as <-.
  destruct (grundstellung_set_Ok_inv _ _ _ E2) as [_ L2].
  assert (L2' : length (match g with
                        | [] => times_A (len rotors)
                        | _ => g
                        end)
                = length (_rotors
                    (with_rotors (mkEnigma refl rs [] ds)
                       (map (fun rc => rering (fst rc) (snd rc))
                          (combine rs
                             (upper (match rings with
                                     | [] => times_A (len rotors)
                                     | _ => rings
                                     end)))))))
    by (apply Nat2Z.inj; exact L2).
  destruct (grundstellung_set_spec _ _ H1 Lg' L2') as (S2 & H2 & _).
  pose proof (eq_trans (eq_sym S2) E2) as X2. injection X2 as <-.
  split; [apply H3, H2|].
  assert (Lu1 : length (upper (match rings with
                               | [] => times_A (len rotors)
                               | _ => rings
                               end)) = length rs).
  { rewrite (upper_letters _ Lr'), length_map. exact L1'. }
  cbn [_rotors with_rotors] in L2'.
  assert (Lu2 : length (upper (match g with
                               | [] => times_A (len rotors)
                               | _ => g
                               end))
                = length (map (fun rc => rering (fst rc) (snd rc))
                            (combine rs
                               (upper (match rings with
                                       | [] => times_A (len rotors)
                                       | _ => rings
                                       end))))).
  { rewrite (upper_letters _ Lg'), length_map. exact L2'. }
  split; [|split; [|split]].
  - unfold ringstellung. cbn [_rotors with_rotors with_plugboard].
    rewrite (ringstellung_repositioned _ _ Lu2).
    rewrite (ringstellung_rering _ _ (upper_letters_upper _ Lr') Lu1).
    rewrite default_upper. reflexivity.
  - unfold grundstellung. cbn [_rotors with_rotors with_plugboard].
    rewrite (grundstellung_repositioned _ _ (upper_letters_upper _ Lg') Lu2).
    rewrite default_upper. reflexivity.
  - unfold plugboard_get. cbn [_plugboard with_plugboard].
    apply plugboard_get_entries; [assumption|assumption|].
    apply distinct_NoDup in V5. rewrite (upper_letters _ V4) in V5. exact V5.
  - reflexivity.
Qed.

Lemma Enigma_init_settings_witness :
  wf_machine M4 = true
  /\ ringstellung M4 = Ok (upper (py "EPEL"))
  /\ grundstellung M4
     = Ok (times_A (len [Named.BETA; Named.V; Named.VI; Named.VIII]))
  /\ plugboard_get M4 = map sorted_pair M4_plugboard
  /\ doublestep M4 = true.
Proof.
  apply (Enigma_init_settings [Named.BETA; Named.V; Named.VI; Named.VIII]
           Named.UKWC_THIN (py "EPEL") M4_plugboard true [] M4);
    vm_compute; reflexivity.
Defined.
